(** * Ark restore engine: a shallow embedding of [pkg/restore/restore.go]
      and of the gzip/tar archive reader of [pkg/archive].

    Go values are modelled as follows.
    - [string] is [string]; an [error] is its message, and a nil error is
      the absence of one ([option error], or the [Ok] side of [result]).
    - [map[string]T] is [gmap string T]; a nil map and an empty map are
      both [∅] unless the code tells them apart, in which case the nil map
      is [None].
    - [sets.String] is [gset string].
    - An untyped document ([map[string]interface{}]) is a [value] tree.
    - Collaborators reached through Go interfaces (discovery helper,
      dynamic client, block store, item actions, file system) are records
      of functions over an abstract state of the outside world. *)

From stdpp Require Import gmap strings list sorting.
From Stdlib Require Import Ascii String.

Set Warnings "-register-all,-clear-no-such-hyp".
Set Default Proof Using "Type".
#[local] Open Scope string_scope.
#[local] Open Scope list_scope.

Definition error := string.

(** The two results of a fallible Go function [(T, error)]. *)
Inductive result (A : Type) : Type :=
  | Ok (a : A)
  | Err (e : error).
Arguments Ok {A} a.
Arguments Err {A} e.

Definition is_Err {A} (r : result A) : Prop :=
  match r with Ok _ => False | Err _ => True end.

(** ** Strings *)

(** [strings.Index(s, c)] for a one-byte separator: the text before and
    after the first occurrence, [None] when there is none. *)
Fixpoint cut (c : ascii) (s : string) : option (string * string) :=
  match s with
  | EmptyString => None
  | String a s' =>
      if Ascii.eqb a c then Some (EmptyString, s')
      else match cut c s' with
           | Some (l, r) => Some (String a l, r)
           | None => None
           end
  end.

(** [strings.Count(s, c)] for a one-byte separator. *)
Fixpoint count_char (c : ascii) (s : string) : nat :=
  match s with
  | EmptyString => 0
  | String a s' => (if Ascii.eqb a c then 1 else 0) + count_char c s'
  end.

(** The double-quote character, and [%q] on a string without characters
    that need escaping. *)
Definition dquote : string := String (ascii_of_nat 34) EmptyString.
Definition quoted (s : string) : string := dquote +:+ s +:+ dquote.

(** ** [k8s.io/apimachinery/pkg/runtime/schema] *)
Module schema.

Record GroupResource := mkGR { Group : string; Resource : string }.
Record GroupVersion := mkGV { gvGroup : string; gvVersion : string }.
Record GroupVersionResource :=
  mkGVR { gvrGroup : string; gvrVersion : string; gvrResource : string }.

#[global] Instance GroupResource_eq_dec : EqDecision GroupResource.
Proof. solve_decision. Defined.

(** [ParseGroupResource]: "resource.group", split at the first dot. *)
Definition ParseGroupResource (gr : string) : GroupResource :=
  match cut "." gr with
  | Some (res, grp) => {| Group := grp; Resource := res |}
  | None => {| Group := ""; Resource := gr |}
  end.

(** [GroupResource.String]: "resource.group", or "resource" alone for the
    core group. *)
Definition GroupResource_String (gr : GroupResource) : string :=
  if decide (Group gr = "") then Resource gr
  else Resource gr +:+ "." +:+ Group gr.

Definition WithVersion (gr : GroupResource) (version : string)
  : GroupVersionResource :=
  {| gvrGroup := Group gr; gvrVersion := version; gvrResource := Resource gr |}.

Definition GroupResourceOf (gvr : GroupVersionResource) : GroupResource :=
  {| Group := gvrGroup gvr; Resource := gvrResource gvr |}.

(** [ParseGroupVersion]: "version" or "group/version". *)
Definition ParseGroupVersion (gv : string) : result GroupVersion :=
  if decide (gv = "" ∨ gv = "/") then Ok (mkGV "" "")
  else match count_char "/" gv with
       | 0 => Ok (mkGV "" gv)
       | 1 => match cut "/" gv with
              | Some (g, v) => Ok (mkGV g v)
              | None => Ok (mkGV "" gv)
              end
       | _ => Err ("unexpected GroupVersion string: " +:+ gv)
       end.

Definition GVWithResource (gv : GroupVersion) (resource : string)
  : GroupVersionResource :=
  {| gvrGroup := gvGroup gv; gvrVersion := gvVersion gv; gvrResource := resource |}.

End schema.

(** ** [pkg/kuberesource] *)
Module kuberesource.
Import schema.

(** Modelled from the spec: the package [pkg/kuberesource] is not part of
    the sources at hand; the resource types the engine special-cases
    (namespaces, pods, persistent volumes, persistent volume claims,
    service accounts, jobs) carry their Kubernetes group and plural name. *)
Definition Namespaces := mkGR "" "namespaces".
Definition Pods := mkGR "" "pods".
Definition PersistentVolumes := mkGR "" "persistentvolumes".
Definition PersistentVolumeClaims := mkGR "" "persistentvolumeclaims".
Definition ServiceAccounts := mkGR "" "serviceaccounts".
Definition Jobs := mkGR "batch" "jobs".

End kuberesource.

(** ** [pkg/discovery] and [pkg/util/collections] interfaces *)
Module discovery.
Import schema.

Record APIResource := mkAPIResource { Name : string; Namespaced : bool }.
Record APIResourceList :=
  mkAPIResourceList { GroupVersionOf : string; APIResources : list APIResource }.

(** [discovery.Helper]: the two methods the restorer calls. *)
Record Helper := mkHelper {
  ResourceFor : GroupVersionResource → result (GroupVersionResource * APIResource);
  Resources : list APIResourceList;
}.

End discovery.

Module collections.

(** [collections.IncludesExcludes] is used through [ShouldInclude] only. *)
Record IncludesExcludes := mkIE { ShouldInclude : string → bool }.

End collections.


(** ** [pkg/restore]: resource prioritisation *)
Module prioritize.
Import schema discovery collections.

(** The comparison handed to [sort.Slice]: [a.String() < b.String()] on Go
    strings, that is byte-wise lexicographic order. *)
Definition byNameLess (a b : GroupResource) : bool :=
  String.ltb (GroupResource_String a) (GroupResource_String b).

(** The order [sort.Slice] establishes: no element is [byNameLess] than an
    earlier one. *)
Definition byNameLe (a b : GroupResource) : Prop :=
  byNameLess b a = false.

#[global] Instance byNameLe_dec a b : Decision (byNameLe a b).
Proof. unfold byNameLe. apply _. Defined.

(** [sort.Slice(byName, less)]. Go promises a sorted permutation and no
    stability; the properties below use no more than that. *)
Definition sortSlice (byName : list GroupResource) : list GroupResource :=
  merge_sort byNameLe byName.

(** First loop of [prioritizeResources]: resolve each priority through
    discovery, keep the included ones in [ret] and remember their names
    in [set]. *)
Fixpoint resolvePriorities (helper : Helper) (includedResources : IncludesExcludes)
    (priorities : list string) (ret : list GroupResource) (set : gset string)
  : result (list GroupResource * gset string) :=
  match priorities with
  | [] => Ok (ret, set)
  | r :: priorities' =>
      match ResourceFor helper (WithVersion (ParseGroupResource r) "") with
      | Err err => Err err
      | Ok (gvr, _) =>
          let gr := GroupResourceOf gvr in
          if negb (ShouldInclude includedResources (GroupResource_String gr))
          then resolvePriorities helper includedResources priorities' ret set
          else resolvePriorities helper includedResources priorities'
                 (ret ++ [gr]) ({[GroupResource_String gr]} ∪ set)
      end
  end.

(** Inner loop over [resourceGroup.APIResources]. *)
Fixpoint collectResources (includedResources : IncludesExcludes) (set : gset string)
    (groupVersion : GroupVersion) (resources : list APIResource)
    (byName : list GroupResource) : list GroupResource :=
  match resources with
  | [] => byName
  | resource :: resources' =>
      let gr := GroupResourceOf (GVWithResource groupVersion (Name resource)) in
      if negb (ShouldInclude includedResources (GroupResource_String gr))
      then collectResources includedResources set groupVersion resources' byName
      else if decide (GroupResource_String gr ∈ set)
      then collectResources includedResources set groupVersion resources' byName
      else collectResources includedResources set groupVersion resources' (byName ++ [gr])
  end.

(** Outer loop over [helper.Resources()]. *)
Fixpoint collectGroups (includedResources : IncludesExcludes) (set : gset string)
    (groups : list APIResourceList) (byName : list GroupResource)
  : result (list GroupResource) :=
  match groups with
  | [] => Ok byName
  | resourceGroup :: groups' =>
      match ParseGroupVersion (GroupVersionOf resourceGroup) with
      | Err err => Err err
      | Ok groupVersion =>
          collectGroups includedResources set groups'
            (collectResources includedResources set groupVersion
               (APIResources resourceGroup) byName)
      end
  end.

Definition prioritizeResources (helper : Helper) (priorities : list string)
    (includedResources : IncludesExcludes) : result (list GroupResource) :=
  match resolvePriorities helper includedResources priorities [] ∅ with
  | Err err => Err err
  | Ok (ret, set) =>
      match collectGroups includedResources set (Resources helper) [] with
      | Err err => Err err
      | Ok byName => Ok (ret ++ sortSlice byName)
      end
  end.

End prioritize.

(** ** [path/filepath] *)
Module filepath.

(** The elements of a path: the texts between its separators. *)
Fixpoint split (path : string) : list string :=
  match path with
  | EmptyString => [""]
  | String a path' =>
      if Ascii.eqb a "/" then "" :: split path'
      else match split path' with
           | [] => [String a ""]
           | e :: es => String a e :: es
           end
  end.

(** One turn of the loop of [filepath.Clean], on the element [e]; [out]
    holds the elements written so far, the last one first. An empty
    element and [.] are dropped; [..] takes back the last element written
    when there is one that is not itself [..], is dropped at the root, and
    is written otherwise; any other element is written. *)
Definition cleanElement (rooted : bool) (out : list string) (e : string) : list string :=
  if decide (e = "" ∨ e = ".") then out
  else if decide (e = "..") then
    match out with
    | [] => if rooted then [] else [".."]
    | last :: out' => if decide (last = "..") then ".." :: out else out'
    end
  else e :: out.

(** [filepath.Clean] with the separator [/]: the shortest path equivalent
    to [path] by lexical processing; the empty path becomes [.]. *)
Definition Clean (path : string) : string :=
  let rooted := String.prefix "/" path in
  let out := rev (fold_left (cleanElement rooted) (split path) []) in
  if rooted then "/" +:+ String.concat "/" out
  else match out with
       | [] => "."
       | _ => String.concat "/" out
       end.

(** [filepath.Join]: the elements from the first non-empty one on,
    separated by slashes, and the result cleaned; the empty string when
    every element is empty. *)
Fixpoint Join (elems : list string) : string :=
  match elems with
  | [] => ""
  | e :: elems' =>
      if decide (e = "") then Join elems' else Clean (String.concat "/" elems)
  end.

(** The text before the last occurrence of a separator. *)
Fixpoint beforeLast (c : ascii) (s : string) : option string :=
  match s with
  | EmptyString => None
  | String a s' =>
      match beforeLast c s' with
      | Some l => Some (String a l)
      | None => if Ascii.eqb a c then Some EmptyString else None
      end
  end.

(** [filepath.Dir]: the path up to and including its last separator,
    cleaned; [.] for a path without separator. *)
Definition Dir (path : string) : string :=
  match beforeLast "/" path with
  | None => Clean ""
  | Some dir => Clean (dir +:+ "/")
  end.

End filepath.

(** ** [pkg/util/filesystem] *)
Module filesystem.

Record FileInfo := mkFileInfo { fiName : string; IsDir : bool }.

(** [filesystem.Interface], over an abstract state [FS] of the disk. Each
    method returns its Go results and the disk after the call. [Copy]
    stands for [io.Copy] into the file that [Create] returned. *)
Record Interface (FS : Type) := mkInterface {
  TempDir : FS → string → string → result string * FS;
  MkdirAll : FS → string → N → option error * FS;
  Create : FS → string → option error * FS;
  Copy : FS → string → string → option error * FS;
  DirExists : FS → string → result bool;
  ReadDir : FS → string → result (list FileInfo);
  ReadFile : FS → string → result string;
  RemoveAll : FS → string → option error * FS;
}.
Arguments TempDir {FS}.
Arguments MkdirAll {FS}.
Arguments Create {FS}.
Arguments Copy {FS}.
Arguments DirExists {FS}.
Arguments ReadDir {FS}.
Arguments ReadFile {FS}.
Arguments RemoveAll {FS}.

(** The calls made on the file system, in order. *)
Inductive call :=
  | CallTempDir (dir pfx : string)
  | CallMkdirAll (path : string)
  | CallCreate (path : string)
  | CallCopy (path : string)
  | CallDirExists (path : string)
  | CallReadDir (path : string)
  | CallReadFile (path : string)
  | CallRemoveAll (path : string).

(** The disk together with the record of the calls made on it. *)
Record fsys (FS : Type) := mkFsys { disk : FS; calls : list call }.
Arguments mkFsys {FS}.
Arguments disk {FS}.
Arguments calls {FS}.

End filesystem.

(** ** [pkg/archive]: the gzip/tar reader *)
Module archive.
Import filesystem.

(** Modelled from the spec: the directory names of [pkg/apis/ark/v1] are
    not part of the sources at hand; the layout contract is a root
    resources directory with one subdirectory per resource type, each
    holding a cluster subdirectory or a namespaces subdirectory. *)
Definition ResourcesDir := "resources".
Definition ClusterScopedDir := "cluster".
Definition NamespaceScopedDir := "namespaces".

Definition ResourceScope := string.
Definition ResourceScopeCluster : ResourceScope := "cluster".
Definition ResourceScopeNamespace : ResourceScope := "namespace".
Definition ErrNotExtracted : error := "archive has not been extracted".

(** [errors.Wrapf(err, format, args...)] on a non-nil error. *)
Definition wrap (err : error) (msg : string) : error := msg +:+ ": " +:+ err.

(** The decoded content of the [io.Reader] handed to the reader: what
    [gzip.NewReader] answers and, when it succeeds, the tar entries that
    [rdr.Next] yields followed by [io.EOF] ([None]) or by an error. *)
Inductive typeflag := TypeDir | TypeReg | TypeOther.
Record tarEntry := mkEntry {
  hdrName : string; Typeflag : typeflag; Mode : N; content : string }.
Record tarStream := mkStream { entries : list tarEntry; nextErr : option error }.
Definition ioReader := result tarStream.

Record gzipTarReader (FS : Type) := mkReader {
  archiveOf : ioReader;
  tempDir : string;
  fs : Interface FS;
}.
Arguments mkReader {FS}.
Arguments archiveOf {FS}.
Arguments tempDir {FS}.
Arguments fs {FS}.

Section reader.
Context {FS : Type}.
Implicit Types (r : gzipTarReader FS) (st : fsys FS).

(** [NewGzipTarReader]; the file system is a parameter here, as the test
    sets it after construction. *)
Definition NewGzipTarReader (fsImpl : Interface FS) (a : ioReader) : gzipTarReader FS :=
  {| archiveOf := a; tempDir := ""; fs := fsImpl |}.

Definition logged st (c : call) : fsys FS :=
  {| disk := disk st; calls := calls st ++ [c] |}.

Definition GetResourceScope r (groupResource : string) st
  : result (ResourceScope * bool) * fsys FS :=
  if decide (tempDir r = "") then (Err ErrNotExtracted, st) else
  let dir := filepath.Join [tempDir r; ResourcesDir; groupResource] in
  let st := logged st (CallDirExists dir) in
  match DirExists (fs r) (disk st) dir with
  | Err err => (Err (wrap err ("error checking existence of directory " +:+ dir)), st)
  | Ok false => (Ok ("", false), st)
  | Ok true =>
      let clusterScopedDir := filepath.Join [dir; ClusterScopedDir] in
      let st := logged st (CallDirExists clusterScopedDir) in
      match DirExists (fs r) (disk st) clusterScopedDir with
      | Err err =>
          (Err (wrap err ("error checking existence of directory " +:+ clusterScopedDir)), st)
      | Ok true => (Ok (ResourceScopeCluster, true), st)
      | Ok false => (Ok (ResourceScopeNamespace, true), st)
      end
  end.

Definition ListNamespaces r (groupResource : string) st
  : result (list string) * fsys FS :=
  if decide (tempDir r = "") then (Err ErrNotExtracted, st) else
  match GetResourceScope r groupResource st with
  | (Err err, st) => (Err err, st)
  | (Ok (_, false), st) =>
      (Err ("resource " +:+ groupResource +:+ " not found in archive"), st)
  | (Ok (scope, true), st) =>
      if negb (String.eqb scope ResourceScopeNamespace)
      then (Err ("resource " +:+ groupResource +:+ " is not namespace-scoped"), st)
      else
        let dir := filepath.Join
                     [tempDir r; ResourcesDir; groupResource; NamespaceScopedDir] in
        let st := logged st (CallReadDir dir) in
        match ReadDir (fs r) (disk st) dir with
        | Err err => (Err (wrap err ("error reading contents of directory " +:+ dir)), st)
        | Ok contents => (Ok (fiName <$> filter (λ fi, IsDir fi = true) contents), st)
        end
  end.

Definition ListContents r (groupResource namespace : string) st
  : result (list string) * fsys FS :=
  if decide (tempDir r = "") then (Err ErrNotExtracted, st) else
  let dir :=
    if decide (namespace = "")
    then filepath.Join [tempDir r; ResourcesDir; groupResource; ClusterScopedDir]
    else filepath.Join
           [tempDir r; ResourcesDir; groupResource; NamespaceScopedDir; namespace] in
  let st := logged st (CallReadDir dir) in
  match ReadDir (fs r) (disk st) dir with
  | Err err => (Err (wrap err ("error reading directory " +:+ dir)), st)
  | Ok files => (Ok (fiName <$> files), st)
  end.

Definition Get r (groupResource namespace name : string) st
  : result string * fsys FS :=
  if decide (tempDir r = "") then (Err ErrNotExtracted, st) else
  let filename :=
    if decide (namespace = "")
    then filepath.Join [tempDir r; ResourcesDir; groupResource; ClusterScopedDir; name]
    else filepath.Join
           [tempDir r; ResourcesDir; groupResource; NamespaceScopedDir; namespace; name] in
  let st := logged st (CallReadFile filename) in
  match ReadFile (fs r) (disk st) filename with
  | Err err => (Err (wrap err ("error reading file " +:+ filename)), st)
  | Ok bytes => (Ok bytes, st)
  end.

(** One turn of the loop of [Extract] over a tar entry: [None] when the
    entry was written, the error to return otherwise. *)
Definition extractEntry (fsImpl : Interface FS) (dir : string) (e : tarEntry) st
  : option error * fsys FS :=
  let target := filepath.Join [dir; hdrName e] in
  match Typeflag e with
  | TypeDir =>
      let '(err, d) := MkdirAll fsImpl (disk st) target (Mode e) in
      let st := {| disk := d; calls := calls st ++ [CallMkdirAll target] |} in
      match err with
      | Some err => (Some (wrap err ("error running MkdirAll for " +:+ target)), st)
      | None => (None, st)
      end
  | TypeReg =>
      let '(err, d) := MkdirAll fsImpl (disk st) (filepath.Dir target) (Mode e) in
      let st := {| disk := d; calls := calls st ++ [CallMkdirAll (filepath.Dir target)] |} in
      match err with
      | Some err => (Some (wrap err ("error running MkdirAll for " +:+ target)), st)
      | None =>
          let '(err, d) := Create fsImpl (disk st) target in
          let st := {| disk := d; calls := calls st ++ [CallCreate target] |} in
          match err with
          | Some err => (Some (wrap err ("error creating file " +:+ target)), st)
          | None =>
              let '(err, d) := Copy fsImpl (disk st) target (content e) in
              let st := {| disk := d; calls := calls st ++ [CallCopy target] |} in
              match err with
              | Some err => (Some (wrap err ("error copying data to file " +:+ target)), st)
              | None => (None, st)
              end
          end
      end
  | TypeOther => (None, st)
  end.

(** The loop of [Extract]: entries until [io.EOF] or the first error. *)
Fixpoint extractEntries (fsImpl : Interface FS) (dir : string)
    (es : list tarEntry) (nextErr : option error) st : option error * fsys FS :=
  match es with
  | [] =>
      match nextErr with
      | Some err => (Some (wrap err "error getting next tar header"), st)
      | None => (None, st)
      end
  | e :: es' =>
      match extractEntry fsImpl dir e st with
      | (Some err, st) => (Some err, st)
      | (None, st) => extractEntries fsImpl dir es' nextErr st
      end
  end.

(** [Extract]: the error, the reader (its [tempDir] is set on success
    only) and the file system afterwards. *)
Definition Extract r st : option error * gzipTarReader FS * fsys FS :=
  match archiveOf r with
  | Err err => (Some (wrap err "error creating gzip reader"), r, st)
  | Ok stream =>
      let '(dir, d) := TempDir (fs r) (disk st) "" "" in
      let st := {| disk := d; calls := calls st ++ [CallTempDir "" ""] |} in
      match dir with
      | Err err => (Some (wrap err "error creating temp dir"), r, st)
      | Ok dir =>
          match extractEntries (fs r) dir (entries stream) (nextErr stream) st with
          | (Some err, st) => (Some err, r, st)
          | (None, st) =>
              (None, {| archiveOf := archiveOf r; tempDir := dir; fs := fs r |}, st)
          end
      end
  end.

Definition Close r st : option error * fsys FS :=
  if decide (tempDir r = "") then (None, st) else
  let '(err, d) := RemoveAll (fs r) (disk st) (tempDir r) in
  let st := {| disk := d; calls := calls st ++ [CallRemoveAll (tempDir r)] |} in
  match err with
  | Some err => (Some (wrap err ("error removing temp dir " +:+ tempDir r)), st)
  | None => (None, st)
  end.

End reader.

(** [archive.Reader] as the restorer sees it: the four queries on an
    extracted archive. *)
Record Reader := mkArchiveReader {
  readerGetResourceScope : string → result (ResourceScope * bool);
  readerListNamespaces : string → result (list string);
  readerListContents : string → string → result (list string);
  readerGet : string → string → string → result string;
}.

(** The [Reader] that a [gzipTarReader] implements on a given disk. *)
Definition asReader {FS} (r : gzipTarReader FS) (st : fsys FS) : Reader :=
  {| readerGetResourceScope := λ gr, (GetResourceScope r gr st).1;
     readerListNamespaces := λ gr, (ListNamespaces r gr st).1;
     readerListContents := λ gr ns, (ListContents r gr ns st).1;
     readerGet := λ gr ns name, (Get r gr ns name st).1 |}.

End archive.

(** ** [k8s.io/apimachinery/pkg/apis/meta/v1/unstructured] *)
Module unstructured.

(** A decoded JSON document, [interface{}] as [encoding/json] fills it. *)
Inductive value :=
  | VNull
  | VBool (b : bool)
  | VNum (n : Z)
  | VStr (s : string)
  | VList (l : list value)
  | VMap (m : gmap string value).

Fixpoint value_eq_dec (v1 v2 : value) {struct v1} : Decision (v1 = v2).
Proof.
  refine (
    match v1, v2 with
    | VNull, VNull => left _
    | VBool a, VBool b => cast_if (decide (a = b))
    | VNum a, VNum b => cast_if (decide (a = b))
    | VStr a, VStr b => cast_if (decide (a = b))
    | VList a, VList b => cast_if (@list_eq_dec _ value_eq_dec a b)
    | VMap a, VMap b => cast_if (@gmap_eq_dec _ _ _ _ value_eq_dec a b)
    | _, _ => right _
    end); abstract congruence.
Defined.
#[global] Instance value_EqDecision : EqDecision value := value_eq_dec.

(** [Unstructured.Object], a [map[string]interface{}]. *)
Abbreviation Unstructured := (gmap string value).

(** What a function declared to return [runtime.Unstructured] hands back:
    an [*unstructured.Unstructured], or a value of another dynamic type
    (nil included), named as [%T] prints it. *)
Inductive runtimeUnstructured :=
  | IsUnstructured (u : Unstructured)
  | OtherType (typeName : string).

Definition asMap (v : value) : option (gmap string value) :=
  match v with VMap m => Some m | _ => None end.
Definition asString (v : value) : option string :=
  match v with VStr s => Some s | _ => None end.

(** [NestedFieldNoCopy]: the value found, [Ok None] when a field is
    missing, an error when the path crosses something that is not a map. *)
Fixpoint nestedField (val : value) (fields : list string) : result (option value) :=
  match fields with
  | [] => Ok (Some val)
  | field :: fields' =>
      match val with
      | VMap m =>
          match m !! field with
          | Some v => nestedField v fields'
          | None => Ok None
          end
      | _ => Err ("accessor error: " +:+ field +:+ ": expected map[string]interface{}")
      end
  end.

Definition NestedFieldNoCopy (obj : Unstructured) (fields : list string)
  : result (option value) := nestedField (VMap obj) fields.

(** [NestedString]: the string and whether it was found. *)
Definition NestedString (obj : Unstructured) (fields : list string)
  : result (string * bool) :=
  match NestedFieldNoCopy obj fields with
  | Err err => Err err
  | Ok None => Ok ("", false)
  | Ok (Some (VStr s)) => Ok (s, true)
  | Ok (Some _) => Err "accessor error: expected string"
  end.

(** [NestedStringMap]; the Go nil map is [None]. *)
Definition NestedStringMap (obj : Unstructured) (fields : list string)
  : result (option (gmap string string)) :=
  match NestedFieldNoCopy obj fields with
  | Err err => Err err
  | Ok None => Ok None
  | Ok (Some (VMap m)) =>
      if decide (map_Forall (λ _ v, is_Some (asString v)) m)
      then Ok (Some (omap asString m))
      else Err "accessor error: expected string"
  | Ok (Some _) => Err "accessor error: expected map[string]interface{}"
  end.

(** [SetNestedField] on a path of two fields; on a first field that is
    not a map the document is left as it is (the setters drop the error). *)
Definition setNestedField2 (obj : Unstructured) (val : value) (f1 f2 : string)
  : Unstructured :=
  match obj !! f1 with
  | Some (VMap m) => <[f1 := VMap (<[f2 := val]> m)]> obj
  | Some _ => obj
  | None => <[f1 := VMap {[f2 := val]}]> obj
  end.

(** [RemoveNestedField] on a path of two fields. *)
Definition removeNestedField2 (obj : Unstructured) (f1 f2 : string) : Unstructured :=
  match obj !! f1 with
  | Some (VMap m) => <[f1 := VMap (delete f2 m)]> obj
  | _ => obj
  end.

Definition getNestedString (obj : Unstructured) (fields : list string) : string :=
  match NestedString obj fields with
  | Ok (s, true) => s
  | _ => ""
  end.

Definition GetName (obj : Unstructured) : string :=
  getNestedString obj ["metadata"; "name"].
Definition GetNamespace (obj : Unstructured) : string :=
  getNestedString obj ["metadata"; "namespace"].
Definition GetAPIVersion (obj : Unstructured) : string :=
  getNestedString obj ["apiVersion"].
Definition GetKind (obj : Unstructured) : string :=
  getNestedString obj ["kind"].

(** [GetLabels] and [GetAnnotations]: nil on any accessor failure. *)
Definition GetLabels (obj : Unstructured) : option (gmap string string) :=
  match NestedStringMap obj ["metadata"; "labels"] with
  | Ok m => m
  | Err _ => None
  end.
Definition GetAnnotations (obj : Unstructured) : option (gmap string string) :=
  match NestedStringMap obj ["metadata"; "annotations"] with
  | Ok m => m
  | Err _ => None
  end.

Definition SetNamespace (obj : Unstructured) (namespace : string) : Unstructured :=
  if decide (namespace = "") then removeNestedField2 obj "metadata" "namespace"
  else setNestedField2 obj (VStr namespace) "metadata" "namespace".

Definition SetLabels (obj : Unstructured) (labels : gmap string string) : Unstructured :=
  setNestedField2 obj (VMap (VStr <$> labels)) "metadata" "labels".

Definition SetAnnotations (obj : Unstructured) (annotations : option (gmap string string))
  : Unstructured :=
  match annotations with
  | None => removeNestedField2 obj "metadata" "annotations"
  | Some a => setNestedField2 obj (VMap (VStr <$> a)) "metadata" "annotations"
  end.

(** [obj.GroupVersionKind().GroupVersion()]; a version string that does
    not parse gives the empty group and version. *)
Definition GroupVersionOfObject (obj : Unstructured) : schema.GroupVersion :=
  match schema.ParseGroupVersion (GetAPIVersion obj) with
  | Ok gv => gv
  | Err _ => schema.mkGV "" ""
  end.

(** A read of a [map[string]string] that may be nil: the zero value when
    the key is missing. *)
Definition at_key (m : option (gmap string string)) (k : string) : string :=
  default "" (m ≫= λ m, m !! k).

End unstructured.

(** ** [pkg/util/collections]: typed path accessors *)
Module accessors.
Import unstructured.

(** Modelled from the spec: [collections.GetValue], [GetString] and
    [GetMap] are not part of the sources at hand; they are the typed-path
    accessors that return an explicit not-found or wrong-type error. The
    dotted path of the Go call is given as the list of its keys. *)
Fixpoint getValue (root : gmap string value) (key : string) (rest : list string)
  : result value :=
  match root !! key with
  | None => Err ("key " +:+ key +:+ " not found")
  | Some obj =>
      match rest with
      | [] => Ok obj
      | key' :: rest' =>
          match obj with
          | VMap subMap => getValue subMap key' rest'
          | _ => Err ("value at key " +:+ key +:+ " is not a map[string]interface{}")
          end
      end
  end.

Definition GetValue (root : Unstructured) (path : list string) : result value :=
  match path with
  | [] => Err "key  not found"
  | key :: rest => getValue root key rest
  end.

Definition GetString (root : Unstructured) (path : list string) : result string :=
  match GetValue root path with
  | Err err => Err err
  | Ok (VStr s) => Ok s
  | Ok _ => Err "value is not a string"
  end.

Definition GetMap (root : Unstructured) (path : list string)
  : result (gmap string value) :=
  match GetValue root path with
  | Err err => Err err
  | Ok (VMap m) => Ok m
  | Ok _ => Err "value is not a map[string]interface{}"
  end.

End accessors.

(** ** [k8s.io/apimachinery/pkg/labels] and [metav1.LabelSelector] *)
Module labels.

Inductive Operator := OpIn | OpNotIn | OpEquals | OpExists | OpDoesNotExist.

Record Requirement := mkRequirement {
  key : string; operator : Operator; strValues : list string }.

(** A [labels.Selector]: the selector of [labels.Nothing()], or a list of
    requirements that must all hold; [labels.Everything()] is the empty
    list. *)
Inductive Selector :=
  | NothingSelector
  | Requirements (rs : list Requirement).

Definition Nothing : Selector := NothingSelector.
Definition Everything : Selector := Requirements [].

(** [Requirement.Matches]. *)
Definition requirementMatches (r : Requirement) (ls : gmap string string) : bool :=
  match operator r with
  | OpIn | OpEquals =>
      match ls !! key r with
      | Some v => bool_decide (v ∈ strValues r)
      | None => false
      end
  | OpNotIn =>
      match ls !! key r with
      | Some v => bool_decide (v ∉ strValues r)
      | None => true
      end
  | OpExists => bool_decide (is_Some (ls !! key r))
  | OpDoesNotExist => bool_decide (ls !! key r = None)
  end.

(** [Selector.Matches]. *)
Definition Matches (s : Selector) (ls : gmap string string) : bool :=
  match s with
  | NothingSelector => false
  | Requirements rs => forallb (λ r, requirementMatches r ls) rs
  end.

(** [labels.Set(m)] of a map that may be nil. *)
Definition Set_ (m : option (gmap string string)) : gmap string string :=
  default ∅ m.

(** [labels.NewRequirement]: the check on the number of values; the
    syntax checks on keys and values are taken to pass. *)
Definition NewRequirement (k : string) (op : Operator) (vals : list string)
  : result Requirement :=
  match op with
  | OpIn | OpNotIn =>
      if decide (vals = [])
      then Err "for 'in', 'notin' operators, values set can't be empty"
      else Ok (mkRequirement k op vals)
  | OpEquals =>
      if decide (List.length vals = 1)
      then Ok (mkRequirement k op vals)
      else Err "exact-match compatibility requires one single value"
  | OpExists | OpDoesNotExist =>
      if decide (vals = [])
      then Ok (mkRequirement k op vals)
      else Err "values set must be empty for exists and does not exist"
  end.

(** [metav1.LabelSelector]. The operator of an expression is the string of
    the API object. *)
Record LabelSelectorRequirement := mkLSR {
  lsrKey : string; lsrOperator : string; lsrValues : list string }.
Record LabelSelector := mkLabelSelector {
  MatchLabels : gmap string string;
  MatchExpressions : list LabelSelectorRequirement }.

Definition emptyLabelSelector : LabelSelector := mkLabelSelector ∅ [].

Fixpoint matchLabelsRequirements (kvs : list (string * string)) (sel : list Requirement)
  : result (list Requirement) :=
  match kvs with
  | [] => Ok sel
  | (k, v) :: kvs' =>
      match NewRequirement k OpEquals [v] with
      | Err err => Err err
      | Ok r => matchLabelsRequirements kvs' (sel ++ [r])
      end
  end.

Fixpoint matchExpressionsRequirements (exprs : list LabelSelectorRequirement)
    (sel : list Requirement) : result (list Requirement) :=
  match exprs with
  | [] => Ok sel
  | expr :: exprs' =>
      let op :=
        if decide (lsrOperator expr = "In") then Ok OpIn
        else if decide (lsrOperator expr = "NotIn") then Ok OpNotIn
        else if decide (lsrOperator expr = "Exists") then Ok OpExists
        else if decide (lsrOperator expr = "DoesNotExist") then Ok OpDoesNotExist
        else Err (quoted (lsrOperator expr) +:+ " is not a valid pod selector operator") in
      match op with
      | Err err => Err err
      | Ok op =>
          match NewRequirement (lsrKey expr) op (lsrValues expr) with
          | Err err => Err err
          | Ok r => matchExpressionsRequirements exprs' (sel ++ [r])
          end
      end
  end.

(** [metav1.LabelSelectorAsSelector]: a nil selector matches nothing, an
    empty one matches everything. *)
Definition LabelSelectorAsSelector (ps : option LabelSelector) : result Selector :=
  match ps with
  | None => Ok Nothing
  | Some ps =>
      if decide (size (MatchLabels ps) + List.length (MatchExpressions ps) = 0)
      then Ok Everything
      else
        match matchLabelsRequirements (map_to_list (MatchLabels ps)) [] with
        | Err err => Err err
        | Ok sel =>
            match matchExpressionsRequirements (MatchExpressions ps) sel with
            | Err err => Err err
            | Ok sel => Ok (Requirements sel)
            end
        end
  end.

End labels.

(** ** [pkg/apis/ark/v1] *)
Module api.

(** Modelled from the spec: the API package is not part of the sources at
    hand. The label keys are the restore-name and source-backup-name
    identification labels and the older restore label that
    [addRestoreLabels] still sets; the annotation carries the request's
    override of the pod-volume time budget. *)
Definition BackupNameLabel := "ark.heptio.com/backup-name".
Definition RestoreNameLabel := "ark.heptio.com/restore-name".
Definition RestoreLabelKey := "ark-restore".
Definition PodVolumeOperationTimeoutAnnotation := "ark.heptio.com/pod-volume-timeout".

(** [api.RestoreResult]. *)
Record RestoreResult := mkResult {
  Ark : list string;
  Cluster : list string;
  Namespaces : gmap string (list string) }.

Definition emptyResult : RestoreResult := mkResult [] [] ∅.

Record VolumeBackupInfo := mkVolumeBackupInfo {
  SnapshotID : string; VolumeType : string; AvailabilityZone : string;
  Iops : option Z }.

(** [api.Backup]: the fields the restorer reads. *)
Record Backup := mkBackup {
  backupNamespace : string;
  backupName : string;
  SnapshotVolumes : option bool;
  VolumeBackups : gmap string VolumeBackupInfo }.

(** [api.Restore]: the fields the restorer reads. *)
Record Restore := mkRestore {
  restoreName : string;
  restoreAnnotations : gmap string string;
  BackupName : string;
  IncludedNamespaces : list string;
  ExcludedNamespaces : list string;
  IncludedResources : list string;
  ExcludedResources : list string;
  NamespaceMapping : gmap string string;
  LabelSelectorOf : option labels.LabelSelector;
  IncludeClusterResources : option bool;
  RestorePVs : option bool }.

End api.

(** [boolptr.IsSetToFalse]. *)
Definition IsSetToFalse (b : option bool) : bool :=
  match b with Some false => true | _ => false end.

(** ** [pkg/restore]: the restore engine *)
Module restore.
Import schema discovery collections unstructured labels api.

(** [v1.Namespace]: the parts that [getNamespace] builds. *)
Record Namespace := mkNamespace {
  nsName : string;
  nsLabels : option (gmap string string);
  nsAnnotations : option (gmap string string);
  nsSpec : value }.

(** An error returned by the API server, with what
    [apierrors.IsAlreadyExists] answers on it. *)
Record apiError := mkApiError { IsAlreadyExists : bool; Error : error }.

(** [velero ItemAction.AppliesTo]: the filter descriptor of an action. *)
Record ResourceSelector := mkResourceSelector {
  selIncludedNamespaces : list string;
  selExcludedNamespaces : list string;
  selIncludedResources : list string;
  selExcludedResources : list string;
  selLabelSelector : string }.

(** [ItemAction]. [Execute] returns the updated item, a warning and an
    error; it is a function of the item and of the restore. *)
Record ItemAction := mkItemAction {
  AppliesTo : result ResourceSelector;
  Execute : Unstructured → Restore → runtimeUnstructured * option error * option error }.

Record resolvedAction := mkResolvedAction {
  action : ItemAction;
  resourceIncludesExcludes : IncludesExcludes;
  namespaceIncludesExcludes : IncludesExcludes;
  actionSelector : Selector }.

(** [time.Minute], in nanoseconds. *)
Definition Minute : Z := 60000000000.

(** [v1] constants. *)
Definition MirrorPodAnnotationKey := "kubernetes.io/config.mirror".
Definition PodFailed := "Failed".
Definition PodSucceeded := "Succeeded".
Definition VolumeAvailable := "Available".

(** *** Result aggregation *)

(** [merge]: lists are appended, per-namespace lists key by key. *)
Definition merge (a b : RestoreResult) : RestoreResult :=
  {| Cluster := Cluster a ++ Cluster b;
     Ark := Ark a ++ Ark b;
     Namespaces := union_with (λ x y, Some (x ++ y)) (Namespaces a) (Namespaces b) |}.

Definition addArkError (r : RestoreResult) (err : error) : RestoreResult :=
  {| Ark := Ark r ++ [err]; Cluster := Cluster r; Namespaces := Namespaces r |}.

(** [addToResult] with a non-nil error. *)
Definition addToResult (r : RestoreResult) (ns : string) (e : error) : RestoreResult :=
  if decide (ns = "")
  then {| Ark := Ark r; Cluster := Cluster r ++ [e]; Namespaces := Namespaces r |}
  else {| Ark := Ark r; Cluster := Cluster r;
          Namespaces := <[ns := default [] (Namespaces r !! ns) ++ [e]]> (Namespaces r) |}.

(** [errors.Wrapf]: nil on a nil error. *)
Definition Wrapf (err : option error) (msg : string) : option error :=
  (λ e, msg +:+ ": " +:+ e) <$> err.

(** [errors.Wrapf] on an error known not to be nil. *)
Definition wrap (err : error) (msg : string) : error := msg +:+ ": " +:+ err.

(** The text "<what> item %q for resource %q in namespace %q". *)
Definition itemMsg (what file resource namespace : string) : string :=
  what +:+ " item " +:+ quoted file +:+ " for resource " +:+ quoted resource
  +:+ " in namespace " +:+ quoted namespace.

(** *** Pure helpers of [restore.go] *)

(** [isCompleted]. *)
Definition isCompleted (obj : Unstructured) (groupResource : GroupResource)
  : result bool :=
  if decide (groupResource = kuberesource.Pods) then
    match NestedString obj ["status"; "phase"] with
    | Err err => Err err
    | Ok (phase, _) =>
        if decide (phase = PodFailed ∨ phase = PodSucceeded) then Ok true else Ok false
    end
  else if decide (groupResource = kuberesource.Jobs) then
    match NestedString obj ["status"; "completionTime"] with
    | Err err => Err err
    | Ok (ct, found) =>
        if found && negb (String.eqb ct "") then Ok true else Ok false
    end
  else Ok false.

(** [isPVReady]. *)
Definition isPVReady (obj : Unstructured) : bool :=
  match accessors.GetString obj ["status"; "phase"] with
  | Err _ => false
  | Ok phase => String.eqb phase VolumeAvailable
  end.

(** [resetMetadataAndStatus]. *)
Definition resetMetadataAndStatus (obj : Unstructured) : result Unstructured :=
  match accessors.GetMap obj ["metadata"] with
  | Err err => Err err
  | Ok metadata =>
      let metadata :=
        filter (λ kv, kv.1 ∈ ["name"; "namespace"; "labels"; "annotations"]) metadata in
      Ok (delete "status" (<["metadata" := VMap metadata]> obj))
  end.

(** [addRestoreLabels]. *)
Definition addRestoreLabels (obj : Unstructured) (restoreName backupName : string)
  : Unstructured :=
  let labels := default ∅ (GetLabels obj) in
  let labels := <[BackupNameLabel := backupName]> labels in
  let labels := <[RestoreNameLabel := restoreName]> labels in
  let labels := <[RestoreLabelKey := restoreName]> labels in
  SetLabels obj labels.

(** [getNamespace], given the decoder of [json.Unmarshal] into a
    [v1.Namespace]. *)
Definition getNamespace (unmarshalNamespace : string → result Namespace)
    (archiveReader : archive.Reader) (nsName remappedName : string) : Namespace :=
  match archive.readerGet archiveReader "namespaces" "" (nsName +:+ ".json") with
  | Err _ => mkNamespace remappedName None None VNull
  | Ok nsBytes =>
      match unmarshalNamespace nsBytes with
      | Err _ => mkNamespace remappedName None None VNull
      | Ok backupNS =>
          mkNamespace remappedName (nsLabels backupNS) (nsAnnotations backupNS)
            (nsSpec backupNS)
      end
  end.

(** *** [waitForReady] *)

Inductive EventType := Added | Modified | Deleted | ErrorEvent.
Record watchEvent := mkWatchEvent { evType : EventType; evObject : runtimeUnstructured }.

(** What the [select] of [waitForReady] takes next: an event from the
    watch channel, or the firing of the timer. *)
Inductive tick :=
  | Recv (event : watchEvent)
  | TimerFires.

(** [waitForReady] over the sequence of things its [select] receives;
    [None] when the sequence ends with the function still waiting. With a
    zero timeout the timer channel is never written to. *)
Fixpoint waitForReady (ticks : list tick) (name : string)
    (ready : Unstructured → bool) (timeout : Z) : option (result Unstructured) :=
  match ticks with
  | [] => None
  | Recv event :: ticks' =>
      match evType event with
      | Added | Modified =>
          match evObject event with
          | OtherType _ => waitForReady ticks' name ready timeout
          | IsUnstructured obj =>
              if negb (String.eqb (GetName obj) name)
              then waitForReady ticks' name ready timeout
              else if negb (ready obj)
              then waitForReady ticks' name ready timeout
              else Some (Ok obj)
          end
      | _ => waitForReady ticks' name ready timeout
      end
  | TimerFires :: ticks' =>
      if decide (timeout = 0%Z) then waitForReady ticks' name ready timeout
      else Some (Err "failed to observe item becoming ready within the timeout")
  end.

(** The body of the goroutine that [restoreResource] starts for a
    persistent volume, on the [warnings] variable it captured. *)
Definition waitForPersistentVolume (ticks : list tick) (name : string)
    (timeout : Z) (warnings : RestoreResult) : RestoreResult :=
  match waitForReady ticks name isPVReady timeout with
  | Some (Err _) =>
      addArkError warnings
        ("timeout reached waiting for persistent volume " +:+ name +:+ " to become ready")
  | _ => warnings
  end.

(** *** Service account merge *)

Definition listField (obj : Unstructured) (field : string) : result (list value) :=
  match obj !! field with
  | None | Some VNull => Ok []
  | Some (VList l) => Ok l
  | Some _ => Err ("cannot convert field " +:+ field)
  end.

(** Union of two reference lists: the entries of [first], then those of
    [second] that are not there yet. *)
Definition mergeReferences (first second : list value) : list value :=
  fold_left (λ acc s, if decide (s ∈ acc) then acc else acc ++ [s]) second first.

(** Modelled from the spec: [mergeServiceAccounts] is not part of the
    sources at hand; it computes a merge of secrets and image-pull-secrets
    (union, de-duplicated, preserving live entries) of the live service
    account and the backed-up one. *)
Definition mergeServiceAccounts (fromCluster fromBackup : Unstructured)
  : result Unstructured :=
  match listField fromCluster "secrets", listField fromBackup "secrets",
        listField fromCluster "imagePullSecrets", listField fromBackup "imagePullSecrets"
  with
  | Ok ls, Ok bs, Ok lp, Ok bp =>
      let secrets := mergeReferences ls bs in
      let pulls := mergeReferences lp bp in
      let desired :=
        if decide (secrets = []) then fromCluster
        else <["secrets" := VList secrets]> fromCluster in
      Ok (if decide (pulls = []) then desired
          else <["imagePullSecrets" := VList pulls]> desired)
  | Err err, _, _, _ | _, Err err, _, _ | _, _, Err err, _ | _, _, _, Err err => Err err
  end.

(** Modelled from the spec: [generatePatch] is not part of the sources at
    hand; it yields no patch when the in-cluster and the desired state are
    the same, and the merge patch from the one to the other otherwise. *)
Definition generatePatch
    (CreateMergePatch : Unstructured → Unstructured → result string)
    (fromCluster desired : Unstructured) : result (option string) :=
  if decide (fromCluster = desired) then Ok None
  else match CreateMergePatch fromCluster desired with
       | Err err => Err err
       | Ok patchBytes => Ok (Some patchBytes)
       end.

(** *** Collaborators *)

Section engine.
Context {World WatchT : Type}.

(** [client.Dynamic] for one resource type and namespace, over the state
    of the cluster. [Get] reads the cluster and leaves it as it is.
    [ResultChan w world] is what a goroutine that selects on the channel
    of the watch [w] and on its timer has taken by the time the cluster is
    in the state [world]: the events sent on the channel and the firing of
    the timer, in the order in which the [select] took them. *)
Record Dynamic := mkDynamic {
  Create : Unstructured → World → (Unstructured + apiError) * World;
  Get : string → World → result Unstructured;
  Patch : string → string → World → option error * World;
  Watch : World → result WatchT * World;
  ResultChan : WatchT → World → list tick }.

(** [cloudprovider.BlockStore]. *)
Record BlockStore := mkBlockStore {
  CreateVolumeFromSnapshot :
    string → string → string → option Z → World → result string * World;
  SetVolumeID : Unstructured → string → result runtimeUnstructured }.

(** [restic.Restorer]. *)
Record ResticRestorer := mkResticRestorer {
  RestorePodVolumes : Restore → Unstructured → World → list error * World }.

(** Functions of packages that are not part of the sources at hand and
    that the engine calls: the JSON decoders, [kube.EnsureNamespaceExists]
    (an idempotent get-or-create on the cluster),
    [restic.GetPodSnapshotAnnotations], the conversion of a created pod to
    [v1.Pod], the merge-patch generator, the two constructors of
    [collections.IncludesExcludes] (from an include and an exclude list,
    the second one with a function that maps each name first),
    [labels.Parse] and [time.ParseDuration]. *)
Record externals := mkExternals {
  Unmarshal : string → result Unstructured;
  UnmarshalNamespace : string → result Namespace;
  EnsureNamespaceExists : Namespace → World → result bool * World;
  GetPodSnapshotAnnotations : Unstructured → gmap string string;
  FromUnstructuredPod : Unstructured → option error;
  CreateMergePatch : Unstructured → Unstructured → result string;
  NewIncludesExcludes : list string → list string → IncludesExcludes;
  GenerateIncludesExcludes :
    list string → list string → (string → string) → IncludesExcludes;
  ParseSelector : string → result Selector;
  ParseDuration : string → result Z }.

(** [pvRestorer]. *)
Record pvRestorer := mkPVRestorer {
  snapshotVolumes : option bool;
  restorePVs : option bool;
  volumeBackups : gmap string VolumeBackupInfo;
  pvBlockStore : option BlockStore }.

(** [context]: the fields that stay as [Restore] set them. *)
Record context := mkContext {
  backup : Backup;
  restore : Restore;
  prioritizedResources : list GroupResource;
  selector : Selector;
  dynamicFactory : GroupVersion → APIResource → string → result Dynamic;
  actions : list resolvedAction;
  resticRestorer : option ResticRestorer;
  pvRestorerOf : pvRestorer }.

(** The calls made on the collaborators and the goroutines started, in
    program order. *)
Inductive event :=
  | EvCreate (obj : Unstructured)
  | EvGet (name : string)
  | EvPatch (name : string) (patchBytes : string)
  | EvWatch
  | EvStop (w : WatchT)
  | EvExecutePVAction (obj : Unstructured)
  | EvCreateVolumeFromSnapshot (snapshotID : string)
  | EvExecute (obj : Unstructured)
  | EvEnsureNamespaceExists (ns : Namespace)
  | EvGoWaitForReady (w : WatchT) (name : string) (timeout : Z)
  | EvGoRestorePodVolumes (createdObj : Unstructured).

(** The state that [restoreResource] works on: the outside world and the
    record of calls; the fields of [context] that change
    ([pvsToProvision], [resourceWatches], the two wait groups); the local
    variables of [restoreResource] that live across items; and the
    goroutine that the call has started, if any, with the name and the
    timeout it waits with ([resourceTask]). The goroutine shares the
    variables [warnings] and [resourceWatch] with the call. *)
Record rstate := mkState {
  world : World;
  trace : list event;
  pvsToProvision : gset string;
  resourceWatches : list WatchT;
  resourceWaitGroup : nat;
  globalWaitGroup : list Unstructured;
  warnings : RestoreResult;
  errs : RestoreResult;
  resourceClient : option Dynamic;
  resourceWatch : option WatchT;
  resourceTask : option (string * Z) }.

Definition setWorld (w : World) (ev : event) (s : rstate) : rstate :=
  mkState w (trace s ++ [ev]) (pvsToProvision s) (resourceWatches s)
    (resourceWaitGroup s) (globalWaitGroup s) (warnings s) (errs s)
    (resourceClient s) (resourceWatch s) (resourceTask s).
Definition logEvent (ev : event) (s : rstate) : rstate := setWorld (world s) ev s.
Definition setWarnings (w : RestoreResult) (s : rstate) : rstate :=
  mkState (world s) (trace s) (pvsToProvision s) (resourceWatches s)
    (resourceWaitGroup s) (globalWaitGroup s) w (errs s)
    (resourceClient s) (resourceWatch s) (resourceTask s).
Definition setErrs (e : RestoreResult) (s : rstate) : rstate :=
  mkState (world s) (trace s) (pvsToProvision s) (resourceWatches s)
    (resourceWaitGroup s) (globalWaitGroup s) (warnings s) e
    (resourceClient s) (resourceWatch s) (resourceTask s).
Definition setResourceClient (c : Dynamic) (s : rstate) : rstate :=
  mkState (world s) (trace s) (pvsToProvision s) (resourceWatches s)
    (resourceWaitGroup s) (globalWaitGroup s) (warnings s) (errs s)
    (Some c) (resourceWatch s) (resourceTask s).
Definition insertProvision (name : string) (s : rstate) : rstate :=
  mkState (world s) (trace s) ({[name]} ∪ pvsToProvision s) (resourceWatches s)
    (resourceWaitGroup s) (globalWaitGroup s) (warnings s) (errs s)
    (resourceClient s) (resourceWatch s) (resourceTask s).
(** [resourceWatch = w], [append(ctx.resourceWatches, w)],
    [ctx.resourceWaitGroup.Add(1)] and the [go] statement. *)
Definition startWatch (w : WatchT) (name : string) (s : rstate) : rstate :=
  mkState (world s) (trace s ++ [EvGoWaitForReady w name Minute]) (pvsToProvision s)
    (resourceWatches s ++ [w]) (S (resourceWaitGroup s)) (globalWaitGroup s)
    (warnings s) (errs s) (resourceClient s) (Some w) (Some (name, Minute)).
(** [ctx.globalWaitGroup.GoErrorSlice]. *)
Definition goRestorePodVolumes (createdObj : Unstructured) (s : rstate) : rstate :=
  mkState (world s) (trace s ++ [EvGoRestorePodVolumes createdObj]) (pvsToProvision s)
    (resourceWatches s) (resourceWaitGroup s) (globalWaitGroup s ++ [createdObj])
    (warnings s) (errs s) (resourceClient s) (resourceWatch s) (resourceTask s).
(** The local variables of a new call of [restoreResource]. *)
Definition freshLocals (s : rstate) : rstate :=
  mkState (world s) (trace s) (pvsToProvision s) (resourceWatches s)
    (resourceWaitGroup s) (globalWaitGroup s) emptyResult emptyResult None None None.

(** *** The monad of the loop body

    A step of the body of a [for] loop ends in a value, in [continue], in
    a [return] of the enclosing function, or in a panic. *)
Inductive flow (A : Type) :=
  | Val (a : A) (s : rstate)
  | Continue (s : rstate)
  | Return (s : rstate)
  | Panic (s : rstate).
Arguments Val {A}.
Arguments Continue {A}.
Arguments Return {A}.
Arguments Panic {A}.

Definition M (A : Type) : Type := rstate → flow A.

Definition ret {A} (a : A) : M A := λ s, Val a s.
Definition bind {A B} (m : M A) (k : A → M B) : M B :=
  λ s, match m s with
       | Val a s' => k a s'
       | Continue s' => Continue s'
       | Return s' => Return s'
       | Panic s' => Panic s'
       end.
Definition continue {A} : M A := λ s, Continue s.
Definition return_ {A} : M A := λ s, Return s.
Definition panic {A} : M A := λ s, Panic s.
Definition gets {A} (f : rstate → A) : M A := λ s, Val (f s) s.
Definition modify (f : rstate → rstate) : M unit := λ s, Val tt (f s).
Definition when (b : bool) (m : M unit) : M unit := if b then m else ret tt.

(** A call on a collaborator: it is recorded and changes the world. *)
Definition call {A} (ev : event) (f : World → A * World) : M A :=
  λ s, let '(a, w) := f (world s) in Val a (setWorld w ev s).

Notation "'let!' x := m ;; k" := (bind m (λ x, k))
  (at level 10, x name, m at level 99, k at level 200, only parsing).
Notation "'do!' m ;; k" := (bind m (λ _, k))
  (at level 10, m at level 99, k at level 200, only parsing).

(** [x, err := f(); if err != nil { onErr(err); continue }]. *)
Definition orContinue {A} (r : result A) (onErr : error → M unit) : M A :=
  match r with
  | Ok a => ret a
  | Err err => do! onErr err ;; continue
  end.

Definition addToErrs (ns : string) (e : error) : M unit :=
  modify (λ s, setErrs (addToResult (errs s) ns e) s).
Definition addToWarnings (ns : string) (e : error) : M unit :=
  modify (λ s, setWarnings (addToResult (warnings s) ns e) s).
(** [addToResult(&warnings, ns, e)] where [e] may be nil: the call of
    [e.Error()] on a nil error panics. *)
Definition addToWarningsNilable (ns : string) (e : option error) : M unit :=
  match e with
  | Some e => addToWarnings ns e
  | None => panic
  end.

Section with_context.
Variable X : externals.
Variable ctx : context.

(** [pvRestorer.executePVAction]. The two [delete]s act on the [spec] map
    of the item itself. *)
Definition executePVAction (r : pvRestorer) (obj : Unstructured)
  : M (result Unstructured) :=
  let pvName := GetName obj in
  if decide (pvName = "") then ret (Err "PersistentVolume is missing its name") else
  match accessors.GetMap obj ["spec"] with
  | Err err => ret (Err err)
  | Ok spec =>
      let spec := delete "storageClassName" (delete "claimRef" spec) in
      let obj := <["spec" := VMap spec]> obj in
      if IsSetToFalse (snapshotVolumes r) then ret (Ok obj) else
      if IsSetToFalse (restorePVs r) then ret (Ok obj) else
      match volumeBackups r !! pvName with
      | None => ret (Ok obj)
      | Some backupInfo =>
          match pvBlockStore r with
          | None =>
              ret (Err ("you must configure a persistentVolumeProvider to restore "
                        +:+ "PersistentVolumes from snapshots"))
          | Some blockStore =>
              let! volumeID := call (EvCreateVolumeFromSnapshot (SnapshotID backupInfo))
                            (CreateVolumeFromSnapshot blockStore (SnapshotID backupInfo)
                               (VolumeType backupInfo) (AvailabilityZone backupInfo)
                               (Iops backupInfo)) ;;
              match volumeID with
              | Err err => ret (Err err)
              | Ok volumeID =>
                  match SetVolumeID blockStore obj volumeID with
                  | Err err => ret (Err err)
                  | Ok (OtherType t) => ret (Err ("unexpected type " +:+ t))
                  | Ok (IsUnstructured updated2) => ret (Ok updated2)
                  end
              end
          end
      end
  end.

Section with_resource.
Variable archiveReader : archive.Reader.
Variables resource namespace : string.

Definition groupResource : GroupResource := ParseGroupResource resource.

(** Lines 547-557: the actions whose resource and namespace filters admit
    this resource and namespace. *)
Definition applicableActions : list resolvedAction :=
  filter (λ action,
            ShouldInclude (resourceIncludesExcludes action)
              (GroupResource_String groupResource) = true
            ∧ ¬ (namespace ≠ "" ∧
                 ShouldInclude (namespaceIncludesExcludes action) namespace = false))
         (actions ctx).

(** Lines 587-603: the client of this resource type, built from the first
    item that needs it. A failure is a system error and ends
    [restoreResource]. *)
Definition getResourceClient (obj : Unstructured) : M Dynamic :=
  let! rc := gets resourceClient ;;
  match rc with
  | Some c => ret c
  | None =>
      let apiResource :=
        mkAPIResource (Resource groupResource) (negb (String.eqb namespace "")) in
      match dynamicFactory ctx (GroupVersionOfObject obj) apiResource namespace with
      | Err err =>
          do! modify (λ s, setErrs (addArkError (errs s)
                    ("error getting resource client for namespace " +:+ quoted namespace
                     +:+ ", resource " +:+ quoted (GroupResource_String groupResource)
                     +:+ ": " +:+ err)) s) ;;
          return_
      | Ok c => do! modify (setResourceClient c) ;; ret c
      end
  end.

(** Lines 613-649: a persistent volume. *)
Definition restorePersistentVolume (client : Dynamic) (file name : string)
    (obj : Unstructured) : M Unstructured :=
  let found := bool_decide (is_Some (VolumeBackups (backup ctx) !! name)) in
  let reclaimPolicy := accessors.GetString obj ["spec"; "persistentVolumeReclaimPolicy"] in
  if match reclaimPolicy with
     | Ok reclaimPolicy => negb found && String.eqb reclaimPolicy "Delete"
     | Err _ => false
     end
  then
    do! modify (insertProvision name) ;; continue
  else
    do! modify (logEvent (EvExecutePVAction obj)) ;;
    let! r := executePVAction (pvRestorerOf ctx) obj ;;
    let! obj := orContinue r (λ err,
             addToErrs namespace
               (wrap err (itemMsg "error executing PVAction for" file resource namespace))) ;;
    let! rw := gets resourceWatch ;;
    match rw with
    | Some _ => ret obj
    | None =>
        let! w := call EvWatch (Watch client) ;;
        match w with
        | Err err =>
            do! addToErrs namespace
              ("error watching for namespace " +:+ quoted namespace +:+ ", resource "
               +:+ quoted (GroupResource_String groupResource) +:+ ": " +:+ err) ;;
            return_
        | Ok w => do! modify (startWatch w name) ;; ret obj
        end
    end.

(** Lines 651-668: a persistent volume claim. The type assertion
    [volumeName.(string)] panics on a value that is not a string. *)
Definition resetPersistentVolumeClaim (obj : Unstructured) : M Unstructured :=
  let! spec := orContinue (accessors.GetMap obj ["spec"]) (λ err, addToErrs namespace err) ;;
  match spec !! "volumeName" with
  | None => ret obj
  | Some (VStr volumeName) =>
      let! toProvision := gets pvsToProvision ;;
      if decide (volumeName ∈ toProvision) then
        let obj := <["spec" := VMap (delete "volumeName" spec)]> obj in
        let annotations :=
          delete "pv.kubernetes.io/bound-by-controller"
            <$> (delete "pv.kubernetes.io/bind-completed" <$> GetAnnotations obj) in
        ret (SetAnnotations obj annotations)
      else ret obj
  | Some _ => panic
  end.

(** Lines 670-693: the loop over the applicable actions. Its [continue]
    statements go to the next action. *)
Fixpoint runActions (file : string) (acts : list resolvedAction) (obj : Unstructured)
  : M Unstructured :=
  match acts with
  | [] => ret obj
  | action :: acts' =>
      if negb (Matches (actionSelector action) (Set_ (GetLabels obj)))
      then runActions file acts' obj
      else
        do! modify (logEvent (EvExecute obj)) ;;
        let '(updatedObj, warning, err) := Execute action.(restore.action) obj (restore ctx) in
        do! when (bool_decide (is_Some warning))
          (addToWarningsNilable namespace
             (Wrapf err (itemMsg "warning preparing" file resource namespace))) ;;
        match err with
        | Some err =>
            do! addToErrs namespace
              (wrap err (itemMsg "error preparing" file resource namespace)) ;;
            runActions file acts' obj
        | None =>
            match updatedObj with
            | OtherType t =>
                do! addToErrs namespace
                  (itemMsg ("unexpected type " +:+ t +:+ " for") file resource namespace) ;;
                runActions file acts' obj
            | IsUnstructured unstructuredObj => runActions file acts' unstructuredObj
            end
        end
  end.

(** Lines 714-768: the item exists already. *)
Definition resolveAlreadyExists (client : Dynamic) (name : string)
    (obj : Unstructured) (restoreErr : apiError) : M unit :=
  let! fromCluster := call (EvGet name) (λ w, (Get client name w, w)) ;;
  let! fromCluster := orContinue fromCluster (λ err, addToWarnings namespace err) ;;
  let! fromCluster := orContinue (resetMetadataAndStatus fromCluster)
                   (λ err, addToWarnings namespace err) ;;
  let labels := GetLabels obj in
  let fromCluster :=
    addRestoreLabels fromCluster (at_key labels RestoreNameLabel)
      (at_key labels BackupNameLabel) in
  if decide (fromCluster = obj) then continue else
  if decide (groupResource = kuberesource.ServiceAccounts) then
    let! desired := orContinue (mergeServiceAccounts fromCluster obj)
                 (λ err, addToWarnings namespace err) ;;
    let! patchBytes := orContinue (generatePatch (CreateMergePatch X) fromCluster desired)
                    (λ err, addToWarnings namespace err) ;;
    match patchBytes with
    | None => continue
    | Some patchBytes =>
        let! err := call (EvPatch name patchBytes) (Patch client name patchBytes) ;;
        match err with
        | Some err => do! addToWarnings namespace err ;; continue
        | None => continue
        end
    end
  else
    do! addToWarnings namespace
      ("not restored: " +:+ Error restoreErr
       +:+ " and is different from backed up version.") ;;
    continue.

(** Lines 712-796: the creation of the item and what follows it. *)
Definition createItem (client : Dynamic) (file name : string) (obj : Unstructured)
  : M unit :=
  let! created := call (EvCreate obj) (Create client obj) ;;
  match created with
  | inr restoreErr =>
      if IsAlreadyExists restoreErr
      then resolveAlreadyExists client name obj restoreErr
      else
        do! addToErrs namespace
          (wrap (Error restoreErr) (itemMsg "error restoring" file resource namespace)) ;;
        continue
  | inl createdObj =>
      when (bool_decide (groupResource = kuberesource.Pods)
            && negb (bool_decide (size (GetPodSnapshotAnnotations X obj) = 0)))
        (match resticRestorer ctx with
         | None => ret tt
         | Some _ => modify (goRestorePodVolumes createdObj)
         end)
  end.

(** Lines 559-796: the body of the loop over the files. *)
Definition restoreItem (file : string) : M unit :=
  let! bytes := orContinue (archive.readerGet archiveReader resource namespace file)
             (λ err, addToErrs namespace
                       (wrap err (itemMsg "error getting" file resource namespace))) ;;
  let! obj := orContinue (Unmarshal X bytes)
           (λ err, addToErrs namespace
                     (wrap err (itemMsg "error decoding" file resource namespace))) ;;
  do! when (negb (Matches (selector ctx) (Set_ (GetLabels obj)))) continue ;;
  let! complete := orContinue (isCompleted obj groupResource)
                (λ err, addToErrs namespace
                          (wrap err (itemMsg "error checking completion for"
                                       file resource namespace))) ;;
  do! when complete continue ;;
  let! client := getResourceClient obj ;;
  let name := GetName obj in
  do! when (bool_decide (groupResource = kuberesource.Pods)
        && negb (String.eqb (at_key (GetAnnotations obj) MirrorPodAnnotationKey) ""))
    continue ;;
  let! obj := (if decide (groupResource = kuberesource.PersistentVolumes)
          then restorePersistentVolume client file name obj else ret obj) ;;
  let! obj := (if decide (groupResource = kuberesource.PersistentVolumeClaims)
          then resetPersistentVolumeClaim obj else ret obj) ;;
  let! obj := runActions file applicableActions obj ;;
  let! obj := orContinue (resetMetadataAndStatus obj) (λ err, addToErrs namespace err) ;;
  let obj := if decide (namespace ≠ "") then SetNamespace obj namespace else obj in
  let obj := addRestoreLabels obj (restoreName (restore ctx)) (BackupName (restore ctx)) in
  createItem client file name obj.

(** A [for] loop over a slice: [continue] goes to the next element,
    [return] and a panic leave the loop. *)
Fixpoint forEach {A} (body : A → M unit) (xs : list A) : M unit :=
  match xs with
  | [] => ret tt
  | x :: xs' =>
      λ s, match body x s with
           | Val _ s' | Continue s' => forEach body xs' s'
           | Return s' => Return s'
           | Panic s' => Panic s'
           end
  end.

(** [return warnings, errs]: the two results are the values that the
    variables have when the call returns. The goroutine of the call adds
    its timeout warning to the variable [warnings]; the warning is in the
    results when the goroutine has ended by then, which the ticks that its
    [select] has taken up to the return decide. A goroutine that ends
    later writes to a variable that is read no more. The goroutine writes
    the system list and the loop the other lists of [warnings], so that
    the place of the write among those of the loop does not show in the
    results. *)
Definition returned (s : rstate) : rstate :=
  match resourceTask s, resourceWatch s, resourceClient s with
  | Some (name, timeout), Some w, Some client =>
      setWarnings
        (waitForPersistentVolume (ResultChan client w (world s)) name timeout (warnings s)) s
  | _, _, _ => s
  end.

(** [restoreResource]: the state after the call, whose [warnings] and
    [errs] are the two results; [None] when the call panics. *)
Definition restoreResource (s : rstate) : option rstate :=
  let s := freshLocals s in
  if bool_decide (IncludeClusterResources (restore ctx) = Some false)
     && String.eqb namespace ""
  then Some s
  else
    match archive.readerListContents archiveReader resource namespace with
    | Err err =>
        Some (setErrs (addToResult (errs s) namespace
                ("error reading resource directory " +:+ quoted resource
                 +:+ ": " +:+ err)) s)
    | Ok [] => Some s
    | Ok files =>
        match forEach restoreItem files s with
        | Val _ s' | Continue s' | Return s' => Some (returned s')
        | Panic _ => None
        end
    end.

End with_resource.

(** Lines 396-417 of [restoreFromArchive]: make sure that the target
    namespace exists, once per target name. The result is the error of
    [EnsureNamespaceExists], if any, and the set of verified names. *)
Definition ensureNamespace (archiveReader : archive.Reader)
    (nsName mappedNsName : string) (existingNamespaces : gset string) (s : rstate)
  : option error * gset string * rstate :=
  if decide (mappedNsName ∈ existingNamespaces) then (None, existingNamespaces, s)
  else
    let ns := getNamespace (UnmarshalNamespace X) archiveReader nsName mappedNsName in
    let '(r, w) := EnsureNamespaceExists X ns (world s) in
    let s := setWorld w (EvEnsureNamespaceExists ns) s in
    match r with
    | Err err => (Some err, existingNamespaces, s)
    | Ok _ => (None, {[mappedNsName]} ∪ existingNamespaces, s)
    end.

(** Lines 390-422: the loop over the namespaces of a resource type.
    [accWarnings] and [accErrs] are the [warnings] and [errs] of
    [restoreFromArchive]. [None] when a call panics. *)
Fixpoint restoreNamespaces (archiveReader : archive.Reader)
    (namespaceFilter : IncludesExcludes) (resource : string)
    (namespaces : list string) (accWarnings accErrs : RestoreResult)
    (existingNamespaces : gset string) (s : rstate)
  : option (RestoreResult * RestoreResult * gset string * rstate) :=
  match namespaces with
  | [] => Some (accWarnings, accErrs, existingNamespaces, s)
  | nsName :: namespaces' =>
      if negb (ShouldInclude namespaceFilter nsName)
      then restoreNamespaces archiveReader namespaceFilter resource namespaces'
             accWarnings accErrs existingNamespaces s
      else
        let mappedNsName := default nsName (NamespaceMapping (restore ctx) !! nsName) in
        match ensureNamespace archiveReader nsName mappedNsName existingNamespaces s with
        | (Some err, existingNamespaces, s) =>
            restoreNamespaces archiveReader namespaceFilter resource namespaces'
              accWarnings (addArkError accErrs err) existingNamespaces s
        | (None, existingNamespaces, s) =>
            match restoreResource archiveReader resource mappedNsName s with
            | None => None
            | Some s =>
                restoreNamespaces archiveReader namespaceFilter resource namespaces'
                  (merge accWarnings (warnings s)) (merge accErrs (errs s))
                  existingNamespaces s
            end
        end
  end.

(** Lines 361-428: the loop over the prioritised resource types. The
    boolean tells whether the loop ran to its end ([true]) or the function
    returned from inside it ([false]). The wait on the per-type wait group
    has no effect on the results: a goroutine that ends there writes to
    the [warnings] of a call that has returned. *)
Fixpoint restoreResources (archiveReader : archive.Reader)
    (namespaceFilter : IncludesExcludes) (resources : list GroupResource)
    (accWarnings accErrs : RestoreResult) (existingNamespaces : gset string)
    (s : rstate) : option (bool * RestoreResult * RestoreResult * rstate) :=
  match resources with
  | [] => Some (true, accWarnings, accErrs, s)
  | resource :: resources' =>
      if decide (resource = kuberesource.Namespaces)
      then restoreResources archiveReader namespaceFilter resources'
             accWarnings accErrs existingNamespaces s
      else
        match archive.readerGetResourceScope archiveReader (GroupResource_String resource) with
        | Err err => Some (false, accWarnings, addArkError accErrs err, s)
        | Ok (_, false) =>
            restoreResources archiveReader namespaceFilter resources'
              accWarnings accErrs existingNamespaces s
        | Ok (scope, true) =>
            if String.eqb scope archive.ResourceScopeCluster then
              match restoreResource archiveReader (GroupResource_String resource) "" s with
              | None => None
              | Some s =>
                  restoreResources archiveReader namespaceFilter resources'
                    (merge accWarnings (warnings s)) (merge accErrs (errs s))
                    existingNamespaces s
              end
            else
              match archive.readerListNamespaces archiveReader
                      (GroupResource_String resource) with
              | Err err => Some (false, accWarnings, addArkError accErrs err, s)
              | Ok namespaces =>
                  match restoreNamespaces archiveReader namespaceFilter
                          (GroupResource_String resource) namespaces
                          accWarnings accErrs existingNamespaces s with
                  | None => None
                  | Some (accWarnings, accErrs, existingNamespaces, s) =>
                      restoreResources archiveReader namespaceFilter resources'
                        accWarnings accErrs existingNamespaces s
                  end
              end
        end
  end.

(** The deferred function of [restoreFromArchive]: every watch is
    stopped. *)
Definition stopWatches (s : rstate) : rstate :=
  fold_left (λ s w, logEvent (EvStop w) s) (resourceWatches s) s.

(** [ctx.globalWaitGroup.Wait()]: the errors of the pod-volume tasks, each
    task run to its end in the order in which it was started. *)
Fixpoint waitGlobal (tasks : list Unstructured) (w : World) : list error * World :=
  match tasks with
  | [] => ([], w)
  | createdObj :: tasks' =>
      let '(taskErrs, w) :=
        match FromUnstructuredPod X createdObj with
        | Some err => ([err], w)
        | None =>
            match resticRestorer ctx with
            | Some r => RestorePodVolumes r (restore ctx) createdObj w
            | None => ([], w)
            end
        end in
      let '(rest, w) := waitGlobal tasks' w in
      (taskErrs ++ rest, w)
  end.

(** [restoreFromArchive]: warnings, errors and the state afterwards. *)
Definition restoreFromArchive (archiveReader : archive.Reader) (s : rstate)
  : option (RestoreResult * RestoreResult * rstate) :=
  let namespaceFilter :=
    NewIncludesExcludes X (IncludedNamespaces (restore ctx))
      (ExcludedNamespaces (restore ctx)) in
  match restoreResources archiveReader namespaceFilter (prioritizedResources ctx)
          emptyResult emptyResult ∅ s with
  | None => None
  | Some (false, accWarnings, accErrs, s) => Some (accWarnings, accErrs, stopWatches s)
  | Some (true, accWarnings, accErrs, s) =>
      let '(waitErrs, w) := waitGlobal (globalWaitGroup s) (world s) in
      let s := mkState w (trace s) (pvsToProvision s) (resourceWatches s)
                 (resourceWaitGroup s) (globalWaitGroup s) (warnings s) (errs s)
                 (resourceClient s) (resourceWatch s) (resourceTask s) in
      Some (accWarnings,
            {| Ark := Ark accErrs ++ waitErrs; Cluster := Cluster accErrs;
               Namespaces := Namespaces accErrs |},
            stopWatches s)
  end.

(** [context.execute], on the file system that [NewGzipTarReader] uses. *)
Definition execute {FS} (fsImpl : filesystem.Interface FS)
    (backupReader : archive.ioReader) (disk : filesystem.fsys FS) (s : rstate)
  : option (RestoreResult * RestoreResult * rstate) * filesystem.fsys FS :=
  let archiveReader := archive.NewGzipTarReader fsImpl backupReader in
  match archive.Extract archiveReader disk with
  | (Some err, _, disk) => (Some (emptyResult, mkResult [err] [] ∅, s), disk)
  | (None, archiveReader, disk) =>
      let res := restoreFromArchive (archive.asReader archiveReader disk) s in
      (res, (archive.Close archiveReader disk).2)
  end.

End with_context.

(** *** [Restore] *)

(** [kubernetesRestorer]. The restic factory takes the time budget of the
    pod-volume restores in place of the Go context that carries it. *)
Record kubernetesRestorer := mkRestorer {
  discoveryHelper : Helper;
  krDynamicFactory : GroupVersion → APIResource → string → result Dynamic;
  krBlockStore : option BlockStore;
  resticRestorerFactory : option (Z → Restore → result ResticRestorer);
  resticTimeout : Z;
  resourcePriorities : list string }.

(** [getResourceIncludesExcludes]. *)
Definition getResourceIncludesExcludes (X : externals) (helper : Helper)
    (includes excludes : list string) : IncludesExcludes :=
  GenerateIncludesExcludes X includes excludes
    (λ item,
       match ResourceFor helper (WithVersion (ParseGroupResource item) "") with
       | Err _ => ""
       | Ok (gvr, _) => GroupResource_String (GroupResourceOf gvr)
       end).

(** [resolveActions]. *)
Fixpoint resolveActions (X : externals) (actions : list ItemAction) (helper : Helper)
  : result (list resolvedAction) :=
  match actions with
  | [] => Ok []
  | action :: actions' =>
      match AppliesTo action with
      | Err err => Err err
      | Ok resourceSelector =>
          let resources :=
            getResourceIncludesExcludes X helper
              (selIncludedResources resourceSelector)
              (selExcludedResources resourceSelector) in
          let namespaces :=
            NewIncludesExcludes X (selIncludedNamespaces resourceSelector)
              (selExcludedNamespaces resourceSelector) in
          let selector :=
            if decide (selLabelSelector resourceSelector = "") then Ok Everything
            else ParseSelector X (selLabelSelector resourceSelector) in
          match selector with
          | Err err => Err err
          | Ok selector =>
              match resolveActions X actions' helper with
              | Err err => Err err
              | Ok resolved =>
                  Ok (mkResolvedAction action resources namespaces selector :: resolved)
              end
          end
      end
  end.

(** Lines 171-183 of [Restore]: the selector of the request; a request
    without a label selector gets the empty one. *)
Definition restoreSelector (restore : Restore) : result Selector :=
  let ls :=
    match LabelSelectorOf restore with
    | None => emptyLabelSelector
    | Some ls => ls
    end in
  LabelSelectorAsSelector (Some ls).

(** The state in which [Restore] starts the engine. *)
Definition initialState (w : World) : rstate :=
  mkState w [] ∅ [] 0 [] emptyResult emptyResult None None None.

(** [kubernetesRestorer.Restore]: warnings, errors, and the state of the
    engine and of the disk afterwards; [None] when the engine panics. *)
Definition Restore {FS} (X : externals) (kr : kubernetesRestorer)
    (fsImpl : filesystem.Interface FS) (restore : Restore) (backup : Backup)
    (backupReader : archive.ioReader) (actions : list ItemAction)
    (disk : filesystem.fsys FS) (w : World)
  : option (RestoreResult * RestoreResult * rstate) * filesystem.fsys FS :=
  let failed (err : error) :=
    (Some (emptyResult, mkResult [err] [] ∅, initialState w), disk) in
  match restoreSelector restore with
  | Err err => failed err
  | Ok selector =>
      let resourceIncludesExcludes :=
        getResourceIncludesExcludes X (discoveryHelper kr)
          (IncludedResources restore) (ExcludedResources restore) in
      match prioritize.prioritizeResources (discoveryHelper kr) (resourcePriorities kr)
              resourceIncludesExcludes with
      | Err err => failed err
      | Ok prioritizedResources =>
          match resolveActions X actions (discoveryHelper kr) with
          | Err err => failed err
          | Ok resolvedActions =>
              let podVolumeTimeout :=
                match restoreAnnotations restore !! PodVolumeOperationTimeoutAnnotation with
                | None | Some "" => resticTimeout kr
                | Some val =>
                    match ParseDuration X val with
                    | Err _ => resticTimeout kr
                    | Ok parsed => parsed
                    end
                end in
              let resticRestorer :=
                match resticRestorerFactory kr with
                | None => Ok None
                | Some factory =>
                    match factory podVolumeTimeout restore with
                    | Err err => Err err
                    | Ok r => Ok (Some r)
                    end
                end in
              match resticRestorer with
              | Err err => failed err
              | Ok resticRestorer =>
                  let pvRestorer :=
                    mkPVRestorer (SnapshotVolumes backup) (RestorePVs restore)
                      (VolumeBackups backup) (krBlockStore kr) in
                  let restoreCtx :=
                    mkContext backup restore prioritizedResources selector
                      (krDynamicFactory kr) resolvedActions resticRestorer pvRestorer in
                  execute X restoreCtx fsImpl backupReader disk (initialState w)
              end
          end
      end
  end.

End engine.

Arguments Val {World WatchT A}.
Arguments Continue {World WatchT A}.
Arguments Return {World WatchT A}.
Arguments Panic {World WatchT A}.
Arguments mkDynamic {World WatchT}.
Arguments mkBlockStore {World}.
Arguments mkResticRestorer {World}.
Arguments mkExternals {World}.
Arguments mkPVRestorer {World}.
Arguments mkContext {World WatchT}.
Arguments mkState {World WatchT}.
Arguments mkRestorer {World WatchT}.
Arguments EvCreate {WatchT}.
Arguments EvGet {WatchT}.
Arguments EvPatch {WatchT}.
Arguments EvWatch {WatchT}.
Arguments EvStop {WatchT}.
Arguments EvExecutePVAction {WatchT}.
Arguments EvCreateVolumeFromSnapshot {WatchT}.
Arguments EvExecute {WatchT}.
Arguments EvEnsureNamespaceExists {WatchT}.
Arguments EvGoWaitForReady {WatchT}.
Arguments EvGoRestorePodVolumes {WatchT}.

End restore.


(** * A program logic for the loop body

    [preserves R m]: whatever way the step [m] ends, the state it ends in
    is related by [R] to the state it started from. With a preorder [R]
    the property goes through [bind] and through loops. *)
Section preserves.
Import restore.
Context {World WatchT : Type}.
Implicit Types (s : @rstate World WatchT) (R : relation (@rstate World WatchT)).

Definition stateOf {A} (r : @flow World WatchT A) : rstate :=
  match r with
  | Val _ s | Continue s | Return s | Panic s => s
  end.

Definition preserves {A} R (m : @M World WatchT A) : Prop :=
  ∀ s, R s (stateOf (m s)).

Lemma preserves_ret {A} R `{!Reflexive R} (a : A) : preserves R (ret a).
Proof. intros s. simpl. reflexivity. Qed.

Lemma preserves_continue {A} R `{!Reflexive R} : preserves R (@continue _ _ A).
Proof. intros s. simpl. reflexivity. Qed.

Lemma preserves_return {A} R `{!Reflexive R} : preserves R (@return_ _ _ A).
Proof. intros s. simpl. reflexivity. Qed.

Lemma preserves_panic {A} R `{!Reflexive R} : preserves R (@panic _ _ A).
Proof. intros s. simpl. reflexivity. Qed.

Lemma preserves_gets {A} R `{!Reflexive R} (f : rstate → A) : preserves R (gets f).
Proof. intros s. simpl. reflexivity. Qed.

Lemma preserves_modify R (f : rstate → rstate) :
  (∀ s, R s (f s)) → preserves R (modify f).
Proof. intros Hf s. apply Hf. Qed.

Lemma preserves_call {A} R (ev : event) (f : World → A * World) :
  (∀ s w, R s (setWorld w ev s)) → preserves R (call ev f).
Proof. intros Hf s. unfold call. destruct (f (world s)). apply Hf. Qed.

Lemma preserves_bind {A B} R `{!Transitive R} (m : M A) (k : A → M B) :
  preserves R m → (∀ a, preserves R (k a)) → preserves R (bind m k).
Proof.
  intros Hm Hk s. unfold bind. specialize (Hm s).
  destruct (m s) as [a s'|s'|s'|s']; simpl in *; [|exact Hm..].
  etrans; [exact Hm|apply Hk].
Qed.

Lemma preserves_when R `{!Reflexive R} (b : bool) (m : M unit) :
  preserves R m → preserves R (when b m).
Proof. intros Hm. destruct b; [exact Hm|apply preserves_ret, _]. Qed.

Lemma preserves_orContinue {A} R `{!PreOrder R} (r : result A) onErr :
  (∀ err, preserves R (onErr err)) → preserves R (orContinue r onErr).
Proof.
  intros Hon. destruct r as [a|err]; unfold orContinue.
  - apply preserves_ret, _.
  - apply preserves_bind; [apply _|apply Hon|]. intros _. apply preserves_continue, _.
Qed.

Lemma preserves_bind_orContinue {A B} R `{!PreOrder R} (r : result A) onErr
    (k : A → M B) :
  (∀ err, preserves R (onErr err)) →
  (∀ a, r = Ok a → preserves R (k a)) →
  preserves R (bind (orContinue r onErr) k).
Proof.
  intros Hon Hk. destruct r as [a|err].
  - intros s. apply (Hk a eq_refl).
  - intros s. specialize (Hon err s). unfold bind, orContinue, bind.
    by destruct (onErr err s).
Qed.

Lemma preserves_forEach {A} R `{!PreOrder R} (body : A → M unit) (xs : list A) :
  (∀ x, x ∈ xs → preserves R (body x)) → preserves R (forEach body xs).
Proof.
  induction xs as [|x xs IH]; intros Hbody s; simpl; [reflexivity|].
  pose proof (Hbody x ltac:(left) s) as Hx.
  assert (IH' : preserves R (forEach body xs))
    by (apply IH; intros y Hy; apply Hbody; by right).
  destruct (body x s) as [a s'|s'|s'|s']; simpl in *; try done;
    (etrans; [exact Hx|apply IH']).
Qed.

(** Equations that run a step. *)

Lemma bind_ret {A B} (a : A) (k : A → M B) s : bind (ret a) k s = k a s.
Proof. done. Qed.

Lemma bind_orContinue_Ok {A B} (a : A) onErr (k : A → M B) s :
  bind (orContinue (Ok a) onErr) k s = k a s.
Proof. done. Qed.

Lemma bind_gets {A B} (f : rstate → A) (k : A → M B) s :
  bind (gets f) k s = k (f s) s.
Proof. done. Qed.

Lemma bind_modify {B} (f : rstate → rstate) (k : unit → M B) s :
  bind (modify f) k s = k tt (f s).
Proof. done. Qed.

Lemma bind_call {A B} (ev : event) (f : World → A * World) (k : A → M B) s :
  bind (call ev f) k s = k (f (world s)).1 (setWorld (f (world s)).2 ev s).
Proof. unfold bind, call. by destruct (f (world s)). Qed.

Lemma bind_when_false {B} (m : M unit) (k : unit → M B) s :
  bind (when false m) k s = k tt s.
Proof. done. Qed.

(** The relations used below. *)

(** The error lists are the same. *)
Definition sameErrs : relation rstate := λ s s', errs s' = errs s.

(** The provisioning set only grows. *)
Definition provisionGrows : relation rstate :=
  λ s s', pvsToProvision s ⊆ pvsToProvision s'.

(** The record of calls is extended by events that all satisfy [Q]. *)
Definition appends (Q : @event WatchT → Prop) : relation rstate :=
  λ s s', ∃ evs, trace s' = trace s ++ evs ∧ Forall Q evs.

#[global] Instance sameErrs_preorder : PreOrder sameErrs.
Proof. split; [done|]. intros s1 s2 s3. unfold sameErrs. congruence. Qed.

#[global] Instance provisionGrows_preorder : PreOrder provisionGrows.
Proof. split; unfold provisionGrows; [intros ?|intros ???]; set_solver. Qed.

#[global] Instance appends_preorder Q : PreOrder (appends Q).
Proof.
  split.
  - intros s. exists []. by rewrite app_nil_r.
  - intros s1 s2 s3 (e1 & H1 & Q1) (e2 & H2 & Q2). exists (e1 ++ e2).
    rewrite H2, H1, app_assoc. split; [done|]. by apply Forall_app.
Qed.

Lemma appends_same Q s s' : trace s' = trace s → appends Q s s'.
Proof. intros Ht. exists []. by rewrite app_nil_r. Qed.

Lemma appends_one Q s s' ev : trace s' = trace s ++ [ev] → Q ev → appends Q s s'.
Proof. intros Ht Hq. exists [ev]. split; [done|]. by constructor. Qed.

Lemma appends_weaken (Q Q' : event → Prop) s s' :
  (∀ ev, Q ev → Q' ev) → appends Q s s' → appends Q' s s'.
Proof.
  intros Himp (evs & Ht & Hq). exists evs. split; [done|].
  eapply Forall_impl; [exact Hq|exact Himp].
Qed.

Lemma stateOf_bind {A B} (m : M A) (k : A → M B) s :
  stateOf (bind m k s) =
  match m s with
  | Val a s' => stateOf (k a s')
  | Continue s' | Return s' | Panic s' => s'
  end.
Proof. unfold bind. by destruct (m s). Qed.

Lemma stateOf_bind_orContinue_Err {A B} err onErr (k : A → M B) s :
  stateOf (bind (orContinue (Err err) onErr) k s) = stateOf (onErr err s).
Proof. unfold bind, orContinue, bind. by destruct (onErr err s). Qed.

End preserves.

(** One step of a proof of [preserves]: the rule of the construct at the
    head of the program; [leaf] proves the relation across a single
    change of the state. *)
Ltac preserves_step leaf :=
  lazymatch goal with
  | |- preserves _ (restore.bind (restore.orContinue _ _) _) =>
      apply preserves_bind_orContinue; [apply _|intros ?|intros ? ?]
  | |- preserves _ (restore.bind _ _) =>
      apply preserves_bind; [apply _| |intros ?]
  | |- preserves _ (restore.ret _) => apply preserves_ret; apply _
  | |- preserves _ restore.continue => apply preserves_continue; apply _
  | |- preserves _ restore.return_ => apply preserves_return; apply _
  | |- preserves _ restore.panic => apply preserves_panic; apply _
  | |- preserves _ (restore.gets _) => apply preserves_gets; apply _
  | |- preserves _ (restore.when _ _) => apply preserves_when; [apply _|]
  | |- preserves _ (restore.orContinue _ _) =>
      apply preserves_orContinue; [apply _|intros ?]
  | |- preserves _ (restore.modify _) => apply preserves_modify; intros ?; leaf
  | |- preserves _ (restore.call _ _) => apply preserves_call; intros ? ?; leaf
  | |- preserves _ (restore.addToErrs _ _) => unfold restore.addToErrs
  | |- preserves _ (restore.addToWarnings _ _) => unfold restore.addToWarnings
  | |- preserves _ (restore.addToWarningsNilable _ _) =>
      unfold restore.addToWarningsNilable
  | |- preserves _ (match ?x with _ => _ end) => destruct x
  end.

Ltac preserves_auto leaf := repeat preserves_step leaf.

(** * What the steps of the loop body record

    [quiet Q]: the provisioning set stays as it is and the record of calls
    is extended by events that satisfy [Q]. Every step but the one that
    leaves a volume to provisioning is quiet for the events it can
    record. *)
Section quiet_steps.
Import schema discovery collections unstructured labels api restore.
Context {World WatchT : Type}.
Implicit Types (X : @externals World) (ctx : @context World WatchT)
  (s : @rstate World WatchT) (obj : Unstructured)
  (client : @Dynamic World WatchT) (Q : @event WatchT → Prop).

Definition quiet Q : relation (@rstate World WatchT) :=
  λ s s', pvsToProvision s' = pvsToProvision s ∧ appends Q s s'.

#[global] Instance quiet_preorder Q : PreOrder (quiet Q).
Proof.
  split.
  - intros s. split; [done|reflexivity].
  - intros s1 s2 s3 [P1 A1] [P2 A2]. split; [congruence|by etrans].
Qed.

Lemma quiet_appends {A} Q (m : @M World WatchT A) :
  preserves (quiet Q) m → preserves (appends Q) m.
Proof. intros Hm s. apply Hm. Qed.

Lemma quiet_weaken Q (Q' : @event WatchT → Prop) s s' :
  (∀ ev, Q ev → Q' ev) → quiet Q s s' → quiet Q' s s'.
Proof. intros Himp [HP HA]. split; [done|by eapply appends_weaken]. Qed.

End quiet_steps.

Ltac quiet_leaf :=
  split; [reflexivity
         |first [apply appends_same; reflexivity
                |eapply appends_one; [reflexivity|auto]]].

Section quiet_steps_lemmas.
Import schema discovery collections unstructured labels api restore.
Context {World WatchT : Type}.
Implicit Types (X : @externals World) (ctx : @context World WatchT)
  (s : @rstate World WatchT) (obj : Unstructured)
  (client : @Dynamic World WatchT) (Q : @event WatchT → Prop).

Lemma getResourceClient_quiet Q ctx resource namespace obj :
  preserves (quiet Q) (getResourceClient ctx resource namespace obj).
Proof. unfold getResourceClient. preserves_auto quiet_leaf. Qed.

Lemma executePVAction_quiet Q (r : @pvRestorer World) obj :
  (∀ snapshotID, Q (EvCreateVolumeFromSnapshot snapshotID)) →
  preserves (quiet Q) (@executePVAction World WatchT r obj).
Proof. intros HQ. unfold executePVAction. preserves_auto quiet_leaf. Qed.

Lemma resetPersistentVolumeClaim_quiet Q namespace obj :
  preserves (quiet Q) (@resetPersistentVolumeClaim World WatchT namespace obj).
Proof. unfold resetPersistentVolumeClaim. preserves_auto quiet_leaf. Qed.

Lemma runActions_quiet Q ctx resource namespace file acts obj :
  (∀ o, Q (EvExecute o)) →
  preserves (quiet Q) (runActions ctx resource namespace file acts obj).
Proof.
  intros HQ. revert obj. induction acts as [|a acts IH]; intros obj; simpl.
  - preserves_auto quiet_leaf.
  - destruct (negb _); [apply IH|].
    preserves_step quiet_leaf; [preserves_auto quiet_leaf|].
    destruct (Execute _ _ _) as [[updatedObj warning] err].
    preserves_step quiet_leaf; [preserves_auto quiet_leaf|].
    destruct err as [err|]; [|destruct updatedObj as [u|t]].
    + preserves_step quiet_leaf; [preserves_auto quiet_leaf|apply IH].
    + apply IH.
    + preserves_step quiet_leaf; [preserves_auto quiet_leaf|apply IH].
Qed.

Lemma resolveAlreadyExists_quiet Q X resource namespace client name obj restoreErr :
  (∀ n, Q (EvGet n)) → (∀ n p, Q (EvPatch n p)) →
  preserves (quiet Q)
    (resolveAlreadyExists X resource namespace client name obj restoreErr).
Proof. intros HG HP. unfold resolveAlreadyExists. preserves_auto quiet_leaf. Qed.

Lemma createItem_quiet Q X ctx resource namespace client file name obj :
  Q (EvCreate obj) → (∀ o, Q (EvGoRestorePodVolumes o)) →
  (∀ n, Q (EvGet n)) → (∀ n p, Q (EvPatch n p)) →
  preserves (quiet Q) (createItem X ctx resource namespace client file name obj).
Proof.
  intros HC HR HG HP. unfold createItem.
  preserves_step quiet_leaf; [preserves_auto quiet_leaf|].
  destruct a as [createdObj|restoreErr].
  - preserves_auto quiet_leaf.
  - destruct (IsAlreadyExists restoreErr); [by apply resolveAlreadyExists_quiet|].
    preserves_auto quiet_leaf.
Qed.

End quiet_steps_lemmas.

(** * The return of [restoreResource]

    What the goroutine of the call has written by the time the call
    returns is at most one warning of the system list; nothing else of the
    state depends on it. *)
Section returned_state.
Import schema discovery collections unstructured labels api restore.
Context {World WatchT : Type}.
Implicit Types (s : @rstate World WatchT) (R : relation (@rstate World WatchT)).

Lemma returned_cases s :
  returned s = s ∨ ∃ e, returned s = setWarnings (addArkError (warnings s) e) s.
Proof.
  unfold returned. destruct (resourceTask s) as [[name timeout]|]; [|by left].
  destruct (resourceWatch s) as [w|] eqn:Hw; [|by left].
  destruct (resourceClient s) as [client|] eqn:Hc; [|by left].
  unfold waitForPersistentVolume.
  destruct (waitForReady _ _ _ _) as [[ready|err]|]; [|right; by eexists|];
    left; destruct s; simpl in *; by subst.
Qed.

Lemma returned_without_task s : resourceTask s = None → returned s = s.
Proof. intros Hnone. unfold returned. by rewrite Hnone. Qed.

Lemma returned_without_client s : resourceClient s = None → returned s = s.
Proof.
  intros Hnone. unfold returned. rewrite Hnone.
  by destruct (resourceTask s) as [[? ?]|], (resourceWatch s).
Qed.

Lemma preserves_returned R `{!Reflexive R} :
  (∀ s e, R s (setWarnings (addArkError (warnings s) e) s)) → ∀ s, R s (returned s).
Proof.
  intros HR s. destruct (returned_cases s) as [->|[e ->]]; [reflexivity|apply HR].
Qed.

Lemma trace_returned s : trace (returned s) = trace s.
Proof. by destruct (returned_cases s) as [->|[e ->]]. Qed.

Lemma world_returned s : world (returned s) = world s.
Proof. by destruct (returned_cases s) as [->|[e ->]]. Qed.

Lemma errs_returned s : errs (returned s) = errs s.
Proof. by destruct (returned_cases s) as [->|[e ->]]. Qed.

Lemma pvsToProvision_returned s : pvsToProvision (returned s) = pvsToProvision s.
Proof. by destruct (returned_cases s) as [->|[e ->]]. Qed.

Lemma resourceWatches_returned s : resourceWatches (returned s) = resourceWatches s.
Proof. by destruct (returned_cases s) as [->|[e ->]]. Qed.

Lemma globalWaitGroup_returned s : globalWaitGroup (returned s) = globalWaitGroup s.
Proof. by destruct (returned_cases s) as [->|[e ->]]. Qed.

End returned_state.

(** * A test double of the collaborators

    An in-memory cluster in the manner of the fakes that the tests of the
    repository use: [Create] stores the object under its resource type,
    namespace and name and answers "already exists" when the key is
    taken. An archive is a list of items; the bytes of an item are its key,
    which the decoder resolves to the document of the item. *)
Abbreviation cluster := (gmap string (gmap string unstructured.value)).

Section fakes.
Import schema discovery collections unstructured labels api restore.

Definition objectKey (resource namespace name : string) : string :=
  resource +:+ "/" +:+ namespace +:+ "/" +:+ name.

Definition fakeClient (resource namespace : string) : @Dynamic cluster string :=
  mkDynamic
    (λ obj w,
       let key := objectKey resource namespace (GetName obj) in
       match w !! key with
       | Some _ => (inr (mkApiError true (key +:+ " already exists")), w)
       | None => (inl obj, <[key := obj]> w)
       end)
    (λ name w,
       match w !! objectKey resource namespace name with
       | Some obj => Ok obj
       | None => Err (name +:+ " not found")
       end)
    (λ name patchBytes w, (None, w))
    (λ w, (Ok resource, w))
    (λ _ _, []).

Definition fakeFactory (gv : GroupVersion) (r : APIResource) (namespace : string)
  : result (@Dynamic cluster string) := Ok (fakeClient (Name r) namespace).

Record item := mkItem {
  itResource : string; itNamespace : string; itFile : string;
  itDoc : result Unstructured }.

Definition itemsOf (items : list item) (resource namespace : string) : list item :=
  filter (λ it, itResource it = resource ∧ itNamespace it = namespace) items.

Definition fakeReader (items : list item) : archive.Reader :=
  archive.mkArchiveReader
    (λ gr,
       match filter (λ it, itResource it = gr) items with
       | [] => Ok ("", false)
       | its =>
           if bool_decide (Exists (λ it, itNamespace it = "") its)
           then Ok (archive.ResourceScopeCluster, true)
           else Ok (archive.ResourceScopeNamespace, true)
       end)
    (λ gr, Ok (remove_dups (itNamespace <$> filter (λ it, itResource it = gr) items)))
    (λ gr ns,
       match itemsOf items gr ns with
       | [] => Err "no such file or directory"
       | its => Ok (itFile <$> its)
       end)
    (λ gr ns name,
       match filter (λ it, itFile it = name) (itemsOf items gr ns) with
       | [] => Err "no such file or directory"
       | _ => Ok (objectKey gr ns name)
       end).

Definition decodeItem (items : list item) (bytes : string) : result Unstructured :=
  match filter (λ it, objectKey (itResource it) (itNamespace it) (itFile it) = bytes)
          items with
  | it :: _ => itDoc it
  | [] => Err "unexpected end of JSON input"
  end.

Definition fakeIncludesExcludes (includes excludes : list string) : IncludesExcludes :=
  mkIE (λ s, bool_decide (s ∉ excludes)
             && (bool_decide (includes = []) || bool_decide ("*" ∈ includes)
                 || bool_decide (s ∈ includes))).

Definition fakeExternals (items : list item) : @externals cluster :=
  mkExternals
    (decodeItem items)
    (λ bytes,
       match decodeItem items bytes with
       | Err err => Err err
       | Ok doc =>
           Ok (mkNamespace (GetName doc) (GetLabels doc) (GetAnnotations doc)
                 (default VNull (doc !! "spec")))
       end)
    (λ ns w, (Ok true, w))
    (λ _, ∅)
    (λ _, None)
    (λ _ _, Ok "merge-patch")
    fakeIncludesExcludes
    (λ includes excludes f, fakeIncludesExcludes (f <$> includes) (f <$> excludes))
    (λ _, Ok Everything)
    (λ _, Err "time: invalid duration").

(** A restore request named [restore-1] of the backup [backup-1]. *)
Definition fakeRestore : api.Restore :=
  mkRestore "restore-1" ∅ "backup-1" [] [] [] [] ∅ None None None.

Definition fakeBackup (volumeBackups : gmap string VolumeBackupInfo) : Backup :=
  mkBackup "heptio-ark" "backup-1" None volumeBackups.

(** The context that [Restore] builds for a request without selector, with
    the given actions and no block store. *)
Definition fakeContext (restore : api.Restore) (backup : Backup)
    (prioritized : list GroupResource) (actions : list resolvedAction)
  : @context cluster string :=
  mkContext backup restore prioritized Everything fakeFactory actions None
    (mkPVRestorer (SnapshotVolumes backup) (RestorePVs restore)
       (VolumeBackups backup) None).

(** A document with the given kind, name, namespace and further fields. *)
Definition document (kind name namespace : string) (fields : list (string * value))
  : Unstructured :=
  list_to_map
    ([("apiVersion", VStr "v1"); ("kind", VStr kind);
      ("metadata", VMap (list_to_map
         ([("name", VStr name); ("uid", VStr "0a1b")]
          ++ (if decide (namespace = "") then [] else [("namespace", VStr namespace)]))))]
     ++ fields).

Definition emptyCluster : @rstate cluster string := initialState ∅.

(** What the engine hands to [Create] for a document of the given kind and
    name in the given namespace ([""] for a cluster-scoped one) that has
    the annotations and the further fields given: the metadata is reduced
    to the name, the namespace and the annotations, and the three labels
    of the restore [restore-1] of the backup [backup-1] are set. *)
Definition restoredWith (kind name namespace : string)
    (annotations : list (string * string)) (fields : list (string * value))
  : Unstructured :=
  list_to_map
    ([("apiVersion", VStr "v1"); ("kind", VStr kind);
      ("metadata", VMap (list_to_map
         ([("name", VStr name);
           ("labels", VMap (list_to_map
              [("ark.heptio.com/backup-name", VStr "backup-1");
               ("ark.heptio.com/restore-name", VStr "restore-1");
               ("ark-restore", VStr "restore-1")]))]
          ++ (if decide (namespace = "") then [] else [("namespace", VStr namespace)])
          ++ (if decide (annotations = []) then []
              else [("annotations",
                     VMap (list_to_map (prod_map id VStr <$> annotations)))]))))]
     ++ fields).

(** Two facts at once about a closed term, by computation. *)
Lemma computed_ne `{EqDecision A} (x y : A) : bool_decide (x = y) = false → x ≠ y.
Proof. apply bool_decide_eq_false. Qed.

End fakes.


(** * Resource prioritisation *)
Section prioritize_proofs.
Import schema discovery collections prioritize.

Implicit Types (helper : Helper) (inc : IncludesExcludes)
  (ret byName : list GroupResource) (set : gset string).

(** What a configured priority resolves to. *)
Definition resolvePriority helper (r : string) : result GroupResource :=
  match ResourceFor helper (WithVersion (ParseGroupResource r) "") with
  | Ok (gvr, _) => Ok (GroupResourceOf gvr)
  | Err err => Err err
  end.

Definition included inc (gr : GroupResource) : bool :=
  ShouldInclude inc (GroupResource_String gr).

(** The configured priorities that resolve, in configured order. *)
Fixpoint resolvedPriorities helper (priorities : list string) : list GroupResource :=
  match priorities with
  | [] => []
  | r :: priorities' =>
      match resolvePriority helper r with
      | Ok gr => gr :: resolvedPriorities helper priorities'
      | Err _ => resolvedPriorities helper priorities'
      end
  end.

(** Every resource type a discovery listing names, one entry per listing;
    groups whose version string does not parse contribute nothing. *)
Definition discoveredResources (groups : list APIResourceList) : list GroupResource :=
  groups ≫= λ resourceGroup,
    match ParseGroupVersion (GroupVersionOf resourceGroup) with
    | Ok groupVersion =>
        (λ resource, GroupResourceOf (GVWithResource groupVersion (Name resource)))
          <$> APIResources resourceGroup
    | Err _ => []
    end.

(** Ascending order of the canonical names. *)
Definition canonicalLe (a b : GroupResource) : Prop :=
  String.leb (GroupResource_String a) (GroupResource_String b) = true.

Lemma byNameLe_canonicalLe a b : byNameLe a b ↔ canonicalLe a b.
Proof.
  unfold byNameLe, byNameLess, canonicalLe, String.ltb, String.leb.
  rewrite (String.compare_antisym (GroupResource_String a)).
  destruct (String.compare (GroupResource_String b) (GroupResource_String a));
    simpl; split; congruence.
Qed.

Lemma Sorted_canonicalLe byName : Sorted byNameLe byName → Sorted canonicalLe byName.
Proof.
  induction 1 as [|gr rest _ IH Hhd]; constructor; [done|].
  destruct Hhd; constructor. by apply byNameLe_canonicalLe.
Qed.

#[local] Instance byNameLe_total : Total byNameLe.
Proof.
  intros a b. rewrite !byNameLe_canonicalLe. apply String.leb_total.
Qed.

Lemma resolvePriorities_Err helper inc priorities ret set :
  Exists (λ r, is_Err (resolvePriority helper r)) priorities →
  is_Err (resolvePriorities helper inc priorities ret set).
Proof.
  intros Hex. revert ret set.
  induction Hex as [r rest Hr | r rest _ IH]; intros ret set; simpl.
  - unfold resolvePriority in Hr.
    destruct (ResourceFor helper _) as [[gvr ?]|]; [done|exact I].
  - destruct (ResourceFor helper _) as [[gvr ?]|]; [|exact I].
    destruct (negb _); apply IH.
Qed.

Lemma resolvePriorities_Ok helper inc priorities ret set ret' set' :
  resolvePriorities helper inc priorities ret set = Ok (ret', set') →
  Forall (λ r, ¬ is_Err (resolvePriority helper r)) priorities ∧
  ret' = ret ++ filter (λ gr, included inc gr) (resolvedPriorities helper priorities) ∧
  set' = list_to_set (GroupResource_String <$>
           filter (λ gr, included inc gr) (resolvedPriorities helper priorities)) ∪ set.
Proof.
  revert ret set. induction priorities as [|r rest IH]; intros ret set; simpl.
  - intros H. injection H as <- <-. split; [constructor|].
    split; [by rewrite app_nil_r|set_solver].
  - destruct (ResourceFor helper _) as [[gvr ?]|] eqn:Hr; [|done].
    assert (Hres : resolvePriority helper r = Ok (GroupResourceOf gvr))
      by (unfold resolvePriority; by rewrite Hr).
    rewrite Hres, filter_cons.
    destruct (ShouldInclude inc _) eqn:Hinc; simpl; intros H;
      apply IH in H as (Hall & -> & ->).
    + split; [constructor; [rewrite Hres; intros []|done]|].
      rewrite decide_True by (unfold included; by rewrite Hinc).
      split; [by rewrite <-app_assoc|]. rewrite fmap_cons. set_solver.
    + split; [constructor; [rewrite Hres; intros []|done]|].
      rewrite decide_False by (unfold included; rewrite Hinc; simpl; tauto).
      done.
Qed.

Lemma collectResources_spec inc set groupVersion resources byName :
  collectResources inc set groupVersion resources byName =
  byName ++ filter (λ gr, included inc gr ∧ GroupResource_String gr ∉ set)
    ((λ resource, GroupResourceOf (GVWithResource groupVersion (Name resource)))
       <$> resources).
Proof.
  revert byName. induction resources as [|resource rest IH]; intros byName; simpl.
  - by rewrite app_nil_r.
  - rewrite filter_cons.
    destruct (ShouldInclude inc _) eqn:Hinc; simpl.
    + destruct (decide (_ ∈ set)) as [Hin|Hin]; rewrite IH.
      * rewrite decide_False; [done|]. intros [_ ?]. done.
      * rewrite decide_True; [by rewrite <-app_assoc|].
        split; [unfold included; by rewrite Hinc|done].
    + rewrite IH. rewrite decide_False; [done|].
      unfold included. rewrite Hinc. intros [[] _].
Qed.

Lemma collectGroups_Ok inc set groups byName byName' :
  collectGroups inc set groups byName = Ok byName' →
  Forall (λ g, ¬ is_Err (ParseGroupVersion (GroupVersionOf g))) groups ∧
  byName' = byName ++ filter (λ gr, included inc gr ∧ GroupResource_String gr ∉ set)
              (discoveredResources groups).
Proof.
  revert byName. induction groups as [|g rest IH]; intros byName; simpl.
  - intros H. injection H as <-. split; [constructor|]. by rewrite app_nil_r.
  - unfold discoveredResources; simpl.
    destruct (ParseGroupVersion _) as [gv|] eqn:Hgv; [|done].
    intros H. apply IH in H as [Hall ->]. split.
    + constructor; [rewrite Hgv; intros []|done].
    + rewrite collectResources_spec, filter_app, <-app_assoc. done.
Qed.

Lemma collectGroups_Err inc set groups byName :
  Exists (λ g, is_Err (ParseGroupVersion (GroupVersionOf g))) groups →
  is_Err (collectGroups inc set groups byName).
Proof.
  intros Hex. revert byName.
  induction Hex as [g rest Hg | g rest _ IH]; intros byName; simpl.
  - destruct (ParseGroupVersion _); [done|exact I].
  - destruct (ParseGroupVersion _); [apply IH|exact I].
Qed.

(** C3 (amended). [prioritizeResources] fails when a configured priority
    cannot be resolved through discovery. When it succeeds, it returns the
    configured priorities that the filter admits, in configured order,
    followed by a remainder that is in ascending order of the canonical
    name [GroupResource_String] ("resource.group") and that holds, once per
    discovery listing, every discovered resource type that the filter
    admits and whose canonical name is not that of a returned priority: a
    type that discovery lists twice appears twice. *)
Theorem prioritizeResources_order helper priorities inc :
  (Exists (λ r, is_Err (resolvePriority helper r)) priorities →
   is_Err (prioritizeResources helper priorities inc)) ∧
  (∀ ret, prioritizeResources helper priorities inc = Ok ret →
   let prioritized :=
     filter (λ gr, included inc gr) (resolvedPriorities helper priorities) in
   ∃ byName,
     ret = prioritized ++ byName ∧
     Forall (λ r, ¬ is_Err (resolvePriority helper r)) priorities ∧
     Sorted canonicalLe byName ∧
     byName ≡ₚ
       filter (λ gr, included inc gr ∧
                     GroupResource_String gr ∉ GroupResource_String <$> prioritized)
         (discoveredResources (Resources helper))).
Proof.
  unfold prioritizeResources. split.
  - intros Hex.
    pose proof (resolvePriorities_Err helper inc priorities [] ∅ Hex) as Herr.
    destruct (resolvePriorities helper inc priorities [] ∅) as [[??]|]; [done|exact I].
  - intros ret.
    destruct (resolvePriorities helper inc priorities [] ∅) as [[ret0 set]|] eqn:Hprio;
      [|done].
    apply resolvePriorities_Ok in Hprio as (Hall & -> & ->).
    destruct (collectGroups inc _ (Resources helper) []) as [byName|] eqn:Hgroups;
      [|done].
    apply collectGroups_Ok in Hgroups as [_ ->].
    intros H. injection H as <-. simpl.
    eexists. split; [reflexivity|]. split; [done|]. split.
    + apply Sorted_canonicalLe, (Sorted_merge_sort byNameLe).
    + unfold sortSlice. rewrite merge_sort_Permutation.
      erewrite list_filter_iff; [done|]. intros gr.
      rewrite elem_of_union, elem_of_list_to_set. set_solver.
Qed.

End prioritize_proofs.

Section prioritize_examples.
Import schema discovery collections prioritize.

(** A discovery helper that resolves every name to itself and lists the
    [deployments] of group [apps] under two versions. *)
Definition twoVersionsHelper : Helper :=
  {| ResourceFor := λ gvr, Ok (gvr, mkAPIResource (gvrResource gvr) true);
     Resources :=
       [ mkAPIResourceList "apps/v1" [mkAPIResource "deployments" true];
         mkAPIResourceList "apps/v1beta1" [mkAPIResource "deployments" true] ] |}.

Definition includeAll : IncludesExcludes := mkIE (λ _, true).

(** C3, counterexample: a resource type that discovery lists under two
    versions of its group is returned twice. *)
Lemma prioritizeResources_duplicates :
  ∃ ret, prioritizeResources twoVersionsHelper [] includeAll = Ok ret ∧ ¬ NoDup ret.
Proof.
  exists [mkGR "apps" "deployments"; mkGR "apps" "deployments"].
  split; [by vm_compute|].
  intros Hnd. apply NoDup_cons in Hnd as [Hnotin _]. apply Hnotin. left.
Qed.

(** A helper that knows [pods] (core group), [zeta] (group [apps]) and
    [alpha] (group [batch]) and fails on any other name. *)
Definition smallHelper : Helper :=
  {| ResourceFor := λ gvr,
       if decide (gvrResource gvr = "pods")
       then Ok (mkGVR "" "v1" "pods", mkAPIResource "pods" true)
       else Err ("resource not found: " +:+ gvrResource gvr);
     Resources :=
       [ mkAPIResourceList "v1" [mkAPIResource "pods" true];
         mkAPIResourceList "apps/v1" [mkAPIResource "zeta" true];
         mkAPIResourceList "batch/v1" [mkAPIResource "alpha" true] ] |}.

(** The remainder is ordered by "resource.group": [alpha.batch] comes
    before [zeta.apps]. *)
Example prioritizeResources_small :
  prioritizeResources smallHelper ["pods"] includeAll
  = Ok [mkGR "" "pods"; mkGR "batch" "alpha"; mkGR "apps" "zeta"].
Proof. by vm_compute. Qed.

Example prioritizeResources_unresolved :
  prioritizeResources smallHelper ["pods"; "widgets"] includeAll
  = Err "resource not found: widgets".
Proof. by vm_compute. Qed.

End prioritize_examples.


(** * The archive reader before extraction *)
Section archive_proofs.
Import filesystem archive.
Context {FS : Type}.
Implicit Types (r : gzipTarReader FS) (st : fsys FS).

(** A reader on which [Extract] has not completed: a new reader, or such a
    reader after an [Extract] that returned an error. *)
Inductive notExtracted : gzipTarReader FS → Prop :=
  | notExtracted_new fsImpl a : notExtracted (NewGzipTarReader fsImpl a)
  | notExtracted_failed r st err r' st' :
      notExtracted r →
      Extract r st = (Some err, r', st') →
      notExtracted r'.

Lemma Extract_failed_reader r st err r' st' :
  Extract r st = (Some err, r', st') → r' = r.
Proof.
  unfold Extract. destruct (archiveOf r) as [stream|]; [|congruence].
  destruct (TempDir _ _ _ _) as [[dir|] d]; [|congruence].
  destruct (extractEntries _ _ _ _ _) as [[?|] ?]; congruence.
Qed.

Lemma notExtracted_tempDir r : notExtracted r → tempDir r = "".
Proof.
  induction 1 as [|r st err r' st' _ IH Hex]; [done|].
  apply Extract_failed_reader in Hex as ->. exact IH.
Qed.

(** C10. On a reader on which [Extract] has not completed, each of the
    four queries returns the error "archive has not been extracted", and
    [Close] returns nil; none of them calls the file system or changes the
    disk. *)
Theorem queries_before_Extract r st groupResource namespace name :
  notExtracted r →
  GetResourceScope r groupResource st = (Err ErrNotExtracted, st) ∧
  ListNamespaces r groupResource st = (Err ErrNotExtracted, st) ∧
  ListContents r groupResource namespace st = (Err ErrNotExtracted, st) ∧
  Get r groupResource namespace name st = (Err ErrNotExtracted, st) ∧
  Close r st = (None, st) ∧
  ErrNotExtracted = "archive has not been extracted".
Proof.
  intros Hne. apply notExtracted_tempDir in Hne.
  unfold GetResourceScope, ListNamespaces, ListContents, Get, Close.
  rewrite !decide_True by done. done.
Qed.

End archive_proofs.

Section archive_examples.
Import filesystem archive.

(** An in-memory file system: a path is a directory ([None]) or a file
    with its content. All temporary directories are [/tmp/ark]. *)
Definition memFS : Type := gmap string (option string).

(** A path and the directories above it, up to the root. *)
Fixpoint ancestors (fuel : nat) (path : string) : list string :=
  match fuel with
  | 0 => []
  | S fuel' =>
      if decide (path = "/" ∨ path = ".") then []
      else path :: ancestors fuel' (filepath.Dir path)
  end.

Definition memInterface : Interface memFS :=
  {| TempDir := λ d _ _, (Ok "/tmp/ark", <["/tmp/ark" := None]> d);
     MkdirAll := λ d path _,
       (None, foldr (λ p d, <[p := None]> d) d (ancestors (String.length path) path));
     Create := λ d path, (None, <[path := Some ""]> d);
     Copy := λ d path bytes, (None, <[path := Some bytes]> d);
     DirExists := λ d path, Ok (bool_decide (d !! path = Some None));
     ReadDir := λ d path,
       match d !! path with
       | Some None =>
           Ok ((λ kv, mkFileInfo
                        (default "" (snd <$> cut "/" (String.substring
                           (String.length path) (String.length kv.1) kv.1)))
                        (bool_decide (kv.2 = None)))
               <$> filter (λ kv, filepath.Dir kv.1 = path) (map_to_list d))
       | _ => Err ("open " +:+ path +:+ ": no such file or directory")
       end;
     ReadFile := λ d path,
       match d !! path with
       | Some (Some bytes) => Ok bytes
       | _ => Err ("open " +:+ path +:+ ": no such file or directory")
       end;
     RemoveAll := λ d path,
       (None, filter (λ kv, String.prefix path kv.1 = false) d) |}.

Definition emptyDisk : fsys memFS := mkFsys ∅ [].

(** An archive whose tar stream breaks after its first entry. *)
Definition truncatedArchive : ioReader :=
  Ok {| entries := [mkEntry "resources/pods/namespaces/ns-1/p1.json" TypeReg 493 "{}"];
        nextErr := Some "unexpected EOF" |}.

Definition goodArchive : ioReader :=
  Ok {| entries := [mkEntry "resources/pods/namespaces/ns-1/p1.json" TypeReg 493 "{}";
                    mkEntry "resources/persistentvolumes/cluster/pv1.json" TypeReg 493 "{}"];
        nextErr := None |}.

Example Extract_truncated :
  let '(err, r', st') := Extract (NewGzipTarReader memInterface truncatedArchive) emptyDisk in
  err = Some "error getting next tar header: unexpected EOF" ∧ tempDir r' = "" ∧
  calls st' = [CallTempDir "" "";
               CallMkdirAll "/tmp/ark/resources/pods/namespaces/ns-1";
               CallCreate "/tmp/ark/resources/pods/namespaces/ns-1/p1.json";
               CallCopy "/tmp/ark/resources/pods/namespaces/ns-1/p1.json"].
Proof. by vm_compute. Qed.

(** After a successful [Extract] the queries read the disk. *)
Example Extract_good :
  let '(err, r', st') := Extract (NewGzipTarReader memInterface goodArchive) emptyDisk in
  err = None ∧ tempDir r' = "/tmp/ark" ∧
  (Get r' "pods" "ns-1" "p1.json" st').1 = Ok "{}" ∧
  (Get r' "persistentvolumes" "" "pv1.json" st').1 = Ok "{}" ∧
  (ListContents r' "pods" "ns-1" st').1 = Ok ["p1.json"].
Proof. by vm_compute. Qed.

(** C10, witness: a reader whose only [Extract] failed on a truncated
    archive. *)
Lemma queries_before_Extract_witness :
  let r := (Extract (NewGzipTarReader memInterface truncatedArchive) emptyDisk).1.2 in
  let st := (Extract (NewGzipTarReader memInterface truncatedArchive) emptyDisk).2 in
  notExtracted r ∧
  Get r "pods" "ns-1" "p1.json" st = (Err "archive has not been extracted", st) ∧
  Close r st = (None, st).
Proof.
  intros r st.
  assert (Hne : notExtracted r).
  { eapply (notExtracted_failed (NewGzipTarReader memInterface truncatedArchive) emptyDisk
              "error getting next tar header: unexpected EOF" r st).
    - apply notExtracted_new.
    - reflexivity. }
  split; [exact Hne|].
  destruct (queries_before_Extract r st "pods" "ns-1" "p1.json" Hne)
    as (_ & _ & _ & Hget & Hclose & _).
  split; [exact Hget|exact Hclose].
Defined.

End archive_examples.


(** * Items that are skipped before anything is done for them *)
Section skipped_items.
Import schema discovery collections unstructured labels api restore.
Context {World WatchT : Type}.
Implicit Types (X : @externals World) (ctx : @context World WatchT)
  (s : @rstate World WatchT) (obj : Unstructured) (gr : GroupResource).

(** A pod whose status phase is Succeeded or Failed, or a job whose status
    has a completion time that is a non-empty string. *)
Definition completedItem gr obj : Prop :=
  (gr = kuberesource.Pods ∧
   ∃ status, obj !! "status" = Some (VMap status) ∧
     (status !! "phase" = Some (VStr "Succeeded") ∨
      status !! "phase" = Some (VStr "Failed")))
  ∨
  (gr = kuberesource.Jobs ∧
   ∃ status ct, obj !! "status" = Some (VMap status) ∧
     status !! "completionTime" = Some (VStr ct) ∧ ct ≠ "").

Lemma NestedString_status obj status field v :
  obj !! "status" = Some (VMap status) →
  status !! field = Some (VStr v) →
  NestedString obj ["status"; field] = Ok (v, true).
Proof.
  intros Hst Hf. unfold NestedString, NestedFieldNoCopy. simpl.
  rewrite Hst. simpl. by rewrite Hf.
Qed.

Lemma isCompleted_completedItem gr obj :
  completedItem gr obj → isCompleted obj gr = Ok true.
Proof.
  unfold isCompleted.
  intros [[-> (status & Hst & Hphase)] | [-> (status & ct & Hst & Hct & Hne)]].
  - rewrite decide_True by done.
    destruct Hphase as [Hp|Hp]; rewrite (NestedString_status _ _ _ _ Hst Hp);
      rewrite decide_True; unfold PodFailed, PodSucceeded; auto.
  - rewrite decide_False by done. rewrite decide_True by done.
    rewrite (NestedString_status _ _ _ _ Hst Hct). simpl.
    apply String.eqb_neq in Hne. by rewrite Hne.
Qed.

Lemma isCompleted_other gr obj :
  gr ≠ kuberesource.Pods → gr ≠ kuberesource.Jobs → isCompleted obj gr = Ok false.
Proof. intros Hp Hj. unfold isCompleted. by rewrite !decide_False by done. Qed.

(** C5. An item that decodes to a completed pod or job leaves the state as
    it was: no call is made, so nothing is created, and no error or warning
    is recorded; the engine goes on to the next item. A resource type other
    than pods and jobs is never considered completed. *)
Theorem completed_item_skipped X ctx archiveReader resource namespace file bytes obj s :
  archive.readerGet archiveReader resource namespace file = Ok bytes →
  Unmarshal X bytes = Ok obj →
  completedItem (groupResource resource) obj →
  restoreItem X ctx archiveReader resource namespace file s = Continue s ∧
  (∀ gr o, gr ≠ kuberesource.Pods → gr ≠ kuberesource.Jobs →
           isCompleted o gr = Ok false).
Proof.
  intros Hget Hdec Hdone. split; [|intros; by apply isCompleted_other].
  unfold restoreItem, bind. rewrite Hget. simpl. rewrite Hdec. simpl.
  destruct (Matches _ _); [|done]. simpl.
  by rewrite (isCompleted_completedItem _ _ Hdone).
Qed.

End skipped_items.

(** * The label selector of the request *)
Section request_selector.
Import schema discovery collections unstructured labels api restore.

(** What a label selector of the API asks of the labels of an object, as
    the API documents it: the labels hold every pair of [matchLabels], and
    every requirement of [matchExpressions] is met, where [In] asks for
    the key with one of the values, [NotIn] for no such pair, [Exists] for
    the key and [DoesNotExist] for its absence. *)
Definition expressionMatches (e : LabelSelectorRequirement) (ls : gmap string string)
  : bool :=
  if decide (lsrOperator e = "In") then
    match ls !! lsrKey e with
    | Some v => bool_decide (v ∈ lsrValues e)
    | None => false
    end
  else if decide (lsrOperator e = "NotIn") then
    match ls !! lsrKey e with
    | Some v => bool_decide (v ∉ lsrValues e)
    | None => true
    end
  else if decide (lsrOperator e = "Exists") then bool_decide (is_Some (ls !! lsrKey e))
  else if decide (lsrOperator e = "DoesNotExist") then bool_decide (ls !! lsrKey e = None)
  else false.

Definition labelSelectorMatches (ps : LabelSelector) (ls : gmap string string) : bool :=
  bool_decide (map_Forall (λ k v, ls !! k = Some v) (MatchLabels ps))
  && forallb (λ e, expressionMatches e ls) (MatchExpressions ps).

Lemma matchLabelsRequirements_Ok kvs sel :
  matchLabelsRequirements kvs sel
  = Ok (sel ++ ((λ kv, mkRequirement kv.1 OpEquals [kv.2]) <$> kvs)).
Proof.
  revert sel. induction kvs as [|[k v] kvs IH]; intros sel; simpl.
  - by rewrite app_nil_r.
  - rewrite IH. by rewrite <-app_assoc.
Qed.

Lemma matchExpressionsRequirements_Ok exprs sel sel' ls :
  matchExpressionsRequirements exprs sel = Ok sel' →
  forallb (λ r, requirementMatches r ls) sel'
  = forallb (λ r, requirementMatches r ls) sel
    && forallb (λ e, expressionMatches e ls) exprs.
Proof.
  revert sel. induction exprs as [|e exprs IH]; intros sel; simpl.
  - intros [= <-]. by rewrite andb_true_r.
  - assert (Hstep : ∀ op,
      (∀ r, NewRequirement (lsrKey e) op (lsrValues e) = Ok r →
            requirementMatches r ls = expressionMatches e ls) →
      match NewRequirement (lsrKey e) op (lsrValues e) with
      | Err err => Err err
      | Ok r => matchExpressionsRequirements exprs (sel ++ [r])
      end = Ok sel' →
      forallb (λ r, requirementMatches r ls) sel'
      = forallb (λ r, requirementMatches r ls) sel
        && (expressionMatches e ls && forallb (λ e0, expressionMatches e0 ls) exprs)).
    { intros op Hop. destruct (NewRequirement _ _ _) as [r|] eqn:Hnew; [|done].
      intros Hrest. rewrite (IH _ Hrest), forallb_app. simpl.
      rewrite (Hop r eq_refl), andb_true_r. by rewrite andb_assoc. }
    assert (Hnew : ∀ op r, NewRequirement (lsrKey e) op (lsrValues e) = Ok r →
              r = mkRequirement (lsrKey e) op (lsrValues e)).
    { intros op r. unfold NewRequirement.
      destruct op; destruct (decide _); by intros [= <-]. }
    unfold expressionMatches in *.
    destruct (decide (lsrOperator e = "In")) as [Hin|Hin].
    { apply Hstep. intros r Hr. by rewrite (Hnew _ _ Hr). }
    destruct (decide (lsrOperator e = "NotIn")) as [Hnotin|Hnotin].
    { apply Hstep. intros r Hr. by rewrite (Hnew _ _ Hr). }
    destruct (decide (lsrOperator e = "Exists")) as [Hex|Hex].
    { apply Hstep. intros r Hr. by rewrite (Hnew _ _ Hr). }
    destruct (decide (lsrOperator e = "DoesNotExist")) as [Hnex|Hnex]; [|done].
    apply Hstep. intros r Hr. by rewrite (Hnew _ _ Hr).
Qed.

Lemma forallb_bool_decide {A} (f : A → bool) (P : A → Prop) `{!∀ x, Decision (P x)}
    (l : list A) :
  (∀ x, f x = true ↔ P x) → forallb f l = bool_decide (Forall P l).
Proof.
  intros Hf. induction l as [|x l IH]; simpl; [done|].
  rewrite IH. destruct (f x) eqn:Hx; simpl.
  - apply bool_decide_ext. rewrite Forall_cons. split; [|tauto].
    intros Hl. split; [by apply Hf|done].
  - symmetry. apply bool_decide_eq_false. rewrite Forall_cons. intros [HP _].
    apply Hf in HP. congruence.
Qed.

Lemma forallb_fmap {A B} (f : B → bool) (g : A → B) (l : list A) :
  forallb f (g <$> l) = forallb (λ x, f (g x)) l.
Proof. induction l as [|x l IH]; [done|]. rewrite fmap_cons. cbn [forallb]. by rewrite IH. Qed.

(** The selector that [metav1.LabelSelectorAsSelector] builds matches the
    labels that the label selector asks for. *)
Lemma LabelSelectorAsSelector_matches ps sel ls :
  LabelSelectorAsSelector (Some ps) = Ok sel →
  Matches sel ls = labelSelectorMatches ps ls.
Proof.
  unfold LabelSelectorAsSelector, labelSelectorMatches.
  destruct (decide (size (MatchLabels ps) + List.length (MatchExpressions ps) = 0))
    as [Hempty|_].
  - intros [= <-].
    assert (Hlabels : MatchLabels ps = ∅) by (apply map_size_empty_iff; lia).
    assert (Hexprs : MatchExpressions ps = []) by (apply nil_length_inv; lia).
    rewrite Hlabels, Hexprs. simpl. symmetry. rewrite andb_true_r.
    apply bool_decide_eq_true. apply map_Forall_empty.
  - rewrite matchLabelsRequirements_Ok.
    destruct (matchExpressionsRequirements _ _) as [sel'|] eqn:Hexprs; [|done].
    intros [= <-]. simpl. rewrite (matchExpressionsRequirements_Ok _ _ _ ls Hexprs).
    f_equal. simpl. rewrite forallb_fmap.
    rewrite (forallb_bool_decide _ (λ kv, ls !! kv.1 = Some kv.2)).
    + apply bool_decide_ext. rewrite map_Forall_to_list.
      apply Forall_proper; [|done]. by intros [k v].
    + intros [k v]. unfold requirementMatches. simpl.
      destruct (ls !! k) as [v'|]; [|done].
      rewrite bool_decide_eq_true, list_elem_of_singleton. split; congruence.
Qed.

Context {World WatchT : Type}.
Implicit Types (X : @externals World) (ctx : @context World WatchT)
  (s : @rstate World WatchT) (obj : Unstructured).

(** C6. [Restore] runs the engine with the selector that it builds from
    the label selector of the request, the empty label selector when the
    request has none. That selector matches the labels that the label
    selector asks for; for a request without label selector it is the
    selector of everything, not the one of nothing, and matches every
    item. An item whose labels the label selector of the request does not
    ask for leaves the state as it was: no call is made, so nothing is
    created, and no error is recorded. *)
Theorem selector_gates_creation {FS} X (kr : @kubernetesRestorer World WatchT)
    (fsImpl : filesystem.Interface FS) restore backup backupReader actions disk w sel :
  restoreSelector restore = Ok sel →
  let requested := default emptyLabelSelector (LabelSelectorOf restore) in
  ((∃ err, Restore X kr fsImpl restore backup backupReader actions disk w
           = (Some (emptyResult, mkResult [err] [] ∅, initialState w), disk)) ∨
   (∃ prioritized resolved resticRestorer,
      Restore X kr fsImpl restore backup backupReader actions disk w
      = execute X
          (mkContext backup restore prioritized sel (krDynamicFactory kr) resolved
             resticRestorer
             (mkPVRestorer (SnapshotVolumes backup) (RestorePVs restore)
                (VolumeBackups backup) (krBlockStore kr)))
          fsImpl backupReader disk (initialState w))) ∧
  (∀ labels, Matches sel labels = labelSelectorMatches requested labels) ∧
  (∀ ctx archiveReader resource namespace file bytes obj s,
     selector ctx = sel →
     archive.readerGet archiveReader resource namespace file = Ok bytes →
     Unmarshal X bytes = Ok obj →
     labelSelectorMatches requested (Set_ (GetLabels obj)) = false →
     restoreItem X ctx archiveReader resource namespace file s = Continue s) ∧
  (LabelSelectorOf restore = None →
   sel = Everything ∧ sel ≠ Nothing ∧ ∀ o, Matches sel (Set_ (GetLabels o)) = true).
Proof.
  intros Hsel requested.
  assert (Hmatches : ∀ labels, Matches sel labels = labelSelectorMatches requested labels).
  { intros labels. apply LabelSelectorAsSelector_matches. rewrite <-Hsel.
    unfold restoreSelector, requested. by destruct (LabelSelectorOf restore). }
  split; [|split; [exact Hmatches|split]].
  - unfold Restore. rewrite Hsel.
    destruct (prioritize.prioritizeResources _ _ _) as [prioritized|err];
      [|left; by eexists].
    destruct (resolveActions _ _ _) as [resolved|err]; [|left; by eexists].
    destruct (resticRestorerFactory kr) as [factory|].
    + destruct (factory _ _) as [r|err]; [|left; by eexists].
      right. by exists prioritized, resolved, (Some r).
    + right. by exists prioritized, resolved, None.
  - intros ctx archiveReader resource namespace file bytes obj s Hctx Hget Hdec Hno.
    unfold restoreItem, bind. rewrite Hget. simpl. rewrite Hdec. simpl.
    by rewrite Hctx, Hmatches, Hno.
  - intros Hnone. unfold restoreSelector in Hsel. rewrite Hnone in Hsel.
    simpl in Hsel. injection Hsel as <-. done.
Qed.

End request_selector.

Section skipped_items_examples.
Import schema discovery collections unstructured labels api restore.

(** The scenario of the specification: pod [p1] is running, pod [p2] has
    succeeded. *)
Definition twoPods : list item :=
  [ mkItem "pods" "ns-1" "p1.json"
      (Ok (document "Pod" "p1" "ns-1" [("status", VMap {[ "phase" := VStr "Running" ]})]));
    mkItem "pods" "ns-1" "p2.json"
      (Ok (document "Pod" "p2" "ns-1" [("status", VMap {[ "phase" := VStr "Succeeded" ]})])) ].

Definition podsContext : @context cluster string :=
  fakeContext fakeRestore (fakeBackup ∅) [kuberesource.Pods] [].

Definition restored (kind name : string) : Unstructured :=
  restoredWith kind name "ns-1" [] [].

Example restoreResource_twoPods :
  (λ s, (trace s, errs s, warnings s)) <$>
    restoreResource (fakeExternals twoPods) podsContext (fakeReader twoPods)
      "pods" "ns-1" emptyCluster
  = Some ([EvCreate (restored "Pod" "p1")], emptyResult, emptyResult).
Proof. reflexivity. Qed.

(** C5, witness: the succeeded pod of the scenario. *)
Lemma completed_item_skipped_witness :
  restoreItem (fakeExternals twoPods) podsContext (fakeReader twoPods)
    "pods" "ns-1" "p2.json" emptyCluster = Continue emptyCluster.
Proof.
  refine (proj1 (completed_item_skipped (fakeExternals twoPods) podsContext
            (fakeReader twoPods) "pods" "ns-1" "p2.json" "pods/ns-1/p2.json"
            (document "Pod" "p2" "ns-1" [("status", VMap {[ "phase" := VStr "Succeeded" ]})])
            emptyCluster _ _ _)).
  - reflexivity.
  - reflexivity.
  - left. split; [reflexivity|].
    exists {[ "phase" := VStr "Succeeded" ]}. split; [reflexivity|].
    left. reflexivity.
Defined.

(** A request that selects [app=web]. *)
Definition webOnly : Selector := Requirements [mkRequirement "app" OpEquals ["web"]].

Definition webRestore : api.Restore :=
  mkRestore "restore-1" ∅ "backup-1" [] [] [] [] ∅
    (Some (mkLabelSelector {[ "app" := "web" ]} [])) None None.

Definition webContext : @context cluster string :=
  mkContext (fakeBackup ∅) webRestore [kuberesource.Pods] webOnly fakeFactory []
    None (mkPVRestorer None None ∅ None).

Example LabelSelectorAsSelector_web :
  restoreSelector webRestore = Ok webOnly.
Proof. reflexivity. Qed.

(** An item without the label is not created. *)
Example restoreResource_unselected :
  (λ s, (trace s, errs s, warnings s)) <$>
    restoreResource (fakeExternals twoPods) webContext
      (fakeReader twoPods) "pods" "ns-1" emptyCluster
  = Some ([], emptyResult, emptyResult).
Proof. reflexivity. Qed.

(** C6, witness: the request that selects [app=web] and the first pod of
    the scenario, which has no label. *)
Lemma selector_gates_creation_witness :
  restoreItem (fakeExternals twoPods) webContext (fakeReader twoPods)
    "pods" "ns-1" "p1.json" emptyCluster
  = Continue emptyCluster.
Proof.
  destruct (selector_gates_creation (fakeExternals twoPods)
              (mkRestorer smallHelper fakeFactory None None 0 [])
              memInterface webRestore (fakeBackup ∅) goodArchive [] emptyDisk ∅
              webOnly eq_refl) as (_ & _ & Hgate & _).
  apply (Hgate webContext (fakeReader twoPods) "pods" "ns-1" "p1.json" "pods/ns-1/p1.json"
           (document "Pod" "p1" "ns-1" [("status", VMap {[ "phase" := VStr "Running" ]})])
           emptyCluster); reflexivity.
Defined.

End skipped_items_examples.


(** * Item actions *)
Section item_actions.
Import schema discovery collections unstructured labels api restore.
Context {World WatchT : Type}.
Implicit Types (ctx : @context World WatchT) (s : @rstate World WatchT)
  (obj : Unstructured) (a : resolvedAction).

(** An action that returns an updated item and neither warning nor error:
    the updated item goes on to the next actions. *)
Lemma runActions_updated ctx resource namespace file a acts obj updated s :
  Matches (actionSelector a) (Set_ (GetLabels obj)) = true →
  Execute (action a) obj (restore ctx) = (IsUnstructured updated, None, None) →
  runActions ctx resource namespace file (a :: acts) obj s
  = runActions ctx resource namespace file acts updated (logEvent (EvExecute obj) s).
Proof.
  intros Hm Hex. simpl. rewrite Hm. simpl. unfold bind at 1. simpl.
  rewrite Hex. done.
Qed.

(** An action that returns an error and no warning: the error is recorded
    against the namespace, and the loop goes on to the next action with
    the item as it was. The item is not abandoned. *)
Lemma runActions_error ctx resource namespace file a acts obj updated err s :
  Matches (actionSelector a) (Set_ (GetLabels obj)) = true →
  Execute (action a) obj (restore ctx) = (updated, None, Some err) →
  runActions ctx resource namespace file (a :: acts) obj s
  = runActions ctx resource namespace file acts obj
      (setErrs (addToResult (errs s) namespace
                  (wrap err (itemMsg "error preparing" file resource namespace)))
         (logEvent (EvExecute obj) s)).
Proof.
  intros Hm Hex. simpl. rewrite Hm. simpl. unfold bind at 1. simpl.
  rewrite Hex. done.
Qed.

(** An action that returns a warning and no error: the warning is not
    recorded; the call [addToResult(&warnings, namespace, nil)] panics. *)
Lemma runActions_warning_panics ctx resource namespace file a acts obj updated warning s :
  Matches (actionSelector a) (Set_ (GetLabels obj)) = true →
  Execute (action a) obj (restore ctx) = (updated, Some warning, None) →
  runActions ctx resource namespace file (a :: acts) obj s
  = Panic (logEvent (EvExecute obj) s).
Proof.
  intros Hm Hex. simpl. rewrite Hm. simpl. unfold bind at 1. simpl.
  rewrite Hex. done.
Qed.

(** An action that returns a warning and an error: what is recorded as the
    warning is the text of the error. *)
Lemma runActions_warning_and_error ctx resource namespace file a acts obj updated
    warning err s :
  Matches (actionSelector a) (Set_ (GetLabels obj)) = true →
  Execute (action a) obj (restore ctx) = (updated, Some warning, Some err) →
  runActions ctx resource namespace file (a :: acts) obj s
  = runActions ctx resource namespace file acts obj
      (setErrs (addToResult (errs s) namespace
                  (wrap err (itemMsg "error preparing" file resource namespace)))
         (setWarnings (addToResult (warnings s) namespace
                         (wrap err (itemMsg "warning preparing" file resource namespace)))
            (logEvent (EvExecute obj) s))).
Proof.
  intros Hm Hex. simpl. rewrite Hm. simpl. unfold bind at 1. simpl.
  rewrite Hex. done.
Qed.

End item_actions.

Section item_actions_examples.
Import schema discovery collections unstructured labels api restore.

Definition oneConfigMap : list item :=
  [ mkItem "configmaps" "ns-1" "cm1.json" (Ok (document "ConfigMap" "cm1" "ns-1" [])) ].

(** An action for every resource and namespace. *)
Definition everywhere (a : ItemAction) : resolvedAction :=
  mkResolvedAction a (mkIE (λ _, true)) (mkIE (λ _, true)) Everything.

Definition failingAction : ItemAction :=
  mkItemAction (Ok (mkResourceSelector [] [] [] [] ""))
    (λ _ _, (OtherType "<nil>", None, Some "boom")).

Definition warningAction : ItemAction :=
  mkItemAction (Ok (mkResourceSelector [] [] [] [] ""))
    (λ obj _, (IsUnstructured obj, Some "careful", None)).

Definition actionContext (a : ItemAction) : @context cluster string :=
  fakeContext fakeRestore (fakeBackup ∅) [mkGR "" "configmaps"] [everywhere a].

(** C7, failing input: one item and one action that returns a hard error.
    The error is recorded against the namespace and the item is created
    all the same. *)
Theorem action_error_item_still_created :
  (λ s, (trace s, errs s, warnings s)) <$>
    restoreResource (fakeExternals oneConfigMap) (actionContext failingAction)
      (fakeReader oneConfigMap) "configmaps" "ns-1" emptyCluster
  = Some ([EvExecute (document "ConfigMap" "cm1" "ns-1" []);
           EvCreate (restored "ConfigMap" "cm1")],
          mkResult [] []
            {[ "ns-1" := [ "error preparing item " +:+ quoted "cm1.json"
                           +:+ " for resource " +:+ quoted "configmaps"
                           +:+ " in namespace " +:+ quoted "ns-1" +:+ ": boom" ] ]},
          emptyResult).
Proof. reflexivity. Qed.

(** One item and one action that returns a warning and no error: the
    engine panics. *)
Example action_warning_panics :
  restoreResource (fakeExternals oneConfigMap) (actionContext warningAction)
    (fakeReader oneConfigMap) "configmaps" "ns-1" emptyCluster = None.
Proof. reflexivity. Qed.

End item_actions_examples.


(** * Items that exist already *)
Section already_exists.
Import schema discovery collections unstructured labels api restore.
Context {World WatchT : Type}.
Implicit Types (X : @externals World) (ctx : @context World WatchT)
  (s : @rstate World WatchT) (obj live cmp desired : Unstructured)
  (client : @Dynamic World WatchT).

(** ** The union of two reference lists *)

Lemma mergeReferences_prefix (first second : list value) :
  ∃ added, mergeReferences first second = first ++ added ∧
           ∀ v, v ∈ added → v ∈ second ∧ v ∉ first.
Proof.
  unfold mergeReferences. revert first.
  induction second as [|x second IH]; intros first; simpl.
  - exists []. rewrite app_nil_r. split; [done|]. intros v Hv. inversion Hv.
  - destruct (decide (x ∈ first)) as [Hin|Hout].
    + destruct (IH first) as (added & -> & Hadded). exists added. split; [done|].
      intros v Hv. destruct (Hadded v Hv). split; [by right|done].
    + destruct (IH (first ++ [x])) as (added & -> & Hadded).
      exists (x :: added). split; [by rewrite <-app_assoc|].
      intros v Hv. apply elem_of_cons in Hv as [->|Hv]; [split; [by left|done]|].
      destruct (Hadded v Hv) as [? Hn]. split; [by right|].
      intros ?. apply Hn. apply elem_of_app. by left.
Qed.

Lemma mergeReferences_elem_of (first second : list value) v :
  v ∈ mergeReferences first second ↔ v ∈ first ∨ v ∈ second.
Proof.
  unfold mergeReferences. revert first.
  induction second as [|x second IH]; intros first; simpl.
  - split; [by left|]. intros [?|Hv]; [done|inversion Hv].
  - rewrite IH. destruct (decide (x ∈ first)) as [Hin|Hout].
    + rewrite elem_of_cons. split; [tauto|]. intros [?|[->|?]]; tauto.
    + rewrite elem_of_app, list_elem_of_singleton, elem_of_cons. tauto.
Qed.

Lemma mergeReferences_NoDup (first second : list value) :
  NoDup first → NoDup (mergeReferences first second).
Proof.
  unfold mergeReferences. revert first.
  induction second as [|x second IH]; intros first Hnd; simpl; [done|].
  apply IH. destruct (decide (x ∈ first)); [done|].
  apply NoDup_app. split; [done|]. split; [|apply NoDup_singleton].
  intros y Hy Hx. apply list_elem_of_singleton in Hx as ->. done.
Qed.

(** What [mergeServiceAccounts] answers: the live object, whose secrets and
    image pull secrets are the union of the live and the backed-up ones. *)
Lemma mergeServiceAccounts_Ok live obj desired :
  mergeServiceAccounts live obj = Ok desired →
  ∃ ls bs lp bp,
    listField live "secrets" = Ok ls ∧ listField obj "secrets" = Ok bs ∧
    listField live "imagePullSecrets" = Ok lp ∧
    listField obj "imagePullSecrets" = Ok bp ∧
    listField desired "secrets" = Ok (mergeReferences ls bs) ∧
    listField desired "imagePullSecrets" = Ok (mergeReferences lp bp) ∧
    ∀ k, k ≠ "secrets" → k ≠ "imagePullSecrets" → desired !! k = live !! k.
Proof.
  unfold mergeServiceAccounts.
  destruct (listField live "secrets") as [ls|] eqn:Hls;
    destruct (listField obj "secrets") as [bs|] eqn:Hbs;
    destruct (listField live "imagePullSecrets") as [lp|] eqn:Hlp;
    destruct (listField obj "imagePullSecrets") as [bp|] eqn:Hbp; try done.
  intros H. injection H as <-. exists ls, bs, lp, bp. repeat (split; [done|]).
  assert (Hempty : ∀ (l b : list value), mergeReferences l b = [] → l = []).
  { intros l b Hm. destruct (mergeReferences_prefix l b) as (added & Heq & _).
    rewrite Hm in Heq. symmetry in Heq. by apply app_eq_nil in Heq as [-> _]. }
  split; [|split].
  - destruct (decide (mergeReferences lp bp = [])); destruct (decide (mergeReferences ls bs = []))
      as [Hs|Hs]; unfold listField in *;
      rewrite ?lookup_insert_ne by done; rewrite ?lookup_insert_eq; try done;
      rewrite Hs; rewrite (Hempty _ _ Hs) in Hls; done.
  - destruct (decide (mergeReferences lp bp = [])) as [Hp|Hp];
      destruct (decide (mergeReferences ls bs = [])); unfold listField in *;
      rewrite ?lookup_insert_eq; rewrite ?lookup_insert_ne by done; try done;
      rewrite Hp; rewrite (Hempty _ _ Hp) in Hlp; done.
  - intros k Hk1 Hk2.
    destruct (decide (mergeReferences lp bp = [])); destruct (decide (mergeReferences ls bs = []));
      by rewrite ?lookup_insert_ne by done.
Qed.

(** ** The comparison *)

(** The live object as it is compared with the item: stripped like the
    item, with the identification labels of the item copied onto it. *)
Definition comparable live obj : result Unstructured :=
  match resetMetadataAndStatus live with
  | Err err => Err err
  | Ok stripped =>
      Ok (addRestoreLabels stripped (at_key (GetLabels obj) RestoreNameLabel)
            (at_key (GetLabels obj) BackupNameLabel))
  end.

(** The state after the live object has been fetched. *)
Definition fetched name s : rstate := logEvent (EvGet name) s.

(** The state after the warning [e] has been recorded as well. *)
Definition warned namespace (e : error) s : rstate :=
  setWarnings (addToResult (warnings s) namespace e) s.

Lemma resolveAlreadyExists_compared X resource namespace client name obj restoreErr s live cmp :
  Get client name (world s) = Ok live →
  comparable live obj = Ok cmp →
  resolveAlreadyExists X resource namespace client name obj restoreErr s =
  (if decide (cmp = obj) then continue else
   if decide (groupResource resource = kuberesource.ServiceAccounts) then
     bind (orContinue (mergeServiceAccounts cmp obj) (λ err, addToWarnings namespace err))
       (λ desired,
          bind (orContinue (generatePatch (CreateMergePatch X) cmp desired)
                  (λ err, addToWarnings namespace err))
            (λ patchBytes,
               match patchBytes with
               | None => continue
               | Some patchBytes =>
                   bind (call (EvPatch name patchBytes) (Patch client name patchBytes))
                     (λ err, match err with
                             | Some err => bind (addToWarnings namespace err) (λ _, continue)
                             | None => continue
                             end)
               end))
   else
     bind (addToWarnings namespace
             ("not restored: " +:+ Error restoreErr
              +:+ " and is different from backed up version."))
       (λ _, continue)) (fetched name s).
Proof.
  intros Hget Hcmp. unfold comparable in Hcmp.
  destruct (resetMetadataAndStatus live) as [stripped|] eqn:Hreset; [|done].
  injection Hcmp as <-.
  unfold resolveAlreadyExists. unfold bind at 1. unfold call. rewrite Hget.
  unfold bind at 1. simpl. unfold bind at 1. rewrite Hreset. simpl.
  unfold fetched, logEvent. simpl. done.
Qed.

(** C1 (amended). When the creation of an item fails with "already
    exists", the live object is fetched, stripped like the item, given the
    identification labels of the item and compared with it.
    - Identical: nothing further happens; no warning, no error, no call
      that changes the cluster.
    - Different, and the resource type is not service accounts: the
      warning "not restored ... different from backed up version" is
      recorded and no call that changes the cluster is made.
    - Different, and the resource type is service accounts: the live
      object is merged with the item, its secrets and image pull secrets
      becoming the de-duplicated union of the live and the backed-up ones,
      live entries first. When the merged object is the live object, no
      patch is applied and nothing is recorded. Otherwise the merge patch
      from the live to the merged object is applied to the item's name; a
      failure of the patch is recorded as a warning.
    In every case the item is left and the engine goes on with the next
    one. *)
Theorem already_exists_resolution X resource namespace client name obj restoreErr s live cmp :
  Get client name (world s) = Ok live →
  comparable live obj = Ok cmp →
  let resolve := resolveAlreadyExists X resource namespace client name obj restoreErr s in
  (cmp = obj → resolve = Continue (fetched name s)) ∧
  (cmp ≠ obj → groupResource resource ≠ kuberesource.ServiceAccounts →
   resolve = Continue
     (warned namespace
        ("not restored: " +:+ Error restoreErr
         +:+ " and is different from backed up version.") (fetched name s))) ∧
  (cmp ≠ obj → groupResource resource = kuberesource.ServiceAccounts →
   ∀ desired, mergeServiceAccounts cmp obj = Ok desired →
   (∃ ls bs lp bp,
      listField cmp "secrets" = Ok ls ∧ listField obj "secrets" = Ok bs ∧
      listField cmp "imagePullSecrets" = Ok lp ∧
      listField obj "imagePullSecrets" = Ok bp ∧
      listField desired "secrets" = Ok (mergeReferences ls bs) ∧
      listField desired "imagePullSecrets" = Ok (mergeReferences lp bp)) ∧
   (desired = cmp → resolve = Continue (fetched name s)) ∧
   (desired ≠ cmp →
    ∀ patchBytes, CreateMergePatch X cmp desired = Ok patchBytes →
    let patched :=
      setWorld (Patch client name patchBytes (world s)).2 (EvPatch name patchBytes)
        (fetched name s) in
    resolve = Continue
      match (Patch client name patchBytes (world s)).1 with
      | Some err => warned namespace err patched
      | None => patched
      end)).
Proof.
  intros Hget Hcmp resolve. subst resolve.
  rewrite (resolveAlreadyExists_compared _ _ _ _ _ _ _ _ _ _ Hget Hcmp).
  split; [|split].
  - intros Heq. by rewrite (decide_True (P := cmp = obj)).
  - intros Hne Hsa. rewrite (decide_False (P := cmp = obj)) by done.
    by destruct (decide (groupResource resource = kuberesource.ServiceAccounts)).
  - intros Hne Hsa desired Hmerge. rewrite (decide_False (P := cmp = obj)) by done.
    destruct (decide (groupResource resource = kuberesource.ServiceAccounts)); [|done].
    split.
    { destruct (mergeServiceAccounts_Ok _ _ _ Hmerge)
        as (ls & bs & lp & bp & ? & ? & ? & ? & ? & ? & _).
      by exists ls, bs, lp, bp. }
    rewrite Hmerge, bind_orContinue_Ok. unfold generatePatch. split.
    + intros ->. by rewrite (decide_True (P := cmp = cmp)).
    + intros Hd patchBytes Hpatch.
      destruct (decide (cmp = desired)) as [Heq|_]; [by rewrite Heq in Hd|].
      rewrite Hpatch, bind_orContinue_Ok, bind_call.
      destruct (Patch client name patchBytes (world (fetched name s))) as [[err|] w'] eqn:Hp;
        simpl in Hp; rewrite Hp; done.
Qed.

(** ** No error on this path *)

Lemma preserves_addToWarnings (R : relation (@rstate World WatchT)) namespace e :
  (∀ s w, R s (setWarnings w s)) → preserves R (addToWarnings namespace e).
Proof. intros H. apply preserves_modify. intros s. apply H. Qed.

(** Whatever the live object and the outcome of the merge and of the
    patch, the handling of an item whose creation fails with "already
    exists" leaves the error lists as they are: what it records, it
    records as warnings. *)
Lemma already_exists_records_no_error X resource namespace client name obj restoreErr s :
  errs (stateOf (resolveAlreadyExists X resource namespace client name obj restoreErr s))
  = errs s.
Proof.
  revert s. change (preserves sameErrs
    (resolveAlreadyExists X resource namespace client name obj restoreErr)).
  assert (Hwarn : ∀ e, preserves sameErrs (@addToWarnings World WatchT namespace e))
    by (intros e; apply preserves_addToWarnings; intros; unfold sameErrs; done).
  assert (Hcall : ∀ A (ev : @event WatchT) (f : World → A * World),
            preserves sameErrs (call ev f))
    by (intros; apply preserves_call; intros; unfold sameErrs; done).
  unfold resolveAlreadyExists.
  apply preserves_bind; [apply _|apply Hcall|intros fromCluster].
  apply preserves_bind; [apply _|apply preserves_orContinue; [apply _|intros; apply Hwarn]|intros fc].
  apply preserves_bind; [apply _|apply preserves_orContinue; [apply _|intros; apply Hwarn]|intros stripped].
  destruct (decide _); [apply preserves_continue, _|].
  destruct (decide _).
  - apply preserves_bind; [apply _|apply preserves_orContinue; [apply _|intros; apply Hwarn]|intros desired].
    apply preserves_bind; [apply _|apply preserves_orContinue; [apply _|intros; apply Hwarn]|intros [patchBytes|]];
      [|apply preserves_continue, _].
    apply preserves_bind; [apply _|apply Hcall|intros [err|]];
      [|apply preserves_continue, _].
    apply preserves_bind; [apply _|apply Hwarn|intros _]. apply preserves_continue, _.
  - apply preserves_bind; [apply _|apply Hwarn|intros _]. apply preserves_continue, _.
Qed.

End already_exists.

Section already_exists_examples.
Import schema discovery collections unstructured labels api restore.

Definition secretRef (name : string) : value := VMap {[ "name" := VStr name ]}.

(** A service account [sa1] of namespace [ns-1] with the given
    annotations and secrets. *)
Definition serviceAccount (annotations : list (string * string)) (secrets : list string)
  : Unstructured :=
  list_to_map
    [("apiVersion", VStr "v1"); ("kind", VStr "ServiceAccount");
     ("metadata", VMap (list_to_map
        ([("name", VStr "sa1"); ("namespace", VStr "ns-1"); ("uid", VStr "0a1b")]
         ++ (if decide (annotations = []) then []
             else [("annotations",
                    VMap (list_to_map (prod_map id VStr <$> annotations)))]))));
     ("secrets", VList (secretRef <$> secrets))].

Definition restoredServiceAccount (annotations : list (string * string))
    (secrets : list string) : Unstructured :=
  restoredWith "ServiceAccount" "sa1" "ns-1" annotations
    [("secrets", VList (secretRef <$> secrets))].

Definition backedUpAccount (secrets : list string) : list item :=
  [ mkItem "serviceaccounts" "ns-1" "sa1.json" (Ok (serviceAccount [] secrets)) ].

Definition accountsContext : @context cluster string :=
  fakeContext fakeRestore (fakeBackup ∅) [kuberesource.ServiceAccounts] [].

(** The cluster holds the service account already. *)
Definition liveAccount (annotations : list (string * string)) (secrets : list string)
  : @rstate cluster string :=
  initialState {[ "serviceaccounts/ns-1/sa1" := serviceAccount annotations secrets ]}.

(** C1, counterexample: the live service account carries an annotation
    that the backed-up one does not have, and the same secret. The two
    differ, the resource type is service accounts, and yet no patch is
    applied and no warning is recorded: the union of the secrets adds
    nothing to the live object. *)
Lemma serviceaccount_difference_without_patch :
  comparable (serviceAccount [("note", "live")] ["token-1"])
    (restoredServiceAccount [] ["token-1"])
  = Ok (restoredServiceAccount [("note", "live")] ["token-1"]) ∧
  restoredServiceAccount [("note", "live")] ["token-1"]
  ≠ restoredServiceAccount [] ["token-1"] ∧
  (λ s, (trace s, warnings s, errs s)) <$>
    restoreResource (fakeExternals (backedUpAccount ["token-1"])) accountsContext
      (fakeReader (backedUpAccount ["token-1"])) "serviceaccounts" "ns-1"
      (liveAccount [("note", "live")] ["token-1"])
  = Some ([EvCreate (restoredServiceAccount [] ["token-1"]); EvGet "sa1"],
          emptyResult, emptyResult).
Proof.
  split; [reflexivity|]. split; [apply computed_ne; reflexivity|reflexivity].
Qed.

(** The backed-up service account has a secret that the live one lacks:
    the patch is applied. *)
Example serviceaccount_patched :
  (λ s, (trace s, warnings s, errs s)) <$>
    restoreResource (fakeExternals (backedUpAccount ["token-1"; "token-2"])) accountsContext
      (fakeReader (backedUpAccount ["token-1"; "token-2"])) "serviceaccounts" "ns-1"
      (liveAccount [] ["token-1"])
  = Some ([EvCreate (restoredServiceAccount [] ["token-1"; "token-2"]); EvGet "sa1";
           EvPatch "sa1" "merge-patch"],
          emptyResult, emptyResult).
Proof. reflexivity. Qed.

Example mergeServiceAccounts_union :
  mergeServiceAccounts (restoredServiceAccount [] ["live-1"; "both"])
    (restoredServiceAccount [] ["both"; "backup-1"; "backup-1"])
  = Ok (restoredServiceAccount [] ["live-1"; "both"; "backup-1"]).
Proof. reflexivity. Qed.

(** A config map whose data differs from the live one: a warning and no
    change. *)
Definition configMap (v : string) : Unstructured :=
  document "ConfigMap" "cm1" "ns-1" [("data", VMap {[ "key" := VStr v ]})].

Definition restoredConfigMap (v : string) : Unstructured :=
  restoredWith "ConfigMap" "cm1" "ns-1" [] [("data", VMap {[ "key" := VStr v ]})].

Definition liveConfigMap (v : string) : @rstate cluster string :=
  initialState {[ "configmaps/ns-1/cm1" := configMap v ]}.

(** C1, witness: the live config map differs from the backed-up one. *)
Lemma already_exists_resolution_witness :
  resolveAlreadyExists (fakeExternals []) "configmaps" "ns-1"
    (fakeClient "configmaps" "ns-1") "cm1" (restoredConfigMap "backup")
    (mkApiError true "configmaps/ns-1/cm1 already exists") (liveConfigMap "live")
  = Continue
      (warned "ns-1"
         ("not restored: configmaps/ns-1/cm1 already exists"
          +:+ " and is different from backed up version.")
         (fetched "cm1" (liveConfigMap "live"))).
Proof.
  refine (proj1 (proj2 (already_exists_resolution (fakeExternals []) "configmaps" "ns-1"
    (fakeClient "configmaps" "ns-1") "cm1" (restoredConfigMap "backup")
    (mkApiError true "configmaps/ns-1/cm1 already exists") (liveConfigMap "live")
    (configMap "live") (restoredConfigMap "live") _ _)) _ _).
  - reflexivity.
  - reflexivity.
  - apply computed_ne. reflexivity.
  - apply computed_ne. reflexivity.
Defined.

(** ** Restoring twice *)

Definition snapshot1 : VolumeBackupInfo := mkVolumeBackupInfo "snap-1" "gp2" "us-east-1a" None.

Definition volumeAndConfigMap : list item :=
  [ mkItem "persistentvolumes" "" "pv1.json"
      (Ok (document "PersistentVolume" "pv1" ""
             [("spec", VMap {[ "persistentVolumeReclaimPolicy" := VStr "Retain" ]})]));
    mkItem "configmaps" "ns-1" "cm1.json" (Ok (configMap "backup")) ].

(** The backup has a snapshot of [pv1]; the restorer has no block store. *)
Definition twiceContext : @context cluster string :=
  fakeContext fakeRestore (fakeBackup {[ "pv1" := snapshot1 ]})
    [kuberesource.PersistentVolumes; mkGR "" "configmaps"] [].

Definition pass (w : cluster) :=
  restoreFromArchive (fakeExternals volumeAndConfigMap) twiceContext
    (fakeReader volumeAndConfigMap) (initialState w).

Definition noBlockStoreError : string :=
  "error executing PVAction for item " +:+ quoted "pv1.json" +:+ " for resource "
  +:+ quoted "persistentvolumes" +:+ " in namespace " +:+ quoted ""
  +:+ ": you must configure a persistentVolumeProvider to restore "
  +:+ "PersistentVolumes from snapshots".

(** An archive with a volume that has a snapshot, restored by a restorer
    without block store. The first pass creates the config map and records
    an error for the volume; the second pass, into the cluster that the
    first one left, finds the config map unchanged and records the same
    error again, and no other. *)
Example second_pass_repeats_errors :
  (λ '(w, e, s), (w, e, trace s, world s)) <$> pass ∅
  = Some (emptyResult, mkResult [] [noBlockStoreError] ∅,
          [EvExecutePVAction
             (document "PersistentVolume" "pv1" ""
                [("spec", VMap {[ "persistentVolumeReclaimPolicy" := VStr "Retain" ]})]);
           EvEnsureNamespaceExists (mkNamespace "ns-1" None None VNull);
           EvCreate (restoredConfigMap "backup")],
          {[ "configmaps/ns-1/cm1" := restoredConfigMap "backup" ]}) ∧
  (λ '(w, e, s), (w, e)) <$> pass {[ "configmaps/ns-1/cm1" := restoredConfigMap "backup" ]}
  = Some (emptyResult, mkResult [] [noBlockStoreError] ∅) ∧
  mkResult [] [noBlockStoreError] ∅ ≠ emptyResult.
Proof. split; [reflexivity|]. split; [reflexivity|done]. Qed.

End already_exists_examples.


(** * Persistent volumes *)
Section persistent_volumes.
Import schema discovery collections unstructured labels api restore.
Context {World WatchT : Type}.
Implicit Types (X : @externals World) (ctx : @context World WatchT)
  (s : @rstate World WatchT) (obj : Unstructured)
  (client : @Dynamic World WatchT) (r : @pvRestorer World).

(** The steps of [restoreItem] that every item goes through once the
    steps particular to its resource type are done: the actions, the
    reduction of the metadata, the namespace, the labels, the creation. *)
Definition finishItem X ctx resource namespace client (file name : string) obj
  : M unit :=
  bind (runActions ctx resource namespace file (applicableActions ctx resource namespace) obj)
    (λ obj,
       bind (orContinue (resetMetadataAndStatus obj) (λ err, addToErrs namespace err))
         (λ obj,
            createItem X ctx resource namespace client file name
              (addRestoreLabels
                 (if decide (namespace ≠ "") then SetNamespace obj namespace else obj)
                 (restoreName (restore ctx)) (BackupName (restore ctx))))).

(** An item of the resource type [persistentvolumes] that is read,
    decoded and selected, and for which there is a client: what remains is
    the step for persistent volumes and the common steps. *)
Lemma restoreItem_persistentVolume X ctx archiveReader resource namespace file
    bytes obj client s s' :
  groupResource resource = kuberesource.PersistentVolumes →
  archive.readerGet archiveReader resource namespace file = Ok bytes →
  Unmarshal X bytes = Ok obj →
  Matches (selector ctx) (Set_ (GetLabels obj)) = true →
  getResourceClient ctx resource namespace obj s = Val client s' →
  restoreItem X ctx archiveReader resource namespace file s
  = bind (restorePersistentVolume ctx resource namespace client file (GetName obj) obj)
      (finishItem X ctx resource namespace client file (GetName obj)) s'.
Proof.
  intros Hgr Hget Hdec Hsel Hclient. unfold restoreItem.
  rewrite Hget, bind_orContinue_Ok, Hdec, bind_orContinue_Ok, Hsel.
  simpl negb. rewrite bind_when_false.
  rewrite (isCompleted_other _ obj) by (rewrite Hgr; discriminate).
  rewrite bind_orContinue_Ok, bind_when_false.
  unfold bind at 1. rewrite Hclient.
  rewrite Hgr. simpl bool_decide. simpl andb. rewrite bind_when_false.
  rewrite decide_True by done.
  unfold bind at 1. unfold finishItem. unfold bind at 4.
  destruct (restorePersistentVolume ctx resource namespace client file (GetName obj) obj s');
    [|reflexivity..].
  rewrite (decide_False
    (P := kuberesource.PersistentVolumes = kuberesource.PersistentVolumeClaims))
    by discriminate.
  by rewrite bind_ret.
Qed.

(** The item without the fields that [executePVAction] deletes. *)
Definition withoutClaim obj (spec : gmap string value) : Unstructured :=
  <["spec" := VMap (delete "storageClassName" (delete "claimRef" spec))]> obj.

(** A volume without snapshot record: the item comes back with its claim
    reference and storage class name deleted and nothing else changed; no
    call is made on the block store. *)
Lemma executePVAction_no_snapshot r obj spec s :
  GetName obj ≠ "" →
  accessors.GetMap obj ["spec"] = Ok spec →
  volumeBackups r !! GetName obj = None →
  executePVAction r obj s = Val (Ok (withoutClaim obj spec)) s.
Proof.
  intros Hname Hspec Hnone. unfold executePVAction.
  rewrite decide_False by done. rewrite Hspec, Hnone.
  by destruct (IsSetToFalse (snapshotVolumes r)), (IsSetToFalse (restorePVs r)).
Qed.

(** Whether the item goes to the provisioning set: no snapshot record and
    the reclaim policy Delete. *)
Definition leftToProvisioning ctx obj : bool :=
  match accessors.GetString obj ["spec"; "persistentVolumeReclaimPolicy"] with
  | Ok reclaimPolicy =>
      negb (bool_decide (is_Some (VolumeBackups (backup ctx) !! GetName obj)))
      && String.eqb reclaimPolicy "Delete"
  | Err _ => false
  end.

Lemma restorePersistentVolume_provision ctx resource namespace client file obj s :
  leftToProvisioning ctx obj = true →
  restorePersistentVolume ctx resource namespace client file (GetName obj) obj s
  = Continue (insertProvision (GetName obj) s).
Proof.
  unfold leftToProvisioning, restorePersistentVolume. intros Hp.
  destruct (accessors.GetString obj _); [|done]. by rewrite Hp.
Qed.

Lemma restorePersistentVolume_action ctx resource namespace client file obj s :
  leftToProvisioning ctx obj = false →
  restorePersistentVolume ctx resource namespace client file (GetName obj) obj s
  = bind (executePVAction (pvRestorerOf ctx) obj)
      (λ res, bind (orContinue res (λ err,
                    addToErrs namespace
                      (wrap err (itemMsg "error executing PVAction for"
                                   file resource namespace))))
              (λ updated, bind (gets resourceWatch)
                 (λ rw, match rw with
                        | Some _ => ret updated
                        | None =>
                            bind (call EvWatch (Watch client))
                              (λ w, match w with
                                    | Err err =>
                                        bind (addToErrs namespace
                                          ("error watching for namespace "
                                           +:+ quoted namespace +:+ ", resource "
                                           +:+ quoted (GroupResource_String
                                                         (groupResource resource))
                                           +:+ ": " +:+ err))
                                          (λ _, return_)
                                    | Ok w =>
                                        bind (modify (startWatch w (GetName obj)))
                                          (λ _, ret updated)
                                    end)
                        end)))
      (logEvent (EvExecutePVAction obj) s).
Proof.
  unfold leftToProvisioning, restorePersistentVolume. intros Hp.
  destruct (accessors.GetString obj _); [rewrite Hp|]; cbv beta iota zeta;
    rewrite bind_modify; reflexivity.
Qed.

(** ** Left to provisioning *)

Lemma restoreItem_provisioned X ctx archiveReader resource namespace file
    bytes obj client s s' :
  groupResource resource = kuberesource.PersistentVolumes →
  archive.readerGet archiveReader resource namespace file = Ok bytes →
  Unmarshal X bytes = Ok obj →
  Matches (selector ctx) (Set_ (GetLabels obj)) = true →
  getResourceClient ctx resource namespace obj s = Val client s' →
  leftToProvisioning ctx obj = true →
  restoreItem X ctx archiveReader resource namespace file s
  = Continue (insertProvision (GetName obj) s').
Proof.
  intros Hgr Hget Hdec Hsel Hclient Hprov.
  rewrite (restoreItem_persistentVolume _ _ _ _ _ _ _ _ _ _ _ Hgr Hget Hdec Hsel Hclient).
  unfold bind. by rewrite restorePersistentVolume_provision.
Qed.

(** ** Restored without snapshot *)

(** The state after the step for persistent volumes on a volume that is
    not left to provisioning and whose action succeeds: the call of the
    action is recorded; when no watch is open yet, one is opened and the
    goroutine that waits for this volume is started. *)
Definition watching client (name : string) (sa : @rstate World WatchT)
  : @flow World WatchT unit :=
  match resourceWatch sa with
  | Some _ => Val tt sa
  | None =>
      match Watch client (world sa) with
      | (Ok w, world') => Val tt (startWatch w name (setWorld world' EvWatch sa))
      | (Err err, world') => Return (setWorld world' EvWatch sa)
      end
  end.

Lemma restorePersistentVolume_executed ctx resource namespace client file obj updated s sa :
  leftToProvisioning ctx obj = false →
  executePVAction (pvRestorerOf ctx) obj (logEvent (EvExecutePVAction obj) s)
  = Val (Ok updated) sa →
  restorePersistentVolume ctx resource namespace client file (GetName obj) obj s
  = match watching client (GetName obj) sa with
    | Val _ sw => Val updated sw
    | Return sw =>
        Return (setErrs (addToResult (errs sw) namespace
                  ("error watching for namespace " +:+ quoted namespace +:+ ", resource "
                   +:+ quoted (GroupResource_String (groupResource resource)) +:+ ": "
                   +:+ match (Watch client (world sa)).1 with
                       | Err err => err
                       | Ok _ => ""
                       end)) sw)
    | Continue sw => Continue sw
    | Panic sw => Panic sw
    end.
Proof.
  intros Hprov Hexec. rewrite restorePersistentVolume_action by done.
  unfold bind at 1. rewrite Hexec. rewrite bind_orContinue_Ok, bind_gets.
  unfold watching. destruct (resourceWatch sa); [done|].
  rewrite bind_call. destruct (Watch client (world sa)) as [[w|err] world']; done.
Qed.

Lemma finishItem_no_actions X ctx resource namespace client file name obj reset s :
  applicableActions ctx resource namespace = [] →
  resetMetadataAndStatus obj = Ok reset →
  finishItem X ctx resource namespace client file name obj s
  = createItem X ctx resource namespace client file name
      (addRestoreLabels
         (if decide (namespace ≠ "") then SetNamespace reset namespace else reset)
         (restoreName (restore ctx)) (BackupName (restore ctx))) s.
Proof.
  intros Hno Hreset. unfold finishItem. rewrite Hno. simpl runActions.
  by rewrite bind_ret, Hreset, bind_orContinue_Ok.
Qed.

Lemma setNestedField2_metadata_other obj v field k :
  k ≠ "metadata" → setNestedField2 obj v "metadata" field !! k = obj !! k.
Proof.
  intros Hk. unfold setNestedField2.
  destruct (obj !! "metadata") as [[| | | | |m]|]; by rewrite ?lookup_insert_ne.
Qed.

(** The fields of the created object other than the metadata and the
    status are those of the item. *)
Lemma created_fields obj reset namespace restoreName backupName k :
  resetMetadataAndStatus obj = Ok reset →
  k ≠ "metadata" → k ≠ "status" →
  addRestoreLabels
    (if decide (namespace ≠ "") then SetNamespace reset namespace else reset)
    restoreName backupName !! k = obj !! k.
Proof.
  unfold resetMetadataAndStatus. destruct (accessors.GetMap obj _); [|done].
  intros H Hk1 Hk2. injection H as <-.
  unfold addRestoreLabels, SetLabels. rewrite setNestedField2_metadata_other by done.
  destruct (decide (namespace ≠ "")).
  - unfold SetNamespace. rewrite decide_False by done.
    rewrite setNestedField2_metadata_other by done.
    by rewrite lookup_delete_ne, lookup_insert_ne.
  - by rewrite lookup_delete_ne, lookup_insert_ne.
Qed.

(** ** Either left to provisioning or handed to the restorer *)

Definition notPVAction (ev : @event WatchT) : Prop :=
  match ev with EvExecutePVAction _ => False | _ => True end.

(** The events of an item that is handed to the volume restorer: the call
    of the restorer on this very item, and events of other kinds. *)
Definition actionOn obj (ev : @event WatchT) : Prop :=
  ev = EvExecutePVAction obj ∨ notPVAction ev.

Lemma finishItem_quiet Q X ctx resource namespace client file name obj :
  (∀ ev, notPVAction ev → Q ev) →
  preserves (quiet Q) (finishItem X ctx resource namespace client file name obj).
Proof.
  intros HQ. unfold finishItem.
  preserves_step quiet_leaf; [apply runActions_quiet; intros; by apply HQ|].
  preserves_step quiet_leaf; [preserves_auto quiet_leaf|].
  apply createItem_quiet; intros; by apply HQ.
Qed.

Lemma restorePersistentVolume_quiet ctx resource namespace client file obj :
  leftToProvisioning ctx obj = false →
  preserves (quiet (actionOn obj))
    (restorePersistentVolume ctx resource namespace client file (GetName obj) obj).
Proof.
  intros Hprov s. rewrite restorePersistentVolume_action by done.
  assert (HQ : ∀ ev : @event WatchT, notPVAction ev → actionOn obj ev)
    by (intros; by right).
  transitivity (logEvent (EvExecutePVAction obj) s).
  { split; [done|]. eapply appends_one; [done|by left]. }
  generalize (logEvent (EvExecutePVAction obj) s). clear s.
  match goal with |- ∀ s0, quiet _ s0 (stateOf (?m s0)) =>
    change (preserves (quiet (actionOn obj)) m) end.
  preserves_step quiet_leaf; [apply executePVAction_quiet; intros; by apply HQ|].
  preserves_auto ltac:(split; [reflexivity
    |first [apply appends_same; reflexivity
           |eapply appends_one; [reflexivity|by apply HQ]]]).
Qed.

(** The name of the item in a file, when the file is read and decoded. *)
Definition itemName X (archiveReader : archive.Reader) (resource namespace file : string)
  : option string :=
  match archive.readerGet archiveReader resource namespace file with
  | Ok bytes =>
      match Unmarshal X bytes with
      | Ok obj => Some (GetName obj)
      | Err _ => None
      end
  | Err _ => None
  end.

(** What one item, or a run of items, does to the provisioning set and to
    the record of calls: the names in [P] are added to the set, and every
    call of the volume restorer is on an item whose name is in [A]. *)
Definition splits (P A : gset string) (s s' : @rstate World WatchT) : Prop :=
  pvsToProvision s' = P ∪ pvsToProvision s ∧
  ∃ evs, trace s' = trace s ++ evs ∧
         ∀ o, EvExecutePVAction o ∈ evs → GetName o ∈ A.

Lemma quiet_splits s s' : quiet notPVAction s s' → splits ∅ ∅ s s'.
Proof.
  intros [HP (evs & Ht & HQ)]. split; [set_solver|]. exists evs. split; [done|].
  intros o Ho. rewrite Forall_forall in HQ. destruct (HQ _ Ho).
Qed.

Lemma quiet_actionOn_splits obj s s' :
  quiet (actionOn obj) s s' → splits ∅ {[GetName obj]} s s'.
Proof.
  intros [HP (evs & Ht & HQ)]. split; [set_solver|]. exists evs. split; [done|].
  intros o Ho. rewrite Forall_forall in HQ.
  destruct (HQ _ Ho) as [Heq|[]]. injection Heq as ->. set_solver.
Qed.

Lemma splits_trans P1 A1 P2 A2 s1 s2 s3 :
  splits P1 A1 s1 s2 → splits P2 A2 s2 s3 → splits (P1 ∪ P2) (A1 ∪ A2) s1 s3.
Proof.
  intros [HP1 (e1 & Ht1 & HA1)] [HP2 (e2 & Ht2 & HA2)]. split.
  - rewrite HP2, HP1. set_solver.
  - exists (e1 ++ e2). rewrite Ht2, Ht1, app_assoc. split; [done|].
    intros o Ho. apply elem_of_app in Ho as [Ho|Ho]; set_solver.
Qed.

Lemma restoreItem_splits X ctx archiveReader resource namespace file s :
  groupResource resource = kuberesource.PersistentVolumes →
  ∃ P A, splits P A s (stateOf (restoreItem X ctx archiveReader resource namespace file s))
         ∧ P ## A
         ∧ ∀ n, n ∈ P ∪ A → itemName X archiveReader resource namespace file = Some n.
Proof.
  intros Hgr. unfold itemName.
  assert (Hskip : ∀ s', quiet notPVAction s s' →
            ∃ P A, splits P A s s' ∧ P ## A ∧
                   ∀ n, n ∈ P ∪ A →
                        match archive.readerGet archiveReader resource namespace file with
                        | Ok bytes => match Unmarshal X bytes with
                                      | Ok obj => Some (GetName obj)
                                      | Err _ => None
                                      end
                        | Err _ => None
                        end = Some n).
  { intros s' Hq. exists ∅, ∅. split; [by apply quiet_splits|]. set_solver. }
  destruct (archive.readerGet archiveReader resource namespace file) as [bytes|err] eqn:Hget.
  2:{ apply Hskip. unfold restoreItem. rewrite Hget, stateOf_bind_orContinue_Err.
      simpl. quiet_leaf. }
  destruct (Unmarshal X bytes) as [obj|err] eqn:Hdec.
  2:{ apply Hskip. unfold restoreItem.
      rewrite Hget, bind_orContinue_Ok, Hdec, stateOf_bind_orContinue_Err.
      simpl. quiet_leaf. }
  destruct (Matches (selector ctx) (Set_ (GetLabels obj))) eqn:Hsel.
  2:{ apply Hskip. unfold restoreItem.
      rewrite Hget, bind_orContinue_Ok, Hdec, bind_orContinue_Ok, Hsel. simpl.
      reflexivity. }
  pose proof (getResourceClient_quiet notPVAction ctx resource namespace obj s) as Hclient.
  destruct (getResourceClient ctx resource namespace obj s) as [client s'|s'|s'|s'] eqn:Hc.
  2-4: apply Hskip; unfold restoreItem;
       rewrite Hget, bind_orContinue_Ok, Hdec, bind_orContinue_Ok, Hsel;
       simpl negb; rewrite bind_when_false;
       rewrite (isCompleted_other _ obj) by (rewrite Hgr; discriminate);
       rewrite bind_orContinue_Ok, bind_when_false;
       unfold bind at 1; rewrite Hc; exact Hclient.
  rewrite (restoreItem_persistentVolume _ _ _ _ _ _ _ _ _ _ _ Hgr Hget Hdec Hsel Hc).
  simpl in Hclient. apply quiet_splits in Hclient.
  destruct (leftToProvisioning ctx obj) eqn:Hprov.
  - unfold bind. rewrite restorePersistentVolume_provision by done. simpl.
    exists {[GetName obj]}, ∅. split; [|set_solver].
    replace ({[GetName obj]} : gset string) with (∅ ∪ {[GetName obj]} : gset string)
      by set_solver.
    replace (∅ : gset string) with (∅ ∪ ∅ : gset string) at 2 by set_solver.
    eapply splits_trans; [exact Hclient|].
    split; [done|]. exists []. rewrite app_nil_r. split; [done|].
    intros o Ho. inversion Ho.
  - exists ∅, {[GetName obj]}. split; [|set_solver].
    replace (∅ : gset string) with (∅ ∪ ∅ : gset string) at 1 by set_solver.
    replace ({[GetName obj]} : gset string) with (∅ ∪ {[GetName obj]} : gset string)
      by set_solver.
    eapply splits_trans; [exact Hclient|]. apply quiet_actionOn_splits.
    revert s' Hc Hclient. intros s' _ _. revert s'.
    match goal with |- ∀ s0, quiet _ s0 (stateOf (?m s0)) =>
      change (preserves (quiet (actionOn obj)) m) end.
    preserves_step quiet_leaf; [by apply restorePersistentVolume_quiet|].
    apply finishItem_quiet. intros; by right.
Qed.

Lemma forEach_splits X ctx archiveReader resource namespace files s :
  groupResource resource = kuberesource.PersistentVolumes →
  NoDup (omap (itemName X archiveReader resource namespace) files) →
  ∃ P A,
    splits P A s
      (stateOf (forEach (restoreItem X ctx archiveReader resource namespace) files s))
    ∧ P ## A
    ∧ ∀ n, n ∈ P ∪ A → n ∈ omap (itemName X archiveReader resource namespace) files.
Proof.
  intros Hgr. revert s. induction files as [|file files IH]; intros s Hnd.
  - exists ∅, ∅. split; [|set_solver]. split; [set_solver|].
    exists []. simpl. rewrite app_nil_r. split; [done|]. intros o Ho. inversion Ho.
  - destruct (restoreItem_splits X ctx archiveReader resource namespace file s Hgr)
      as (P1 & A1 & Hs1 & Hd1 & Hn1).
    assert (Hin1 : ∀ n, n ∈ P1 ∪ A1 →
              n ∈ omap (itemName X archiveReader resource namespace) (file :: files)).
    { intros n Hn. simpl. rewrite (Hn1 n Hn). by left. }
    assert (Hnd' : NoDup (omap (itemName X archiveReader resource namespace) files)).
    { simpl in Hnd. destruct (itemName _ _ _ _ file); [|done].
      by apply NoDup_cons in Hnd as [_ ?]. }
    assert (Hfresh : ∀ n, n ∈ P1 ∪ A1 →
              n ∉ omap (itemName X archiveReader resource namespace) files).
    { intros n Hn. simpl in Hnd. rewrite (Hn1 n Hn) in Hnd.
      by apply NoDup_cons in Hnd as [? _]. }
    simpl forEach.
    destruct (restoreItem X ctx archiveReader resource namespace file s)
      as [[] s1|s1|s1|s1]; simpl in Hs1; simpl stateOf.
    3,4: exists P1, A1; split; [done|]; split; [done|exact Hin1].
    all: destruct (IH s1 Hnd') as (P2 & A2 & Hs2 & Hd2 & Hn2);
      exists (P1 ∪ P2), (A1 ∪ A2); split; [by eapply splits_trans|];
      split; [|intros n Hn; simpl;
               destruct (decide (n ∈ P1 ∪ A1)) as [H1|H1];
               [by apply Hin1|
                destruct (itemName X archiveReader resource namespace file);
                [right|]; apply Hn2; set_solver]];
      apply elem_of_disjoint; intros n HP HA;
      apply elem_of_union in HP as [HP|HP]; apply elem_of_union in HA as [HA|HA];
      [set_solver
      |apply (Hfresh n); [set_solver|apply Hn2; set_solver]
      |apply (Hfresh n); [set_solver|apply Hn2; set_solver]
      |set_solver].
Qed.

(** The first thing that [createItem] does is the call of [Create] on the
    object it is given. *)
Lemma createItem_Create X ctx resource namespace client file name obj s :
  ∃ evs, trace (stateOf (createItem X ctx resource namespace client file name obj s))
         = trace s ++ EvCreate obj :: evs.
Proof.
  unfold createItem. rewrite bind_call.
  assert (Hfrom : ∀ (m : @M World WatchT unit) s1,
            preserves (quiet (λ _, True)) m →
            trace s1 = trace s ++ [EvCreate obj] →
            ∃ evs, trace (stateOf (m s1)) = trace s ++ EvCreate obj :: evs).
  { intros m s1 Hm Hs1. destruct (Hm s1) as [_ (evs & Ht & _)].
    exists evs. rewrite Ht, Hs1. by rewrite <-app_assoc. }
  destruct (Create client obj (world s)) as [[createdObj|restoreErr] w'];
    cbn [fst snd]; cbv beta iota; apply Hfrom; try done.
  - preserves_auto quiet_leaf.
  - destruct (IsAlreadyExists restoreErr); [by apply resolveAlreadyExists_quiet|].
    preserves_auto quiet_leaf.
Qed.

(** The message of the error recorded when the watch cannot be
    opened. *)
Definition watchError (resource namespace : string) (err : error) : error :=
  "error watching for namespace " +:+ quoted namespace +:+ ", resource "
  +:+ quoted (GroupResource_String (groupResource resource)) +:+ ": " +:+ err.

(** C2 (amended). For the items of the resource type [persistentvolumes]:
    - an item that is selected, for which there is a client, that has no
      snapshot record and whose reclaim policy is Delete is left: its name
      is put in the provisioning set, no call is made and nothing is
      created;
    - an item that is not left to provisioning, that has a name and no
      snapshot record, is handed to the volume restorer, which makes no
      call on the block store and deletes the claim reference and the
      storage class name from the specification of the item. When a watch
      is open already in this call, or when none is and one can be opened,
      the item goes on to its creation: with no applicable action, the
      object handed to [Create] has this reduced specification, and its
      fields other than the metadata, the status and the specification are
      those of the item. When no watch is open and none can be opened, the
      error is recorded under the namespace of the call, the item is not
      created and the call of [restoreResource] ends;
    - over the items of a call whose names differ from one another, no
      name is both put in the provisioning set and handed to the volume
      restorer. *)
Theorem persistent_volume_without_snapshot X ctx archiveReader resource namespace :
  groupResource resource = kuberesource.PersistentVolumes →
  (∀ file bytes obj client s s',
     archive.readerGet archiveReader resource namespace file = Ok bytes →
     Unmarshal X bytes = Ok obj →
     Matches (selector ctx) (Set_ (GetLabels obj)) = true →
     getResourceClient ctx resource namespace obj s = Val client s' →
     VolumeBackups (backup ctx) !! GetName obj = None →
     accessors.GetString obj ["spec"; "persistentVolumeReclaimPolicy"] = Ok "Delete" →
     restoreItem X ctx archiveReader resource namespace file s
     = Continue (insertProvision (GetName obj) s')
     ∧ GetName obj ∈ pvsToProvision (insertProvision (GetName obj) s')
     ∧ trace (insertProvision (GetName obj) s') = trace s) ∧
  (∀ file bytes obj client s s' spec reset,
     archive.readerGet archiveReader resource namespace file = Ok bytes →
     Unmarshal X bytes = Ok obj →
     Matches (selector ctx) (Set_ (GetLabels obj)) = true →
     getResourceClient ctx resource namespace obj s = Val client s' →
     leftToProvisioning ctx obj = false →
     GetName obj ≠ "" →
     accessors.GetMap obj ["spec"] = Ok spec →
     volumeBackups (pvRestorerOf ctx) !! GetName obj = None →
     applicableActions ctx resource namespace = [] →
     resetMetadataAndStatus (withoutClaim obj spec) = Ok reset →
     let created :=
       addRestoreLabels
         (if decide (namespace ≠ "") then SetNamespace reset namespace else reset)
         (restoreName (restore ctx)) (BackupName (restore ctx)) in
     let handed := logEvent (EvExecutePVAction obj) s' in
     let item := restoreItem X ctx archiveReader resource namespace file s in
     (∀ w, resourceWatch s' = Some w →
        item = createItem X ctx resource namespace client file (GetName obj) created handed
        ∧ ∃ evs, trace (stateOf item)
                 = trace s ++ [EvExecutePVAction obj; EvCreate created] ++ evs)
     ∧ (∀ w world', resourceWatch s' = None → Watch client (world s') = (Ok w, world') →
        item = createItem X ctx resource namespace client file (GetName obj) created
                 (startWatch w (GetName obj) (setWorld world' EvWatch handed))
        ∧ ∃ evs, trace (stateOf item)
                 = trace s ++ [EvExecutePVAction obj; EvWatch;
                               EvGoWaitForReady w (GetName obj) Minute;
                               EvCreate created] ++ evs)
     ∧ (∀ err world', resourceWatch s' = None → Watch client (world s') = (Err err, world') →
        item = Return (setErrs (addToResult (errs s') namespace
                                  (watchError resource namespace err))
                         (setWorld world' EvWatch handed))
        ∧ trace (stateOf item) = trace s ++ [EvExecutePVAction obj; EvWatch])
     ∧ created !! "spec"
       = Some (VMap (delete "storageClassName" (delete "claimRef" spec)))
     ∧ ∀ k, k ≠ "metadata" → k ≠ "status" → k ≠ "spec" → created !! k = obj !! k) ∧
  (∀ files s,
     NoDup (omap (itemName X archiveReader resource namespace) files) →
     let s' := stateOf (forEach (restoreItem X ctx archiveReader resource namespace)
                          files s) in
     ∃ evs, trace s' = trace s ++ evs ∧
            ∀ o, EvExecutePVAction o ∈ evs →
                 GetName o ∈ pvsToProvision s' → GetName o ∈ pvsToProvision s).
Proof.
  intros Hgr.
  assert (Htrace : ∀ obj client s s',
            getResourceClient ctx resource namespace obj s = Val client s' →
            trace s' = trace s).
  { intros obj client s s' Hclient.
    pose proof (getResourceClient_quiet (λ _, False) ctx resource namespace obj s) as Hq.
    rewrite Hclient in Hq. destruct Hq as [_ (evs & Ht & Hall)].
    destruct evs as [|ev evs]; [by rewrite app_nil_r in Ht|].
    by apply Forall_cons in Hall as [[] _]. }
  split; [|split].
  - intros file bytes obj client s s' Hget Hdec Hsel Hclient Hnone Hpolicy.
    assert (Hprov : leftToProvisioning ctx obj = true).
    { unfold leftToProvisioning. rewrite Hpolicy, Hnone.
      rewrite bool_decide_eq_false_2; [done|]. by intros [? ?]. }
    split; [by eapply restoreItem_provisioned|]. split; [simpl; set_solver|].
    simpl. by eapply Htrace.
  - intros file bytes obj client s s' spec reset Hget Hdec Hsel Hclient Hprov Hname
      Hspec Hnone Hacts Hreset created handed item.
    assert (Hitem : item
              = match watching client (GetName obj) handed with
                | Val _ sw =>
                    createItem X ctx resource namespace client file (GetName obj) created sw
                | Return sw =>
                    Return (setErrs (addToResult (errs sw) namespace
                              (watchError resource namespace
                                 match (Watch client (world handed)).1 with
                                 | Err err => err
                                 | Ok _ => ""
                                 end)) sw)
                | Continue sw => Continue sw
                | Panic sw => Panic sw
                end).
    { subst item.
      rewrite (restoreItem_persistentVolume _ _ _ _ _ _ _ _ _ _ _
                 Hgr Hget Hdec Hsel Hclient).
      unfold bind at 1.
      rewrite (restorePersistentVolume_executed _ _ _ _ _ _ (withoutClaim obj spec) _
                 handed Hprov)
        by (by apply executePVAction_no_snapshot).
      destruct (watching client (GetName obj) handed); try done.
      by apply finishItem_no_actions. }
    assert (Hcreate : ∀ sc, ∃ evs,
              trace (stateOf (createItem X ctx resource namespace client file (GetName obj)
                                created sc))
              = trace sc ++ EvCreate created :: evs)
      by (intros sc; apply createItem_Create).
    pose proof (Htrace _ _ _ _ Hclient) as Hs'.
    split; [|split; [|split; [|split]]].
    + intros w Hwatch. unfold watching in Hitem. simpl resourceWatch in Hitem.
      rewrite Hwatch in Hitem. split; [exact Hitem|].
      rewrite Hitem. destruct (Hcreate handed) as (evs & ->). exists evs.
      subst handed. simpl. rewrite Hs'. by rewrite <-app_assoc.
    + intros w world' Hnow Hwatch. unfold watching in Hitem.
      simpl resourceWatch in Hitem. simpl world in Hitem.
      rewrite Hnow, Hwatch in Hitem. split; [exact Hitem|].
      rewrite Hitem.
      destruct (Hcreate (startWatch w (GetName obj) (setWorld world' EvWatch handed)))
        as (evs & ->).
      exists evs. subst handed. simpl. rewrite Hs'. by rewrite <-!app_assoc.
    + intros err world' Hnow Hwatch. unfold watching in Hitem.
      simpl resourceWatch in Hitem. simpl world in Hitem.
      rewrite Hnow, Hwatch in Hitem. split; [exact Hitem|].
      rewrite Hitem. subst handed. simpl. rewrite Hs'. by rewrite <-app_assoc.
    + subst created. rewrite (created_fields _ _ _ _ _ _ Hreset) by done.
      unfold withoutClaim. by rewrite lookup_insert_eq.
    + intros k Hk1 Hk2 Hk3. subst created.
      rewrite (created_fields _ _ _ _ _ _ Hreset) by done.
      unfold withoutClaim. by rewrite lookup_insert_ne.
  - intros files s Hnd s'.
    destruct (forEach_splits X ctx archiveReader resource namespace files s Hgr Hnd)
      as (P & A & [HP (evs & Ht & HA)] & Hdisj & _).
    exists evs. split; [exact Ht|]. intros o Ho Hin. subst s'.
    rewrite HP in Hin. apply elem_of_union in Hin as [Hin|Hin]; [|done].
    specialize (HA o Ho). set_solver.
Qed.

End persistent_volumes.

Section persistent_volumes_examples.
Import schema discovery collections unstructured labels api restore.

Definition volume (name : string) (spec : list (string * value)) : Unstructured :=
  document "PersistentVolume" name "" [("spec", VMap (list_to_map spec))].

Definition restoredVolume (name : string) (spec : list (string * value)) : Unstructured :=
  restoredWith "PersistentVolume" name "" [] [("spec", VMap (list_to_map spec))].

(** A bound volume that is kept when released, and a volume that is
    deleted when released; the backup has no snapshot of either. *)
Definition retained : Unstructured :=
  volume "pv1" [("persistentVolumeReclaimPolicy", VStr "Retain");
                ("claimRef", VMap {[ "name" := VStr "claim-1" ]});
                ("storageClassName", VStr "gold")].

Definition deleted : Unstructured :=
  volume "pv2" [("persistentVolumeReclaimPolicy", VStr "Delete")].

Definition twoVolumes : list item :=
  [ mkItem "persistentvolumes" "" "pv1.json" (Ok retained);
    mkItem "persistentvolumes" "" "pv2.json" (Ok deleted) ].

Definition volumesContext : @context cluster string :=
  fakeContext fakeRestore (fakeBackup ∅) [kuberesource.PersistentVolumes] [].

Example restoreResource_twoVolumes :
  (λ s, (trace s, elements (pvsToProvision s), errs s, warnings s)) <$>
    restoreResource (fakeExternals twoVolumes) volumesContext (fakeReader twoVolumes)
      "persistentvolumes" "" emptyCluster
  = Some ([EvExecutePVAction retained; EvWatch;
           EvGoWaitForReady "persistentvolumes" "pv1" Minute;
           EvCreate (restoredVolume "pv1"
                       [("persistentVolumeReclaimPolicy", VStr "Retain")])],
          ["pv2"], emptyResult, emptyResult).
Proof. reflexivity. Qed.

(** C2, counterexample: the volume with reclaim policy Retain and no
    snapshot record is created, but not as it is in the archive: the
    specification of the created object lacks the claim reference and the
    storage class name. *)
Lemma retained_volume_created_without_claim :
  trace <$>
    restoreResource (fakeExternals [mkItem "persistentvolumes" "" "pv1.json" (Ok retained)])
      volumesContext
      (fakeReader [mkItem "persistentvolumes" "" "pv1.json" (Ok retained)])
      "persistentvolumes" "" emptyCluster
  = Some [EvExecutePVAction retained; EvWatch;
          EvGoWaitForReady "persistentvolumes" "pv1" Minute;
          EvCreate (restoredVolume "pv1"
                      [("persistentVolumeReclaimPolicy", VStr "Retain")])] ∧
  restoredVolume "pv1" [("persistentVolumeReclaimPolicy", VStr "Retain")] !! "spec"
  ≠ retained !! "spec".
Proof. split; [reflexivity|]. apply computed_ne. reflexivity. Qed.

(** C2, witness: of the two volumes, the one with reclaim policy Delete
    is left to provisioning, and the one with reclaim policy Retain, the
    first volume of the call to be restored, is created once the watch is
    open. *)
Lemma persistent_volume_without_snapshot_witness :
  restoreItem (fakeExternals twoVolumes) volumesContext (fakeReader twoVolumes)
    "persistentvolumes" "" "pv2.json" emptyCluster
  = Continue (insertProvision "pv2"
                (setResourceClient (fakeClient "persistentvolumes" "") emptyCluster)) ∧
  ∃ evs,
    trace (stateOf (restoreItem (fakeExternals twoVolumes) volumesContext
                      (fakeReader twoVolumes) "persistentvolumes" "" "pv1.json"
                      emptyCluster))
    = [] ++ [EvExecutePVAction retained; EvWatch;
             EvGoWaitForReady "persistentvolumes" "pv1" Minute;
             EvCreate (restoredVolume "pv1"
                         [("persistentVolumeReclaimPolicy", VStr "Retain")])] ++ evs.
Proof.
  assert (Hgr : groupResource "persistentvolumes" = kuberesource.PersistentVolumes)
    by reflexivity.
  destruct (persistent_volume_without_snapshot (fakeExternals twoVolumes) volumesContext
              (fakeReader twoVolumes) "persistentvolumes" "" Hgr) as (Hleft & Hhanded & _).
  split.
  - refine (proj1 (Hleft "pv2.json" "persistentvolumes//pv2.json" deleted
                     (fakeClient "persistentvolumes" "") emptyCluster
                     (setResourceClient (fakeClient "persistentvolumes" "") emptyCluster)
                     _ _ _ _ _ _)); reflexivity.
  - destruct (Hhanded "pv1.json" "persistentvolumes//pv1.json" retained
                (fakeClient "persistentvolumes" "") emptyCluster
                (setResourceClient (fakeClient "persistentvolumes" "") emptyCluster)
                (list_to_map [("persistentVolumeReclaimPolicy", VStr "Retain");
                              ("claimRef", VMap {[ "name" := VStr "claim-1" ]});
                              ("storageClassName", VStr "gold")])
                (list_to_map
                   [("apiVersion", VStr "v1"); ("kind", VStr "PersistentVolume");
                    ("metadata", VMap (list_to_map [("name", VStr "pv1")]));
                    ("spec", VMap (list_to_map
                       [("persistentVolumeReclaimPolicy", VStr "Retain")]))]))
      as (_ & Hopened & _); try reflexivity.
    + apply computed_ne. reflexivity.
    + destruct (Hopened "persistentvolumes" ∅ eq_refl eq_refl) as [_ Htrace].
      exact Htrace.
Defined.

End persistent_volumes_examples.


(** * Waiting for restored volumes *)
Section volume_readiness.
Import schema discovery collections unstructured labels api restore.
Context {World WatchT : Type}.
Implicit Types (X : @externals World) (ctx : @context World WatchT)
  (s : @rstate World WatchT) (obj : Unstructured)
  (client : @Dynamic World WatchT).

(** The watch of the call in progress stays as it is. *)
Definition sameWatch : relation (@rstate World WatchT) :=
  λ s s', resourceWatch s' = resourceWatch s.

#[local] Instance sameWatch_preorder : PreOrder sameWatch.
Proof. split; [done|]. intros s1 s2 s3. unfold sameWatch. congruence. Qed.

Lemma executePVAction_sameWatch (r : @pvRestorer World) obj :
  preserves sameWatch (@executePVAction World WatchT r obj).
Proof. unfold executePVAction. preserves_auto ltac:(reflexivity). Qed.

(** [waitForReady] returns an item only if an event brought it, it has
    the awaited name and it is ready. *)
Lemma waitForReady_Ok ticks name ready timeout obj :
  waitForReady ticks name ready timeout = Some (Ok obj) →
  GetName obj = name ∧ ready obj = true ∧
  ∃ t, Recv (mkWatchEvent t (IsUnstructured obj)) ∈ ticks ∧ (t = Added ∨ t = Modified).
Proof.
  induction ticks as [|[[t o]|] ticks IH]; simpl; [done| |].
  - assert (Hrec : waitForReady ticks name ready timeout = Some (Ok obj) →
              GetName obj = name ∧ ready obj = true ∧
              ∃ t0, Recv (mkWatchEvent t0 (IsUnstructured obj))
                      ∈ Recv (mkWatchEvent t o) :: ticks ∧ (t0 = Added ∨ t0 = Modified)).
    { intros H. destruct (IH H) as (? & ? & t0 & ? & ?).
      split; [done|]. split; [done|]. exists t0. split; [by right|done]. }
    assert (Hhere : t = Added ∨ t = Modified →
              match o with
              | IsUnstructured obj0 =>
                  if negb (GetName obj0 =? name)%string
                  then waitForReady ticks name ready timeout
                  else if negb (ready obj0)
                       then waitForReady ticks name ready timeout
                       else Some (Ok obj0)
              | OtherType _ => waitForReady ticks name ready timeout
              end = Some (Ok obj) →
              GetName obj = name ∧ ready obj = true ∧
              ∃ t0, Recv (mkWatchEvent t0 (IsUnstructured obj))
                      ∈ Recv (mkWatchEvent t o) :: ticks ∧ (t0 = Added ∨ t0 = Modified)).
    { intros Ht. destruct o as [obj0|]; [|exact Hrec].
      destruct (GetName obj0 =? name)%string eqn:Hn; simpl; [|exact Hrec].
      destruct (ready obj0) eqn:Hr; simpl; [|exact Hrec].
      intros H. injection H as ->. apply String.eqb_eq in Hn.
      split; [done|]. split; [done|]. exists t. split; [by left|done]. }
    destruct t; auto.
  - destruct (decide (timeout = 0%Z)); [|done].
    intros H. destruct (IH H) as (? & ? & t0 & ? & ?).
    split; [done|]. split; [done|]. exists t0. split; [by right|done].
Qed.

Lemma isPVReady_Available obj :
  isPVReady obj = true ↔ accessors.GetString obj ["status"; "phase"] = Ok "Available".
Proof.
  unfold isPVReady. destruct (accessors.GetString obj _) as [phase|]; [|done].
  unfold VolumeAvailable. rewrite String.eqb_eq. split; congruence.
Qed.

(** The step for a volume that is handed to the volume restorer and
    whose action succeeds:
    - when no watch is open in this call of [restoreResource], one is
      opened, added to the watches of the restore, and one goroutine is
      started that waits, with a timeout of one minute, for this volume;
    - when a watch is open already, no watch is opened and no goroutine is
      started: the state is the one that the volume restorer left. *)
Lemma restorePersistentVolume_watch ctx resource namespace client file obj updated s sa :
  leftToProvisioning ctx obj = false →
  executePVAction (pvRestorerOf ctx) obj (logEvent (EvExecutePVAction obj) s)
  = Val (Ok updated) sa →
  (resourceWatch s = None →
   ∀ w world', Watch client (world sa) = (Ok w, world') →
     let started := startWatch w (GetName obj) (setWorld world' EvWatch sa) in
     restorePersistentVolume ctx resource namespace client file (GetName obj) obj s
     = Val updated started
     ∧ trace started = trace sa ++ [EvWatch; EvGoWaitForReady w (GetName obj) Minute]
     ∧ resourceWatch started = Some w
     ∧ resourceTask started = Some (GetName obj, Minute)
     ∧ resourceWatches started = resourceWatches sa ++ [w]
     ∧ resourceWaitGroup started = S (resourceWaitGroup sa)) ∧
  (∀ w, resourceWatch s = Some w →
     restorePersistentVolume ctx resource namespace client file (GetName obj) obj s
     = Val updated sa).
Proof.
  intros Hprov Hexec.
  pose proof (executePVAction_sameWatch (pvRestorerOf ctx) obj
                (logEvent (EvExecutePVAction obj) s)) as Hw.
  rewrite Hexec in Hw. unfold sameWatch in Hw. simpl in Hw.
  split.
  - intros Hnone w world' Hwatch started.
    rewrite (restorePersistentVolume_executed _ _ _ _ _ _ _ _ _ Hprov Hexec).
    unfold watching. rewrite Hw, Hnone, Hwatch. subst started. simpl.
    by rewrite <-app_assoc.
  - intros w Hsome.
    rewrite (restorePersistentVolume_executed _ _ _ _ _ _ _ _ _ Hprov Hexec).
    unfold watching. by rewrite Hw, Hsome.
Qed.

(** What the goroutine of a call leaves in the results of the call: when
    the ticks that it has taken by the return bring the volume it waits
    for, available, or end with the goroutine still waiting, nothing; when
    its timer has fired before, the timeout warning in the system list.
    The errors are not touched. *)
Lemma returned_goroutine s name timeout w client :
  resourceTask s = Some (name, timeout) →
  resourceWatch s = Some w →
  resourceClient s = Some client →
  errs (returned s) = errs s ∧
  match waitForReady (ResultChan client w (world s)) name isPVReady timeout with
  | Some (Ok ready) =>
      GetName ready = name ∧
      accessors.GetString ready ["status"; "phase"] = Ok "Available" ∧
      warnings (returned s) = warnings s
  | Some (Err _) =>
      warnings (returned s)
      = addArkError (warnings s)
          ("timeout reached waiting for persistent volume " +:+ name
           +:+ " to become ready")
  | None => warnings (returned s) = warnings s
  end.
Proof.
  intros Htask Hwatch Hclient. split; [apply errs_returned|].
  unfold returned. rewrite Htask, Hwatch, Hclient. unfold waitForPersistentVolume.
  destruct (waitForReady _ _ _ _) as [[ready|err]|] eqn:Hwait; [|done..].
  apply waitForReady_Ok in Hwait as (Hname & Hready & _).
  by apply isPVReady_Available in Hready.
Qed.

End volume_readiness.

Section volume_readiness_examples.
Import schema discovery collections unstructured labels api restore.

Definition kept (name : string) : Unstructured :=
  volume name [("persistentVolumeReclaimPolicy", VStr "Retain")].

Definition twoKeptVolumes : list item :=
  [ mkItem "persistentvolumes" "" "pv1.json" (Ok (kept "pv1"));
    mkItem "persistentvolumes" "" "pv2.json" (Ok (kept "pv2")) ].

Definition withPhase (name phase : string) : Unstructured :=
  document "PersistentVolume" name "" [("status", VMap {[ "phase" := VStr phase ]})].

(** A client of the persistent volumes on whose watch the goroutine of a
    call has taken the given ticks by the time the call returns. *)
Definition watchedClient (ticks : list tick) : @Dynamic cluster string :=
  let client := fakeClient "persistentvolumes" "" in
  mkDynamic (Create client) (Get client) (Patch client) (Watch client) (λ _ _, ticks).

Definition watchedContext (ticks : list tick) : @context cluster string :=
  mkContext (fakeBackup ∅) fakeRestore [kuberesource.PersistentVolumes] Everything
    (λ _ _ _, Ok (watchedClient ticks)) [] None (mkPVRestorer None None ∅ None).

Definition restoreVolumes (items : list item) (ticks : list tick)
  : option (list (@event string) * RestoreResult * RestoreResult) :=
  (λ s, (trace s, warnings s, errs s)) <$>
    restoreResource (fakeExternals items) (watchedContext ticks) (fakeReader items)
      "persistentvolumes" "" emptyCluster.

(** C8. Two volumes are restored in one call of [restoreResource]. Both
    are created; the watch is opened once and one goroutine is started,
    which waits for the first volume. That volume becomes available; the
    second one is still pending when the call returns, and no goroutine
    waits for it: no warning will ever be recorded for it. *)
Theorem second_volume_not_waited_for :
  restoreVolumes twoKeptVolumes
    [Recv (mkWatchEvent Added (IsUnstructured (withPhase "pv1" "Pending")));
     Recv (mkWatchEvent Added (IsUnstructured (withPhase "pv2" "Pending")));
     Recv (mkWatchEvent Modified (IsUnstructured (withPhase "pv1" "Available")))]
  = Some ([EvExecutePVAction (kept "pv1"); EvWatch;
           EvGoWaitForReady "persistentvolumes" "pv1" Minute;
           EvCreate (restoredVolume "pv1"
                       [("persistentVolumeReclaimPolicy", VStr "Retain")]);
           EvExecutePVAction (kept "pv2");
           EvCreate (restoredVolume "pv2"
                       [("persistentVolumeReclaimPolicy", VStr "Retain")])],
          emptyResult, emptyResult).
Proof. reflexivity. Qed.

(** The volume becomes available before the timer fires. *)
Example waitForReady_available :
  waitForReady
    [Recv (mkWatchEvent Added (IsUnstructured (withPhase "pv1" "Pending")));
     Recv (mkWatchEvent Modified (IsUnstructured (withPhase "pv2" "Available")));
     Recv (mkWatchEvent Modified (IsUnstructured (withPhase "pv1" "Available")));
     TimerFires]
    "pv1" isPVReady Minute
  = Some (Ok (withPhase "pv1" "Available")).
Proof. reflexivity. Qed.

(** The timer of the goroutine fires while the call is still running: the
    timeout warning is in the system list of the results, and there is no
    error. *)
Example timeout_before_return :
  snd <$> restoreVolumes [mkItem "persistentvolumes" "" "pv1.json" (Ok (kept "pv1"))]
            [Recv (mkWatchEvent Added (IsUnstructured (withPhase "pv1" "Pending")));
             TimerFires]
  = Some emptyResult ∧
  (snd ∘ fst) <$> restoreVolumes [mkItem "persistentvolumes" "" "pv1.json" (Ok (kept "pv1"))]
            [Recv (mkWatchEvent Added (IsUnstructured (withPhase "pv1" "Pending")));
             TimerFires]
  = Some (mkResult ["timeout reached waiting for persistent volume pv1 to become ready"]
            [] ∅).
Proof. split; reflexivity. Qed.

(** The call returns while the goroutine is still waiting: whatever the
    goroutine does later, the results of the call hold no warning. *)
Example timeout_after_return :
  restoreVolumes [mkItem "persistentvolumes" "" "pv1.json" (Ok (kept "pv1"))]
    [Recv (mkWatchEvent Added (IsUnstructured (withPhase "pv1" "Pending")))]
  = Some ([EvExecutePVAction (kept "pv1"); EvWatch;
           EvGoWaitForReady "persistentvolumes" "pv1" Minute;
           EvCreate (restoredVolume "pv1"
                       [("persistentVolumeReclaimPolicy", VStr "Retain")])],
          emptyResult, emptyResult).
Proof. reflexivity. Qed.

End volume_readiness_examples.


(** * Namespaces *)
Section namespaces.
Import schema discovery collections unstructured labels api restore.
Context {World WatchT : Type}.
Implicit Types (X : @externals World) (ctx : @context World WatchT)
  (s : @rstate World WatchT) (obj : Unstructured)
  (client : @Dynamic World WatchT).

(** The events of a call of [restoreResource] for a namespace: whatever is
    created is created in that namespace, and no namespace is ensured. *)
Definition inNamespace (namespace : string) (ev : @event WatchT) : Prop :=
  match ev with
  | EvCreate obj => GetNamespace obj = namespace
  | EvEnsureNamespaceExists _ => False
  | _ => True
  end.

Lemma GetNamespace_setNestedField2 obj m val namespace f :
  obj !! "metadata" = Some (VMap m) →
  f ≠ "namespace" →
  GetNamespace obj = namespace →
  GetNamespace (setNestedField2 obj val "metadata" f) = namespace.
Proof.
  intros Hm Hf. unfold setNestedField2. rewrite Hm.
  unfold GetNamespace, getNestedString, NestedString, NestedFieldNoCopy. simpl.
  by rewrite Hm, lookup_insert_eq, lookup_insert_ne.
Qed.

Lemma GetNamespace_SetNamespace obj m namespace :
  obj !! "metadata" = Some (VMap m) →
  namespace ≠ "" →
  GetNamespace (SetNamespace obj namespace) = namespace ∧
  ∃ m', SetNamespace obj namespace !! "metadata" = Some (VMap m').
Proof.
  intros Hm Hns. unfold SetNamespace. rewrite decide_False by done.
  unfold setNestedField2. rewrite Hm. split; [|by rewrite lookup_insert_eq; eexists].
  unfold GetNamespace, getNestedString, NestedString, NestedFieldNoCopy. simpl.
  by rewrite !lookup_insert_eq.
Qed.

Lemma GetNamespace_created obj reset namespace restoreName backupName :
  resetMetadataAndStatus obj = Ok reset →
  namespace ≠ "" →
  GetNamespace (addRestoreLabels (SetNamespace reset namespace) restoreName backupName)
  = namespace.
Proof.
  unfold resetMetadataAndStatus. destruct (accessors.GetMap obj _) as [metadata|]; [|done].
  intros H Hns. injection H as <-.
  match goal with
  | |- context [SetNamespace ?reset _] =>
      edestruct (GetNamespace_SetNamespace reset) as [Hget [m' Hm']]; [|exact Hns|]
  end.
  { rewrite lookup_delete_ne by done. apply lookup_insert_eq. }
  unfold addRestoreLabels, SetLabels.
  by eapply GetNamespace_setNestedField2.
Qed.

Lemma restorePersistentVolume_inNamespace ctx resource namespace client file name obj :
  preserves (appends (inNamespace namespace))
    (restorePersistentVolume ctx resource namespace client file name obj).
Proof.
  unfold restorePersistentVolume.
  destruct (match accessors.GetString obj _ with Ok _ => _ | Err _ => _ end).
  - preserves_auto ltac:(by apply appends_same).
  - preserves_step idtac; [preserves_auto ltac:(by eapply appends_one)|].
    preserves_step idtac; [by apply quiet_appends, executePVAction_quiet|].
    preserves_auto ltac:(first [by apply appends_same|by eapply appends_one]).
Qed.

Lemma restoreItem_inNamespace X ctx archiveReader resource namespace file :
  namespace ≠ "" →
  preserves (appends (inNamespace namespace))
    (restoreItem X ctx archiveReader resource namespace file).
Proof.
  intros Hns. unfold restoreItem.
  do 5 (preserves_step idtac; try (preserves_auto ltac:(by apply appends_same); fail)).
  preserves_step idtac; [apply quiet_appends, getResourceClient_quiet|].
  preserves_step idtac; [preserves_auto ltac:(by apply appends_same)|].
  preserves_step idtac.
  { destruct (decide _); [|preserves_auto idtac].
    apply restorePersistentVolume_inNamespace. }
  preserves_step idtac.
  { destruct (decide _); [|preserves_auto idtac].
    apply quiet_appends, resetPersistentVolumeClaim_quiet. }
  preserves_step idtac; [by apply quiet_appends, runActions_quiet|].
  preserves_step idtac; [preserves_auto ltac:(by apply appends_same)|].
  rewrite decide_True by done.
  apply quiet_appends, createItem_quiet; try done.
  simpl. by eapply GetNamespace_created.
Qed.

(** What a call of [restoreResource] for a namespace adds to the record:
    objects created in that namespace, and no call that ensures a
    namespace. *)
Lemma restoreResource_inNamespace X ctx archiveReader resource namespace s s' :
  namespace ≠ "" →
  restoreResource X ctx archiveReader resource namespace s = Some s' →
  appends (inNamespace namespace) s s'.
Proof.
  intros Hns. unfold restoreResource.
  assert (Hfresh : appends (inNamespace namespace) s (freshLocals s))
    by (by apply appends_same).
  destruct (_ && _); [by intros [= <-]|].
  destruct (archive.readerListContents _ _ _) as [files|err];
    [|intros [= <-]; etrans; [exact Hfresh|by apply appends_same]].
  destruct files as [|file files]; [by intros [= <-]|].
  pose proof (preserves_forEach (appends (inNamespace namespace))
                (restoreItem X ctx archiveReader resource namespace) (file :: files)
                (λ x _, restoreItem_inNamespace X ctx archiveReader resource namespace x Hns)
                (freshLocals s)) as Hloop.
  destruct (forEach _ _ _) as [[] s1|s1|s1|s1]; simpl in Hloop; intros [= <-];
    (etrans; [exact Hfresh|]); (etrans; [exact Hloop|]);
    apply appends_same, trace_returned.
Qed.

(** A call of [restoreResource] reads the archive under the namespace it
    restores into: when the archive has no directory of that name for the
    resource type, the call records the error under that namespace and
    leaves the record of calls as it is, whatever the archive holds under
    other namespaces. *)
Lemma restoreResource_unreadable X ctx archiveReader resource namespace err s :
  namespace ≠ "" →
  archive.readerListContents archiveReader resource namespace = Err err →
  restoreResource X ctx archiveReader resource namespace s
  = Some (setErrs (addToResult emptyResult namespace
                     ("error reading resource directory " +:+ quoted resource
                      +:+ ": " +:+ err)) (freshLocals s)).
Proof.
  intros Hns Hlist. unfold restoreResource. rewrite Hlist.
  replace (String.eqb namespace "") with false
    by (symmetry; by apply String.eqb_neq).
  by rewrite andb_false_r.
Qed.

(** The step of the namespace loop for a namespace [nsName] of the archive
    that the request maps to [target] and that the namespace filter
    admits:
    - the namespace object to ensure carries the name [target]; it has the
      labels, annotations and specification of the object of [nsName] in
      the archive when that object is read and decoded, and is bare
      otherwise;
    - when [target] is in the verified set, nothing is ensured and the
      set stays as it is; otherwise the namespace object is ensured, and
      [target] joins the verified set when that succeeds;
    - when ensuring fails, the error is a system error and
      [restoreResource] is not called; otherwise [restoreResource] is
      called, with [target] as its namespace, after the namespace has
      been ensured, and every object that it creates is created in the
      namespace [target]. *)
Lemma mapped_namespace_step X ctx archiveReader namespaceFilter resource nsName target
    namespaces accWarnings accErrs existingNamespaces s :
  NamespaceMapping (restore ctx) !! nsName = Some target →
  ShouldInclude namespaceFilter nsName = true →
  target ≠ "" →
  let ns := getNamespace (UnmarshalNamespace X) archiveReader nsName target in
  let ensured := ensureNamespace X archiveReader nsName target existingNamespaces s in
  let s1 :=
    setWorld (EnsureNamespaceExists X ns (world s)).2 (EvEnsureNamespaceExists ns) s in
  (restore.nsName ns = target ∧
   match archive.readerGet archiveReader "namespaces" "" (nsName +:+ ".json") with
   | Ok nsBytes =>
       match UnmarshalNamespace X nsBytes with
       | Ok backupNS =>
           ns = mkNamespace target (nsLabels backupNS) (nsAnnotations backupNS)
                  (nsSpec backupNS)
       | Err _ => ns = mkNamespace target None None VNull
       end
   | Err _ => ns = mkNamespace target None None VNull
   end) ∧
  (target ∈ existingNamespaces → ensured = (None, existingNamespaces, s)) ∧
  (target ∉ existingNamespaces →
   match (EnsureNamespaceExists X ns (world s)).1 with
   | Ok _ => ensured = (None, {[target]} ∪ existingNamespaces, s1)
   | Err err => ensured = (Some err, existingNamespaces, s1)
   end) ∧
  restoreNamespaces X ctx archiveReader namespaceFilter resource (nsName :: namespaces)
    accWarnings accErrs existingNamespaces s
  = match ensured with
    | (Some err, existingNamespaces, s) =>
        restoreNamespaces X ctx archiveReader namespaceFilter resource namespaces
          accWarnings (addArkError accErrs err) existingNamespaces s
    | (None, existingNamespaces, s) =>
        match restoreResource X ctx archiveReader resource target s with
        | None => None
        | Some s' =>
            restoreNamespaces X ctx archiveReader namespaceFilter resource namespaces
              (merge accWarnings (warnings s')) (merge accErrs (errs s'))
              existingNamespaces s'
        end
    end ∧
  (∀ s0 s', restoreResource X ctx archiveReader resource target s0 = Some s' →
            ∃ evs, trace s' = trace s0 ++ evs ∧ Forall (inNamespace target) evs).
Proof.
  intros Hmap Hinc Hne ns ensured s1. split; [|split; [|split; [|split]]].
  - subst ns. unfold getNamespace.
    destruct (archive.readerGet _ _ _ _) as [nsBytes|]; [|done].
    by destruct (UnmarshalNamespace X nsBytes).
  - intros Hin. subst ensured. unfold ensureNamespace. by rewrite decide_True.
  - intros Hout. subst ensured s1 ns. unfold ensureNamespace.
    rewrite decide_False by done.
    by destruct (EnsureNamespaceExists X _ (world s)) as [[?|?] ?].
  - simpl. rewrite Hinc, Hmap. simpl. done.
  - intros s0 s' Hres. by eapply restoreResource_inNamespace.
Qed.

End namespaces.

Section namespaces_examples.
Import schema discovery collections unstructured labels api restore.
Import filesystem archive.

(** The namespace [ns-1], labelled [team=a], and one config map in it. *)
Definition labelledNamespace : Unstructured :=
  list_to_map
    [("apiVersion", VStr "v1"); ("kind", VStr "Namespace");
     ("metadata", VMap (list_to_map
        [("name", VStr "ns-1"); ("labels", VMap {[ "team" := VStr "a" ]})]));
     ("spec", VMap {[ "finalizers" := VList [VStr "kubernetes"] ]})].

Definition namespaceAndConfigMap : list item :=
  [ mkItem "namespaces" "" "ns-1.json" (Ok labelledNamespace);
    mkItem "configmaps" "ns-1" "cm1.json" (Ok (configMap "backup")) ].

(** The archive of these two documents; the bytes of a file are the key
    under which the decoder of [fakeExternals] finds its document. *)
Definition remappedArchive : ioReader :=
  Ok {| entries :=
          [mkEntry "resources/namespaces/cluster/ns-1.json" TypeReg 420
             (objectKey "namespaces" "" "ns-1.json");
           mkEntry "resources/configmaps/namespaces/ns-1/cm1.json" TypeReg 420
             (objectKey "configmaps" "ns-1" "cm1.json")];
        nextErr := None |}.

(** The reader of that archive after [Extract]. *)
Definition extractedReader : archive.Reader :=
  let '(_, r, st) := Extract (NewGzipTarReader memInterface remappedArchive) emptyDisk in
  asReader r st.

Example extractedReader_contents :
  (Extract (NewGzipTarReader memInterface remappedArchive) emptyDisk).1.1 = None ∧
  readerGetResourceScope extractedReader "configmaps" = Ok (ResourceScopeNamespace, true) ∧
  readerListNamespaces extractedReader "configmaps" = Ok ["ns-1"] ∧
  readerListContents extractedReader "configmaps" "ns-1" = Ok ["cm1.json"] ∧
  is_Err (readerListContents extractedReader "configmaps" "ns-2").
Proof. by vm_compute. Qed.

(** The request that maps [ns-1] to [ns-2]. *)
Definition remapping : api.Restore :=
  mkRestore "restore-1" ∅ "backup-1" [] [] [] [] {[ "ns-1" := "ns-2" ]} None None None.

Definition contextOf (restore : api.Restore) : @context cluster string :=
  fakeContext restore (fakeBackup ∅) [kuberesource.Namespaces; mkGR "" "configmaps"] [].

Definition ensuredAs (name : string) : Namespace :=
  mkNamespace name (Some {[ "team" := "a" ]}) None
    (VMap {[ "finalizers" := VList [VStr "kubernetes"] ]}).

Definition summary (r : option (RestoreResult * RestoreResult * @rstate cluster string))
  : option (RestoreResult * RestoreResult * list (@event string)) :=
  (λ '(w, e, s), (w, e, trace s)) <$> r.

(** Without a mapping the config map of [ns-1] is created, in [ns-1],
    after the namespace has been ensured. *)
Example unmapped_item_created :
  summary (restoreFromArchive (fakeExternals namespaceAndConfigMap)
             (contextOf fakeRestore) extractedReader emptyCluster)
  = Some (emptyResult, emptyResult,
          [EvEnsureNamespaceExists (ensuredAs "ns-1");
           EvCreate (restoredWith "ConfigMap" "cm1" "ns-1" []
                       [("data", VMap {[ "key" := VStr "backup" ]})])]).
Proof. reflexivity. Qed.

(** C4. Under the mapping of [ns-1] to [ns-2], on an archive that holds
    one config map in [ns-1] and the namespace object of [ns-1]: the
    namespace [ns-2] is ensured, with the labels and the specification of
    the backed-up [ns-1]; then the items are looked for in the archive
    under [ns-2], the name of the target, where the archive has none: the
    config map of [ns-1] is not created, in no namespace, and the missing
    directory is recorded as an error of [ns-2]. *)
Theorem remapped_item_not_created :
  summary (restoreFromArchive (fakeExternals namespaceAndConfigMap)
             (contextOf remapping) extractedReader emptyCluster)
  = Some (emptyResult,
          mkResult [] []
            {[ "ns-2" :=
                 ["error reading resource directory " +:+ quoted "configmaps"
                  +:+ ": error reading directory "
                  +:+ "/tmp/ark/resources/configmaps/namespaces/ns-2: "
                  +:+ "open /tmp/ark/resources/configmaps/namespaces/ns-2: "
                  +:+ "no such file or directory"] ]},
          [EvEnsureNamespaceExists (ensuredAs "ns-2")]).
Proof. reflexivity. Qed.

(** When the archive also has a directory of the target's name, it is the
    items of that directory that are restored, once for each of the two
    namespaces, and the config map of [ns-1] is left out all the same. *)
Definition bothNamespaces : list item :=
  namespaceAndConfigMap
  ++ [mkItem "configmaps" "ns-2" "cm2.json" (Ok (document "ConfigMap" "cm2" "ns-2" []))].

Example remapped_onto_archived_namespace :
  omap (λ ev, match ev with EvCreate obj => Some (GetName obj, GetNamespace obj)
                       | _ => None end)
    <$> (trace <$> (snd <$>
          restoreFromArchive (fakeExternals bothNamespaces) (contextOf remapping)
            (fakeReader bothNamespaces) emptyCluster))
  = Some [("cm2", "ns-2"); ("cm2", "ns-2")].
Proof. reflexivity. Qed.

(** The step of the namespace loop on this request: [ns-2] is not verified
    yet, is ensured and joins the verified set. *)
Example mapped_namespace_step_ensures :
  ensureNamespace (fakeExternals namespaceAndConfigMap) extractedReader "ns-1" "ns-2" ∅
    emptyCluster
  = (None, {[ "ns-2" ]} ∪ ∅,
     setWorld ∅
       (EvEnsureNamespaceExists
          (getNamespace (UnmarshalNamespace (fakeExternals namespaceAndConfigMap))
             extractedReader "ns-1" "ns-2"))
       emptyCluster).
Proof.
  refine (proj1 (proj2 (proj2 (mapped_namespace_step (fakeExternals namespaceAndConfigMap)
            (contextOf remapping) extractedReader
            (fakeIncludesExcludes [] []) "configmaps" "ns-1" "ns-2" []
            emptyResult emptyResult ∅ emptyCluster _ _ _))) _).
  - reflexivity.
  - reflexivity.
  - done.
  - set_solver.
Qed.

End namespaces_examples.


(** * Restoring twice

    The errors of a restore do not depend on the state of the cluster it
    starts in, as long as the failures of the cluster do not: two runs of
    the engine on the same archive, from two states of the cluster, go
    through the same items and record the same errors. The one answer of
    the cluster that does depend on its state, "already exists", is not
    recorded as an error. *)
Section second_pass.
Import schema discovery collections unstructured labels api restore.
Context {World WatchT : Type}.
Variable X : @externals World.
Variable ctx : @context World WatchT.
Implicit Types (s : @rstate World WatchT) (obj : Unstructured)
  (client : @Dynamic World WatchT).

(** The error of a result, if any. *)
Definition failure {A} (r : result A) : option error :=
  match r with
  | Err err => Some err
  | Ok _ => None
  end.

(** The error with which a creation fails, when it fails for another
    reason than the existence of the object. *)
Definition createFailure client obj (w : World) : option error :=
  match (Create client obj w).1 with
  | inr restoreErr => if IsAlreadyExists restoreErr then None else Some (Error restoreErr)
  | inl _ => None
  end.

Definition fromFactory client : Prop :=
  ∃ gv apiResource namespace, dynamicFactory ctx gv apiResource namespace = Ok client.

(** The failures of the cluster do not depend on its state: whether a
    creation fails for another reason than the existence of the object,
    whether a watch can be opened and whether a namespace can be ensured,
    each with its error, and what the block store answers. *)
Definition steady : Prop :=
  (∀ client obj w w', fromFactory client →
     createFailure client obj w = createFailure client obj w') ∧
  (∀ client w w', fromFactory client →
     failure (Watch client w).1 = failure (Watch client w').1) ∧
  (∀ ns w w',
     failure (EnsureNamespaceExists X ns w).1 = failure (EnsureNamespaceExists X ns w').1) ∧
  (∀ blockStore snapshotID volumeType volumeAZ iops w w',
     pvBlockStore (pvRestorerOf ctx) = Some blockStore →
     (CreateVolumeFromSnapshot blockStore snapshotID volumeType volumeAZ iops w).1
     = (CreateVolumeFromSnapshot blockStore snapshotID volumeType volumeAZ iops w').1).

(** Two states of the engine that differ in the state of the cluster, in
    the record of calls, in the warnings and in the watches at most. *)
Definition alike s1 s2 : Prop :=
  pvsToProvision s1 = pvsToProvision s2 ∧ errs s1 = errs s2 ∧
  resourceClient s1 = resourceClient s2 ∧
  (∀ client, resourceClient s1 = Some client → fromFactory client) ∧
  (resourceWatch s1 = None ↔ resourceWatch s2 = None).

(** Two outcomes of a step that are the same but for such states. *)
Definition alikeFlow {A} (r1 r2 : @flow World WatchT A) : Prop :=
  match r1, r2 with
  | Val a1 s1, Val a2 s2 => a1 = a2 ∧ alike s1 s2
  | Continue s1, Continue s2 => alike s1 s2
  | Return s1, Return s2 => alike s1 s2
  | Panic _, Panic _ => True
  | _, _ => False
  end.

(** Two outcomes of the body of a loop after which the loop goes on, or
    ends, in the same way. *)
Definition alikeEnd (r1 r2 : @flow World WatchT unit) : Prop :=
  match r1, r2 with
  | Val _ s1, Val _ s2 | Val _ s1, Continue s2
  | Continue s1, Val _ s2 | Continue s1, Continue s2 => alike s1 s2
  | Return s1, Return s2 => alike s1 s2
  | Panic _, Panic _ => True
  | _, _ => False
  end.

Definition steadyStep {A} (m : @M World WatchT A) : Prop :=
  ∀ s1 s2, alike s1 s2 → alikeFlow (m s1) (m s2).

Definition steadyEnd (m : @M World WatchT unit) : Prop :=
  ∀ s1 s2, alike s1 s2 → alikeEnd (m s1) (m s2).

Lemma alikeFlow_End (r1 r2 : @flow World WatchT unit) : alikeFlow r1 r2 → alikeEnd r1 r2.
Proof. destruct r1, r2; simpl; tauto. Qed.

Lemma steadyStep_End (m : @M World WatchT unit) : steadyStep m → steadyEnd m.
Proof. intros Hm s1 s2 Hal. by apply alikeFlow_End, Hm. Qed.

Lemma steady_ret {A} (a : A) : steadyStep (ret a).
Proof. by intros s1 s2 Hal. Qed.

Lemma steady_continue {A} : steadyStep (@continue World WatchT A).
Proof. by intros s1 s2 Hal. Qed.

Lemma steady_return {A} : steadyStep (@return_ World WatchT A).
Proof. by intros s1 s2 Hal. Qed.

Lemma steady_panic {A} : steadyStep (@panic World WatchT A).
Proof. by intros s1 s2 Hal. Qed.

Lemma steady_gets {A} (f : rstate → A) :
  (∀ s1 s2, alike s1 s2 → f s1 = f s2) → steadyStep (gets f).
Proof. intros Hf s1 s2 Hal. simpl. split; [by apply Hf|done]. Qed.

Lemma steady_modify (f : @rstate World WatchT → rstate) :
  (∀ s1 s2, alike s1 s2 → alike (f s1) (f s2)) → steadyStep (modify f).
Proof. intros Hf s1 s2 Hal. simpl. split; [done|by apply Hf]. Qed.

Lemma steady_call {A} (ev : @event WatchT) (f : World → A * World) :
  (∀ w w', (f w).1 = (f w').1) → steadyStep (call ev f).
Proof.
  intros Hf s1 s2 Hal. unfold call. specialize (Hf (world s1) (world s2)).
  destruct (f (world s1)) as [a1 w1], (f (world s2)) as [a2 w2]. simpl in *.
  split; [done|]. exact Hal.
Qed.

Lemma steady_bind {A B} (m : M A) (k : A → M B) :
  steadyStep m → (∀ a, steadyStep (k a)) → steadyStep (bind m k).
Proof.
  intros Hm Hk s1 s2 Hal. unfold bind. specialize (Hm s1 s2 Hal).
  destruct (m s1) as [a1 s1'|s1'|s1'|s1'], (m s2) as [a2 s2'|s2'|s2'|s2'];
    simpl in Hm; try done.
  destruct Hm as [<- Hal']. by apply Hk.
Qed.

(** The continuation may rely on a fact about the value and the state
    that the first step ends in. *)
Lemma steadyEnd_bind {A} (P : A → rstate → Prop) (m : M A) (k : A → M unit) :
  steadyStep m →
  (∀ s a s', m s = Val a s' → P a s') →
  (∀ a s1 s2, P a s1 → alike s1 s2 → alikeEnd (k a s1) (k a s2)) →
  steadyEnd (bind m k).
Proof.
  intros Hm HP Hk s1 s2 Hal. unfold bind. specialize (Hm s1 s2 Hal).
  pose proof (HP s1) as HP1.
  destruct (m s1) as [a1 s1'|s1'|s1'|s1'], (m s2) as [a2 s2'|s2'|s2'|s2'];
    simpl in Hm; try done.
  destruct Hm as [<- Hal']. apply Hk; [by apply HP1|done].
Qed.

Lemma steadyEnd_bind_plain {A} (m : M A) (k : A → M unit) :
  steadyStep m → (∀ a, steadyEnd (k a)) → steadyEnd (bind m k).
Proof.
  intros Hm Hk. apply (steadyEnd_bind (λ _ _, True)); [done|done|].
  intros a s1 s2 _ Hal. by apply Hk.
Qed.

Lemma steady_when (b : bool) (m : M unit) : steadyStep m → steadyStep (when b m).
Proof. intros Hm. destruct b; [exact Hm|apply steady_ret]. Qed.

Lemma steady_orContinue {A} (r : result A) onErr :
  (∀ err, steadyStep (onErr err)) → steadyStep (orContinue r onErr).
Proof.
  intros Hon. destruct r as [a|err]; unfold orContinue; [apply steady_ret|].
  apply steady_bind; [apply Hon|]. intros _. apply steady_continue.
Qed.

(** Changes of the state that keep two states alike. *)

Lemma alike_setErrs s1 s2 (f : RestoreResult → RestoreResult) :
  alike s1 s2 → alike (setErrs (f (errs s1)) s1) (setErrs (f (errs s2)) s2).
Proof. intros (? & He & ? & ? & ?). unfold alike. simpl. by rewrite He. Qed.

Lemma alike_setWarnings s1 s2 w1 w2 :
  alike s1 s2 → alike (setWarnings w1 s1) (setWarnings w2 s2).
Proof. by intros (? & ? & ? & ? & ?). Qed.

Lemma alike_setWorld s1 s2 w1 w2 ev1 ev2 :
  alike s1 s2 → alike (setWorld w1 ev1 s1) (setWorld w2 ev2 s2).
Proof. by intros (? & ? & ? & ? & ?). Qed.

Lemma steady_addToErrs ns e : steadyStep (@addToErrs World WatchT ns e).
Proof.
  apply steady_modify. intros s1 s2 Hal.
  apply (alike_setErrs s1 s2 (λ r, addToResult r ns e) Hal).
Qed.

Lemma steady_addToWarnings ns e : steadyStep (@addToWarnings World WatchT ns e).
Proof. apply steady_modify. intros s1 s2 Hal. by apply alike_setWarnings. Qed.

Lemma steady_logEvent ev : steadyStep (modify (@logEvent World WatchT ev)).
Proof. apply steady_modify. intros s1 s2 Hal. by apply alike_setWorld. Qed.

(** ** The steps of the restore of an item *)

Lemma getResourceClient_steady resource namespace obj :
  steadyStep (getResourceClient ctx resource namespace obj).
Proof.
  intros s1 s2 Hal. unfold getResourceClient, bind, gets.
  pose proof Hal as (Hp & He & Hc & Hf & Hw). rewrite <-Hc.
  destruct (resourceClient s1) as [c|] eqn:Hclient; [by split|].
  destruct (dynamicFactory ctx _ _ _) as [c|err] eqn:Hfactory; simpl.
  - split; [done|]. unfold alike. simpl. split_and!; try done.
    intros c' [= <-]. by eexists _, _, _.
  - unfold alike. simpl. rewrite He. split_and!; try done.
    + by rewrite Hclient.
    + intros c'. by rewrite Hclient.
Qed.

Lemma getResourceClient_client resource namespace obj s client s' :
  getResourceClient ctx resource namespace obj s = Val client s' →
  resourceClient s' = Some client.
Proof.
  unfold getResourceClient, bind, gets.
  destruct (resourceClient s) as [c|] eqn:Hclient; [by intros [= <- <-]|].
  destruct (dynamicFactory ctx _ _ _) as [c|err]; simpl; [|done].
  by intros [= <- <-].
Qed.

Section with_steady.
Hypothesis Hsteady : steady.

Lemma executePVAction_steady obj :
  steadyStep (@executePVAction World WatchT (pvRestorerOf ctx) obj).
Proof using Hsteady.
  unfold executePVAction.
  destruct (decide _); [apply steady_ret|].
  destruct (accessors.GetMap obj _); [|apply steady_ret].
  destruct (IsSetToFalse _); [apply steady_ret|].
  destruct (IsSetToFalse _); [apply steady_ret|].
  destruct (volumeBackups _ !! _); [|apply steady_ret].
  destruct (pvBlockStore _) as [blockStore|] eqn:Hstore; [|apply steady_ret].
  apply steady_bind.
  - apply steady_call. intros w w'. by apply Hsteady.
  - intros [volumeID|err]; [|apply steady_ret].
    destruct (SetVolumeID _ _ _) as [[updated|t]|err]; apply steady_ret.
Qed.

Lemma restorePersistentVolume_steady resource namespace client file name obj :
  fromFactory client →
  steadyStep (restorePersistentVolume ctx resource namespace client file name obj).
Proof using Hsteady.
  intros Hclient. unfold restorePersistentVolume.
  destruct (match accessors.GetString obj _ with Ok _ => _ | Err _ => _ end).
  { apply steady_bind; [|intros _; apply steady_continue].
    apply steady_modify. intros s1 s2 (Hp & ? & ? & ? & ?).
    unfold alike. simpl. rewrite Hp. by split_and!. }
  apply steady_bind; [apply steady_logEvent|intros _].
  apply steady_bind; [apply executePVAction_steady|intros r].
  apply steady_bind; [apply steady_orContinue; intros; apply steady_addToErrs|].
  intros updated s1 s2 Hal. rewrite !bind_gets.
  pose proof Hal as (Hp & He & Hc & Hf & Hw).
  destruct (resourceWatch s1) as [w1|] eqn:Hw1, (resourceWatch s2) as [w2|] eqn:Hw2;
    try (by destruct Hw as [H1 H2]; first [specialize (H1 eq_refl)|specialize (H2 eq_refl)]).
  - by split.
  - rewrite !bind_call.
    destruct Hsteady as (_ & Hwatch & _).
    specialize (Hwatch client (world s1) (world s2) Hclient).
    destruct (Watch client (world s1)) as [[w1|e1] world1],
             (Watch client (world s2)) as [[w2|e2] world2]; simpl in *; try done.
    injection Hwatch as <-. unfold alike. simpl. rewrite He. split_and!; try done.
Qed.

Lemma resetPersistentVolumeClaim_steady namespace obj :
  steadyStep (@resetPersistentVolumeClaim World WatchT namespace obj).
Proof.
  unfold resetPersistentVolumeClaim.
  apply steady_bind; [apply steady_orContinue; intros; apply steady_addToErrs|].
  intros spec. destruct (spec !! "volumeName") as [[]|]; try apply steady_panic;
    [|apply steady_ret].
  apply steady_bind; [apply steady_gets; by intros s1 s2 (? & _)|].
  intros toProvision. destruct (decide _); apply steady_ret.
Qed.

Lemma runActions_steady resource namespace file acts obj :
  steadyStep (runActions ctx resource namespace file acts obj).
Proof.
  revert obj. induction acts as [|a acts IH]; intros obj; simpl; [apply steady_ret|].
  destruct (negb _); [apply IH|].
  apply steady_bind; [apply steady_logEvent|intros _].
  destruct (Execute _ _ _) as [[updatedObj warning] err].
  apply steady_bind.
  { apply steady_when. unfold addToWarningsNilable.
    destruct (Wrapf _ _); [apply steady_addToWarnings|apply steady_panic]. }
  intros _. destruct err as [err|]; [|destruct updatedObj as [u|t]].
  - apply steady_bind; [apply steady_addToErrs|intros _; apply IH].
  - apply IH.
  - apply steady_bind; [apply steady_addToErrs|intros _; apply IH].
Qed.

(** The engine's fields that a step leaves as they are. *)
Definition sameFields : relation (@rstate World WatchT) :=
  λ s s', pvsToProvision s' = pvsToProvision s ∧ errs s' = errs s ∧
          resourceClient s' = resourceClient s ∧ resourceWatch s' = resourceWatch s ∧
          globalWaitGroup s' = globalWaitGroup s.

#[local] Instance sameFields_preorder : PreOrder sameFields.
Proof.
  split; [intros s; by unfold sameFields|].
  intros s1 s2 s3 (? & ? & ? & ? & ?) (? & ? & ? & ? & ?). unfold sameFields.
  split_and!; congruence.
Qed.

Lemma alike_sameFields s1 s2 s1' s2' :
  alike s1 s2 → sameFields s1 s1' → sameFields s2 s2' → alike s1' s2'.
Proof.
  intros (? & ? & ? & Hf & ?) (Hp1 & He1 & Hc1 & Hw1 & _) (Hp2 & He2 & Hc2 & Hw2 & _).
  unfold alike. rewrite Hp1, Hp2, He1, He2, Hc1, Hc2, Hw1, Hw2. by split_and!.
Qed.

(** An item that exists already: whatever the cluster holds, the engine
    goes on to the next item, with the errors and the pod-volume tasks as
    they were. *)
Lemma resolveAlreadyExists_continues resource namespace client name obj restoreErr s :
  ∃ s', resolveAlreadyExists X resource namespace client name obj restoreErr s
        = Continue s' ∧ sameFields s s'.
Proof.
  assert (Hwarn : ∀ e s0, sameFields s s0 →
            ∃ s', bind (addToWarnings namespace e) (λ _, @continue World WatchT unit) s0
                  = Continue s' ∧ sameFields s s').
  { intros e s0 Hs0. eexists. split; [reflexivity|]. etrans; [exact Hs0|done]. }
  assert (Hcont : ∀ s0, sameFields s s0 →
            ∃ s', @continue World WatchT unit s0 = Continue s' ∧ sameFields s s').
  { intros s0 Hs0. by exists s0. }
  assert (Hor : ∀ A (r : result A) (k : A → M unit) s0,
            sameFields s s0 →
            (∀ a, r = Ok a → ∃ s', k a s0 = Continue s' ∧ sameFields s s') →
            ∃ s', bind (orContinue r (λ err, addToWarnings namespace err)) k s0
                  = Continue s' ∧ sameFields s s').
  { intros A r k s0 Hs0 Hk. destruct r as [a|err]; [by apply Hk|].
    eexists. split; [reflexivity|]. etrans; [exact Hs0|done]. }
  unfold resolveAlreadyExists. rewrite bind_call.
  assert (Hs0 : sameFields s (setWorld (Get client name (world s), world s).2
                                (EvGet name) s)) by done.
  revert Hs0. generalize (setWorld (Get client name (world s), world s).2 (EvGet name) s).
  intros s0 Hs0. apply Hor; [done|]. intros fromCluster _.
  apply Hor; [done|]. intros stripped _.
  destruct (decide _); [by apply Hcont|].
  destruct (decide _).
  - apply Hor; [done|]. intros desired _.
    apply Hor; [done|]. intros [patchBytes|] _; [|by apply Hcont].
    rewrite bind_call.
    destruct (Patch client name patchBytes (world s0)) as [[err|] w']; simpl.
    + apply Hwarn. etrans; [exact Hs0|done].
    + apply Hcont. etrans; [exact Hs0|done].
  - by apply Hwarn.
Qed.

Lemma createItem_steady resource namespace client file name obj :
  fromFactory client →
  steadyEnd (createItem X ctx resource namespace client file name obj).
Proof using Hsteady.
  intros Hclient s1 s2 Hal. unfold createItem. rewrite !bind_call.
  destruct Hsteady as (Hcreate & _).
  specialize (Hcreate client obj (world s1) (world s2) Hclient).
  unfold createFailure in Hcreate.
  assert (Hexists : ∀ s restoreErr w,
            ∃ s', resolveAlreadyExists X resource namespace client name obj restoreErr
                    (setWorld w (EvCreate obj) s) = Continue s' ∧ sameFields s s').
  { intros s restoreErr w.
    destruct (resolveAlreadyExists_continues resource namespace client name obj restoreErr
                (setWorld w (EvCreate obj) s)) as (s' & Hres & Hsame).
    exists s'. split; [done|]. etrans; [|exact Hsame]. done. }
  assert (Hcreated : ∀ s w createdObj,
            ∃ s', when (bool_decide (groupResource resource = kuberesource.Pods)
                        && negb (bool_decide (size (GetPodSnapshotAnnotations X obj) = 0)))
                    (match resticRestorer ctx with
                     | None => ret tt
                     | Some _ => modify (goRestorePodVolumes createdObj)
                     end) (setWorld w (EvCreate obj) s) = Val tt s'
                  ∧ pvsToProvision s' = pvsToProvision s ∧ errs s' = errs s
                  ∧ resourceClient s' = resourceClient s
                  ∧ resourceWatch s' = resourceWatch s).
  { intros s w createdObj. destruct (_ && _); simpl; [|by eexists].
    destruct (resticRestorer ctx); by eexists. }
  assert (Hal' : ∀ s1' s2',
            (pvsToProvision s1' = pvsToProvision s1 ∧ errs s1' = errs s1
             ∧ resourceClient s1' = resourceClient s1
             ∧ resourceWatch s1' = resourceWatch s1) →
            (pvsToProvision s2' = pvsToProvision s2 ∧ errs s2' = errs s2
             ∧ resourceClient s2' = resourceClient s2
             ∧ resourceWatch s2' = resourceWatch s2) →
            alike s1' s2').
  { intros s1' s2' (Hp1 & He1 & Hc1 & Hw1) (Hp2 & He2 & Hc2 & Hw2).
    destruct Hal as (? & ? & ? & ? & ?).
    unfold alike. rewrite Hp1, Hp2, He1, He2, Hc1, Hc2, Hw1, Hw2. by split_and!. }
  assert (Hsame : ∀ s s', sameFields s s' →
            pvsToProvision s' = pvsToProvision s ∧ errs s' = errs s
            ∧ resourceClient s' = resourceClient s ∧ resourceWatch s' = resourceWatch s)
    by (intros s s' (? & ? & ? & ? & ?); by split_and!).
  destruct (Create client obj (world s1)) as [[created1|err1] w1],
           (Create client obj (world s2)) as [[created2|err2] w2]; cbn [fst snd] in *.
  - destruct (Hcreated s1 w1 created1) as (s1' & -> & H1).
    destruct (Hcreated s2 w2 created2) as (s2' & -> & H2). simpl. by apply Hal'.
  - destruct (IsAlreadyExists err2) eqn:Hae; [|done].
    destruct (Hcreated s1 w1 created1) as (s1' & -> & H1).
    destruct (Hexists s2 err2 w2) as (s2' & -> & H2).
    simpl. apply Hal'; [done|by apply Hsame].
  - destruct (IsAlreadyExists err1) eqn:Hae; [|done].
    destruct (Hexists s1 err1 w1) as (s1' & -> & H1).
    destruct (Hcreated s2 w2 created2) as (s2' & -> & H2).
    simpl. apply Hal'; [by apply Hsame|done].
  - destruct (IsAlreadyExists err1) eqn:Hae1, (IsAlreadyExists err2) eqn:Hae2;
      try done.
    + destruct (Hexists s1 err1 w1) as (s1' & -> & H1).
      destruct (Hexists s2 err2 w2) as (s2' & -> & H2).
      simpl. apply Hal'; by apply Hsame.
    + injection Hcreate as Herr. unfold bind, addToErrs, modify, continue. simpl.
      rewrite Herr. destruct Hal as (Hp & He & Hc & Hf & Hw).
      unfold alike. simpl. rewrite He. by split_and!.
Qed.

Lemma restoreItem_steady archiveReader resource namespace file :
  steadyEnd (restoreItem X ctx archiveReader resource namespace file).
Proof using Hsteady.
  unfold restoreItem.
  apply steadyEnd_bind_plain;
    [apply steady_orContinue; intros; apply steady_addToErrs|intros bytes].
  apply steadyEnd_bind_plain;
    [apply steady_orContinue; intros; apply steady_addToErrs|intros obj].
  apply steadyEnd_bind_plain; [apply steady_when, steady_continue|intros _].
  apply steadyEnd_bind_plain;
    [apply steady_orContinue; intros; apply steady_addToErrs|intros complete].
  apply steadyEnd_bind_plain; [apply steady_when, steady_continue|intros _].
  apply (steadyEnd_bind (λ client s, resourceClient s = Some client));
    [apply getResourceClient_steady|apply getResourceClient_client|].
  intros client s1 s2 Hset Hal.
  assert (Hclient : fromFactory client) by (destruct Hal as (_ & _ & _ & Hf & _); auto).
  clear Hset. revert s1 s2 Hal.
  match goal with |- ∀ s1 s2, alike s1 s2 → alikeEnd (?m s1) (?m s2) =>
    change (steadyEnd m) end.
  apply steadyEnd_bind_plain; [apply steady_when, steady_continue|intros _].
  apply steadyEnd_bind_plain.
  { destruct (decide _); [by apply restorePersistentVolume_steady|apply steady_ret]. }
  intros obj1. apply steadyEnd_bind_plain.
  { destruct (decide _); [apply resetPersistentVolumeClaim_steady|apply steady_ret]. }
  intros obj2. apply steadyEnd_bind_plain; [apply runActions_steady|intros obj3].
  apply steadyEnd_bind_plain;
    [apply steady_orContinue; intros; apply steady_addToErrs|intros obj4].
  by apply createItem_steady.
Qed.

Lemma forEach_steady {A} (body : A → M unit) (xs : list A) :
  (∀ x, steadyEnd (body x)) → steadyEnd (forEach body xs).
Proof.
  intros Hbody. induction xs as [|x xs IH]; intros s1 s2 Hal; simpl; [done|].
  specialize (Hbody x s1 s2 Hal).
  destruct (body x s1) as [[] s1'|s1'|s1'|s1'], (body x s2) as [[] s2'|s2'|s2'|s2'];
    simpl in Hbody; try done; by apply IH.
Qed.

(** ** The calls of [restoreResource] and the loops around them *)

(** Two results of [restoreResource], or none when both calls panic. *)
Definition alikeResult (r1 r2 : option (@rstate World WatchT)) : Prop :=
  match r1, r2 with
  | Some s1, Some s2 => pvsToProvision s1 = pvsToProvision s2 ∧ errs s1 = errs s2
  | None, None => True
  | _, _ => False
  end.

Lemma restoreResource_steady archiveReader resource namespace s1 s2 :
  pvsToProvision s1 = pvsToProvision s2 →
  alikeResult (restoreResource X ctx archiveReader resource namespace s1)
    (restoreResource X ctx archiveReader resource namespace s2).
Proof using Hsteady.
  intros Hp. unfold restoreResource.
  assert (Hfresh : alike (freshLocals s1) (freshLocals s2)).
  { unfold alike. simpl. by split_and!. }
  destruct (_ && _); [by split|].
  destruct (archive.readerListContents _ _ _) as [files|err]; [|by split].
  destruct files as [|file files]; [by split|].
  pose proof (forEach_steady (restoreItem X ctx archiveReader resource namespace)
                (file :: files)
                (restoreItem_steady archiveReader resource namespace)
                _ _ Hfresh) as Hloop.
  destruct (forEach _ _ (freshLocals s1)) as [[] s1'|s1'|s1'|s1'],
           (forEach _ _ (freshLocals s2)) as [[] s2'|s2'|s2'|s2'];
    simpl in Hloop; try done;
    destruct Hloop as (? & ? & _); simpl;
    by rewrite !pvsToProvision_returned, !errs_returned.
Qed.

Lemma restoreNamespaces_steady archiveReader namespaceFilter resource namespaces
    accWarnings1 accWarnings2 accErrs existing s1 s2 :
  pvsToProvision s1 = pvsToProvision s2 →
  match restoreNamespaces X ctx archiveReader namespaceFilter resource namespaces
          accWarnings1 accErrs existing s1,
        restoreNamespaces X ctx archiveReader namespaceFilter resource namespaces
          accWarnings2 accErrs existing s2 with
  | Some (_, e1, existing1, s1'), Some (_, e2, existing2, s2') =>
      e1 = e2 ∧ existing1 = existing2 ∧ pvsToProvision s1' = pvsToProvision s2'
  | None, None => True
  | _, _ => False
  end.
Proof using Hsteady.
  revert accWarnings1 accWarnings2 accErrs existing s1 s2.
  induction namespaces as [|nsName namespaces IH];
    intros accWarnings1 accWarnings2 accErrs existing s1 s2 Hp; simpl; [done|].
  destruct (negb _); [by apply IH|].
  unfold ensureNamespace. destruct (decide (_ ∈ existing)).
  - pose proof (restoreResource_steady archiveReader resource
                  (default nsName (NamespaceMapping (restore ctx) !! nsName)) s1 s2 Hp)
      as Hres.
    destruct (restoreResource _ _ _ _ _ s1) as [s1'|],
             (restoreResource _ _ _ _ _ s2) as [s2'|]; simpl in Hres; try done.
    destruct Hres as [Hp' He']. rewrite He'. by apply IH.
  - destruct Hsteady as (_ & _ & Hensure & _).
    match goal with |- context [EnsureNamespaceExists X ?ns (world s1)] =>
      specialize (Hensure ns (world s1) (world s2));
      destruct (EnsureNamespaceExists X ns (world s1)) as [[b1|e1] w1],
               (EnsureNamespaceExists X ns (world s2)) as [[b2|e2] w2] end;
      simpl in Hensure; try done.
    + match goal with |- context [restoreResource X ctx archiveReader resource ?ns ?s] =>
        pose proof (restoreResource_steady archiveReader resource ns
                      (setWorld w1 (EvEnsureNamespaceExists
                         (getNamespace (UnmarshalNamespace X) archiveReader nsName ns)) s1)
                      (setWorld w2 (EvEnsureNamespaceExists
                         (getNamespace (UnmarshalNamespace X) archiveReader nsName ns)) s2)
                      Hp) as Hres end.
      destruct (restoreResource _ _ _ _ _ (setWorld w1 _ s1)) as [s1'|],
               (restoreResource _ _ _ _ _ (setWorld w2 _ s2)) as [s2'|];
        simpl in Hres; try done.
      destruct Hres as [Hp' He']. rewrite He'. by apply IH.
    + injection Hensure as <-. by apply IH.
Qed.

Lemma restoreResources_steady archiveReader namespaceFilter resources
    accWarnings1 accWarnings2 accErrs existing s1 s2 :
  pvsToProvision s1 = pvsToProvision s2 →
  match restoreResources X ctx archiveReader namespaceFilter resources
          accWarnings1 accErrs existing s1,
        restoreResources X ctx archiveReader namespaceFilter resources
          accWarnings2 accErrs existing s2 with
  | Some (ended1, _, e1, s1'), Some (ended2, _, e2, s2') =>
      ended1 = ended2 ∧ e1 = e2 ∧ pvsToProvision s1' = pvsToProvision s2'
  | None, None => True
  | _, _ => False
  end.
Proof using Hsteady.
  revert accWarnings1 accWarnings2 accErrs existing s1 s2.
  induction resources as [|resource resources IH];
    intros accWarnings1 accWarnings2 accErrs existing s1 s2 Hp; simpl; [done|].
  destruct (decide _); [by apply IH|].
  destruct (archive.readerGetResourceScope _ _) as [[scope [|]]|err];
    [|by apply IH|done].
  destruct (String.eqb _ _).
  - pose proof (restoreResource_steady archiveReader (GroupResource_String resource) ""
                  s1 s2 Hp) as Hres.
    destruct (restoreResource _ _ _ _ _ s1) as [s1'|],
             (restoreResource _ _ _ _ _ s2) as [s2'|]; simpl in Hres; try done.
    destruct Hres as [Hp' He']. rewrite He'. by apply IH.
  - destruct (archive.readerListNamespaces _ _) as [namespaces|err]; [|done].
    pose proof (restoreNamespaces_steady archiveReader namespaceFilter
                  (GroupResource_String resource) namespaces
                  accWarnings1 accWarnings2 accErrs existing s1 s2 Hp) as Hns.
    destruct (restoreNamespaces _ _ _ _ _ _ accWarnings1 _ _ s1)
      as [[[[w1 e1] existing1] s1']|],
             (restoreNamespaces _ _ _ _ _ _ accWarnings2 _ _ s2)
      as [[[[w2 e2] existing2] s2']|]; simpl in Hns; try done.
    destruct Hns as (-> & -> & Hp'). by apply IH.
Qed.

Lemma globalWaitGroup_stopWatches s :
  globalWaitGroup (stopWatches s) = globalWaitGroup s.
Proof.
  unfold stopWatches. generalize (resourceWatches s) as ws. intros ws. revert s.
  induction ws as [|w ws IH]; intros s; simpl; [done|]. by rewrite IH.
Qed.

(** Two runs of [restoreFromArchive] on an archive, from two states of
    the cluster: both panic or both return; they return the same errors
    under each namespace and for the cluster, and the same system errors
    up to those of the pod-volume restores that each run has started. *)
Lemma restoreFromArchive_steady archiveReader w1 w2 :
  match restoreFromArchive X ctx archiveReader (initialState w1),
        restoreFromArchive X ctx archiveReader (initialState w2) with
  | Some (_, errs1, s1), Some (_, errs2, s2) =>
      Cluster errs1 = Cluster errs2 ∧ Namespaces errs1 = Namespaces errs2 ∧
      ∃ loop wait1 wait2,
        Ark errs1 = loop ++ wait1 ∧ Ark errs2 = loop ++ wait2 ∧
        (globalWaitGroup s1 = [] → wait1 = []) ∧
        (globalWaitGroup s2 = [] → wait2 = [])
  | None, None => True
  | _, _ => False
  end.
Proof using Hsteady.
  unfold restoreFromArchive.
  match goal with |- context [restoreResources X ctx archiveReader ?f ?rs ?aw ?ae ?ex _] =>
    pose proof (restoreResources_steady archiveReader f rs aw aw ae ex
                  (initialState w1) (initialState w2) eq_refl) as Hloop;
    destruct (restoreResources X ctx archiveReader f rs aw ae ex (initialState w1))
      as [[[[ended1 aw1] ae1] s1]|],
             (restoreResources X ctx archiveReader f rs aw ae ex (initialState w2))
      as [[[[ended2 aw2] ae2] s2]|] end; simpl in Hloop; try done.
  destruct Hloop as (<- & <- & _). destruct ended1.
  - destruct (waitGlobal X ctx (globalWaitGroup s1) (world s1)) as [wait1 w1'] eqn:Hwait1.
    destruct (waitGlobal X ctx (globalWaitGroup s2) (world s2)) as [wait2 w2'] eqn:Hwait2.
    simpl. split; [done|]. split; [done|].
    exists (Ark ae1), wait1, wait2. split; [done|]. split; [done|].
    rewrite !globalWaitGroup_stopWatches. simpl. split.
    + intros Hnone. rewrite Hnone in Hwait1. simpl in Hwait1. by injection Hwait1 as <- _.
    + intros Hnone. rewrite Hnone in Hwait2. simpl in Hwait2. by injection Hwait2 as <- _.
  - split; [done|]. split; [done|].
    exists (Ark ae1), [], []. by rewrite !app_nil_r.
Qed.

End with_steady.


End second_pass.

Section second_pass_examples.
Import schema discovery collections unstructured labels api restore.

(** The test double of the cluster fails in no way that depends on its
    state: its creations succeed or answer "already exists", its watches
    open, its namespaces are ensured, and there is no block store. *)
Lemma fake_steady (items : list item) (restore : api.Restore) (backup : Backup)
    (prioritized : list GroupResource) (actions : list resolvedAction) :
  steady (fakeExternals items) (fakeContext restore backup prioritized actions).
Proof.
  split_and!.
  - intros client obj w w' (gv & apiResource & namespace & [= <-]).
    unfold createFailure, fakeClient. simpl.
    by destruct (w !! _), (w' !! _).
  - by intros client w w' (gv & apiResource & namespace & [= <-]).
  - done.
  - done.
Qed.


(** A client of the config maps of a namespace in a cluster that admits
    one object and checks this quota before it looks whether the object to
    create exists. *)
Definition quotaClient (namespace : string) : @Dynamic cluster string :=
  let client := fakeClient "configmaps" namespace in
  mkDynamic
    (λ obj w,
       if decide (w = ∅) then Create client obj w
       else (inr (mkApiError false
                    ("configmaps " +:+ quoted (GetName obj)
                     +:+ " is forbidden: exceeded quota")), w))
    (Get client) (Patch client) (Watch client) (ResultChan client).

Definition quotaPass (w : cluster) :=
  restoreFromArchive
    (fakeExternals [mkItem "configmaps" "ns-1" "cm1.json" (Ok (configMap "backup"))])
    (mkContext (fakeBackup ∅) fakeRestore [mkGR "" "configmaps"] Everything
       (λ _ _ namespace, Ok (quotaClient namespace)) [] None
       (mkPVRestorer None None ∅ None))
    (fakeReader [mkItem "configmaps" "ns-1" "cm1.json" (Ok (configMap "backup"))])
    (initialState w).


End second_pass_examples.


(** * Results and the helpers on documents *)
Section results.
Import schema unstructured api restore.
Implicit Types (a b c r : RestoreResult) (obj : Unstructured).

Lemma RestoreResult_eq a b :
  Ark a = Ark b → Cluster a = Cluster b → Namespaces a = Namespaces b → a = b.
Proof. destruct a, b; simpl; by intros -> -> ->. Qed.

Lemma lookup_merge a b ns :
  Namespaces (merge a b) !! ns
  = match Namespaces a !! ns, Namespaces b !! ns with
    | Some x, Some y => Some (x ++ y)
    | Some x, None => Some x
    | None, y => y
    end.
Proof.
  unfold merge; simpl. rewrite lookup_union_with.
  by destruct (Namespaces a !! ns), (Namespaces b !! ns).
Qed.

(** X1. [merge] is associative and has the empty result as its unit on
    both sides: the results of the calls of [restoreResource] can be
    accumulated in any grouping. *)
Theorem merge_monoid a b c :
  merge emptyResult a = a ∧ merge a emptyResult = a ∧
  merge (merge a b) c = merge a (merge b c).
Proof.
  split; [|split]; apply RestoreResult_eq; simpl;
    rewrite ?app_nil_r, <-?app_assoc; try done.
  - apply map_eq; intros ns. rewrite lookup_union_with, lookup_empty.
    by destruct (Namespaces a !! ns).
  - apply map_eq; intros ns. rewrite lookup_union_with, lookup_empty.
    by destruct (Namespaces a !! ns).
  - apply map_eq; intros ns. rewrite !lookup_union_with.
    destruct (Namespaces a !! ns), (Namespaces b !! ns), (Namespaces c !! ns);
      simpl; by rewrite <-?app_assoc.
Qed.

(** X2. Recording a message in a result and merging that result into an
    accumulator gives the accumulator merged first with the message
    recorded afterwards, for the messages of a namespace or of the cluster
    ([addToResult]) and for the system messages ([addArkError]). *)
Theorem record_then_merge a b ns e :
  merge a (addToResult b ns e) = addToResult (merge a b) ns e ∧
  merge a (addArkError b e) = addArkError (merge a b) e.
Proof.
  split; [|apply RestoreResult_eq; simpl; by rewrite <-?app_assoc].
  unfold addToResult. destruct (decide (ns = "")).
  - apply RestoreResult_eq; simpl; by rewrite <-?app_assoc.
  - apply RestoreResult_eq; [done|done|].
    apply map_eq; intros k. rewrite lookup_merge. cbn [Namespaces].
    destruct (decide (k = ns)) as [->|Hk].
    + rewrite !lookup_insert_eq, lookup_merge.
      destruct (Namespaces a !! ns), (Namespaces b !! ns); simpl;
        by rewrite <-?app_assoc.
    + rewrite !lookup_insert_ne by done. by rewrite lookup_merge.
Qed.

(** ** [resetMetadataAndStatus] *)

Definition coreMetadata : list string := ["name"; "namespace"; "labels"; "annotations"].

Lemma GetMap_field obj field :
  accessors.GetMap obj [field]
  = match obj !! field with
    | None => Err ("key " +:+ field +:+ " not found")
    | Some (VMap m) => Ok m
    | Some _ => Err "value is not a map[string]interface{}"
    end.
Proof.
  unfold accessors.GetMap, accessors.GetValue, accessors.getValue.
  by destruct (obj !! field) as [[]|].
Qed.

Lemma resetMetadataAndStatus_Ok obj reset :
  resetMetadataAndStatus obj = Ok reset →
  ∃ metadata,
    obj !! "metadata" = Some (VMap metadata) ∧
    reset = delete "status"
              (<["metadata" := VMap (filter (λ kv, kv.1 ∈ coreMetadata) metadata)]> obj).
Proof.
  unfold resetMetadataAndStatus. rewrite GetMap_field.
  destruct (obj !! "metadata") as [[]|]; try done.
  intros [= <-]. by eexists.
Qed.

(** X3. When [resetMetadataAndStatus] succeeds, the result has no status,
    its metadata holds the name, namespace, labels and annotations of the
    document and nothing else, every other field is as it was, and a
    second call changes nothing. It fails, with the error of the accessor,
    exactly when the metadata of the document is missing or is not a
    map. *)
Theorem resetMetadataAndStatus_idempotent obj :
  match resetMetadataAndStatus obj with
  | Ok reset =>
      reset !! "status" = None ∧
      (∃ metadata kept,
         obj !! "metadata" = Some (VMap metadata) ∧
         reset !! "metadata" = Some (VMap kept) ∧
         ∀ k, kept !! k = if decide (k ∈ coreMetadata) then metadata !! k else None) ∧
      (∀ k, k ≠ "metadata" → k ≠ "status" → reset !! k = obj !! k) ∧
      resetMetadataAndStatus reset = Ok reset
  | Err _ => ∀ metadata, obj !! "metadata" ≠ Some (VMap metadata)
  end.
Proof.
  destruct (resetMetadataAndStatus obj) as [reset|err] eqn:Hreset.
  - apply resetMetadataAndStatus_Ok in Hreset as (metadata & Hm & ->).
    split; [by rewrite lookup_delete_eq|]. split; [|split].
    + exists metadata, (filter (λ kv, kv.1 ∈ coreMetadata) metadata).
      split; [done|]. split; [by rewrite lookup_delete_ne, lookup_insert_eq|].
      intros k. destruct (decide (k ∈ coreMetadata)) as [Hk|Hk].
      * destruct (metadata !! k) as [v|] eqn:Hv.
        -- by apply map_lookup_filter_Some.
        -- apply map_lookup_filter_None. by left.
      * apply map_lookup_filter_None. right. intros v _. exact Hk.
    + intros k Hk1 Hk2. by rewrite lookup_delete_ne, lookup_insert_ne.
    + unfold resetMetadataAndStatus. rewrite GetMap_field.
      rewrite lookup_delete_ne, lookup_insert_eq by done. f_equal.
      assert (Hagain :
        filter (λ kv : string * value, kv.1 ∈ coreMetadata)
          (filter (λ kv : string * value, kv.1 ∈ coreMetadata) metadata)
        = filter (λ kv : string * value, kv.1 ∈ coreMetadata) metadata).
      { rewrite map_filter_filter. apply map_filter_ext. intros; simpl; tauto. }
      unfold coreMetadata in *. rewrite Hagain.
      apply map_eq; intros k.
      destruct (decide (k = "status")) as [->|Hs]; [by rewrite !lookup_delete_eq|].
      rewrite !lookup_delete_ne by done.
      destruct (decide (k = "metadata")) as [->|Hm']; [by rewrite !lookup_insert_eq|].
      rewrite !lookup_insert_ne by done. by rewrite lookup_delete_ne, lookup_insert_ne.
  - unfold resetMetadataAndStatus in Hreset. rewrite GetMap_field in Hreset.
    intros metadata Hm. by rewrite Hm in Hreset.
Qed.

(** ** [addRestoreLabels] *)

Lemma NestedFieldNoCopy_metadata obj metadata field :
  obj !! "metadata" = Some (VMap metadata) →
  NestedFieldNoCopy obj ["metadata"; field] = Ok (metadata !! field).
Proof.
  intros Hm. unfold NestedFieldNoCopy. simpl. rewrite Hm.
  by destruct (metadata !! field).
Qed.

Lemma SetLabels_metadata obj metadata labels :
  obj !! "metadata" = Some (VMap metadata) →
  SetLabels obj labels
  = <["metadata" := VMap (<["labels" := VMap (VStr <$> labels)]> metadata)]> obj.
Proof. intros Hm. unfold SetLabels, setNestedField2. by rewrite Hm. Qed.

Lemma omap_asString_VStr (labels : gmap string string) :
  omap asString (VStr <$> labels) = labels.
Proof.
  apply map_eq; intros k. rewrite lookup_omap, lookup_fmap.
  by destruct (labels !! k).
Qed.

Lemma GetLabels_SetLabels obj metadata labels :
  obj !! "metadata" = Some (VMap metadata) →
  GetLabels (SetLabels obj labels) = Some labels.
Proof.
  intros Hm. rewrite (SetLabels_metadata _ _ _ Hm).
  unfold GetLabels, NestedStringMap.
  erewrite NestedFieldNoCopy_metadata by apply lookup_insert_eq.
  rewrite lookup_insert_eq. rewrite decide_True.
  - by rewrite omap_asString_VStr.
  - intros k v. rewrite lookup_fmap. destruct (labels !! k); [|done].
    intros [= <-]. by eexists.
Qed.

(** The three labels set on top of the labels at hand. *)
Definition withRestoreLabels (labels : gmap string string)
    (restoreName backupName : string) : gmap string string :=
  <[RestoreLabelKey := restoreName]>
    (<[RestoreNameLabel := restoreName]> (<[BackupNameLabel := backupName]> labels)).

Lemma withRestoreLabels_again labels restoreName backupName :
  withRestoreLabels (withRestoreLabels labels restoreName backupName) restoreName backupName
  = withRestoreLabels labels restoreName backupName.
Proof.
  unfold withRestoreLabels. apply map_eq; intros k.
  destruct (decide (k = RestoreLabelKey)) as [->|H1]; [by rewrite !lookup_insert_eq|].
  destruct (decide (k = RestoreNameLabel)) as [->|H2];
    [by rewrite !(lookup_insert_ne _ RestoreLabelKey), !lookup_insert_eq|].
  destruct (decide (k = BackupNameLabel)) as [->|H3].
  - by rewrite !(lookup_insert_ne _ RestoreLabelKey),
         !(lookup_insert_ne _ RestoreNameLabel), !lookup_insert_eq.
  - by rewrite !lookup_insert_ne.
Qed.

(** X4. On a document whose metadata is a map, [addRestoreLabels] sets the
    backup-name label and the two restore-name labels and keeps every
    other label; the name, the namespace, the annotations and the fields
    outside the metadata stay as they are, and labelling again with the
    same names changes nothing. *)
Theorem addRestoreLabels_labels obj metadata restoreName backupName :
  obj !! "metadata" = Some (VMap metadata) →
  let labelled := addRestoreLabels obj restoreName backupName in
  (∃ labels,
     GetLabels labelled = Some labels ∧
     labels !! BackupNameLabel = Some backupName ∧
     labels !! RestoreNameLabel = Some restoreName ∧
     labels !! RestoreLabelKey = Some restoreName ∧
     ∀ k, k ∉ [BackupNameLabel; RestoreNameLabel; RestoreLabelKey] →
          labels !! k = default ∅ (GetLabels obj) !! k) ∧
  GetName labelled = GetName obj ∧
  GetNamespace labelled = GetNamespace obj ∧
  GetAnnotations labelled = GetAnnotations obj ∧
  (∀ k, k ≠ "metadata" → labelled !! k = obj !! k) ∧
  addRestoreLabels labelled restoreName backupName = labelled.
Proof.
  intros Hm labelled.
  assert (Hlabelled : labelled
            = SetLabels obj (withRestoreLabels (default ∅ (GetLabels obj))
                               restoreName backupName)) by done.
  assert (Hmeta : labelled !! "metadata"
            = Some (VMap (<["labels" :=
                 VMap (VStr <$> withRestoreLabels (default ∅ (GetLabels obj))
                                  restoreName backupName)]> metadata))).
  { rewrite Hlabelled, (SetLabels_metadata _ _ _ Hm). apply lookup_insert_eq. }
  assert (Hfield : ∀ field, field ≠ "labels" →
            NestedFieldNoCopy labelled ["metadata"; field]
            = NestedFieldNoCopy obj ["metadata"; field]).
  { intros field Hf.
    rewrite (NestedFieldNoCopy_metadata _ _ _ Hmeta), (NestedFieldNoCopy_metadata _ _ _ Hm).
    by rewrite lookup_insert_ne. }
  assert (Hlabels : GetLabels labelled
            = Some (withRestoreLabels (default ∅ (GetLabels obj)) restoreName backupName))
    by (rewrite Hlabelled; by eapply GetLabels_SetLabels).
  split; [|split; [|split; [|split; [|split]]]].
  - eexists. split; [exact Hlabels|]. unfold withRestoreLabels.
    split; [by rewrite (lookup_insert_ne _ RestoreLabelKey),
                 (lookup_insert_ne _ RestoreNameLabel), lookup_insert_eq|].
    split; [by rewrite (lookup_insert_ne _ RestoreLabelKey), lookup_insert_eq|].
    split; [by rewrite lookup_insert_eq|].
    intros k Hk. rewrite !lookup_insert_ne; [done|..]; intros <-; apply Hk; set_solver.
  - unfold GetName, getNestedString, NestedString. by rewrite Hfield.
  - unfold GetNamespace, getNestedString, NestedString. by rewrite Hfield.
  - unfold GetAnnotations, NestedStringMap. by rewrite Hfield.
  - intros k Hk. rewrite Hlabelled, (SetLabels_metadata _ _ _ Hm).
    by rewrite lookup_insert_ne.
  - unfold addRestoreLabels at 1. fold labelled. rewrite Hlabels. simpl.
    fold (withRestoreLabels
            (withRestoreLabels (default ∅ (GetLabels obj)) restoreName backupName)
            restoreName backupName).
    rewrite withRestoreLabels_again, (SetLabels_metadata _ _ _ Hmeta).
    rewrite insert_insert_eq.
    rewrite Hlabelled at 2. rewrite (SetLabels_metadata _ _ _ Hm).
    apply map_eq; intros k.
    destruct (decide (k = "metadata")) as [->|Hk].
    + by rewrite !lookup_insert_eq.
    + rewrite !lookup_insert_ne by done.
      rewrite Hlabelled, (SetLabels_metadata _ _ _ Hm). by rewrite lookup_insert_ne.
Qed.

(** ** [waitForReady] *)

(** X5. What [waitForReady] returns is decided by the events up to the
    first one that ends the wait: on a sequence of events followed by
    another, it returns what it returns on the first sequence when that
    ends the wait, and goes on with the second sequence otherwise. *)
Theorem waitForReady_app ticks more name ready timeout :
  waitForReady (ticks ++ more) name ready timeout
  = match waitForReady ticks name ready timeout with
    | Some r => Some r
    | None => waitForReady more name ready timeout
    end.
Proof.
  induction ticks as [|[event|] ticks IH]; simpl; [done| |].
  - destruct (evType event); try apply IH.
    + destruct (evObject event) as [o|]; [|apply IH].
      destruct (negb (String.eqb (GetName o) name)); [apply IH|].
      by destruct (negb (ready o)).
    + destruct (evObject event) as [o|]; [|apply IH].
      destruct (negb (String.eqb (GetName o) name)); [apply IH|].
      by destruct (negb (ready o)).
  - by destruct (decide (timeout = 0%Z)).
Qed.

(** X6. With a timeout of zero [waitForReady] never gives up: whatever it
    receives, it does not return the timeout error, and the only error it
    ever returns, with any timeout, is the timeout error. *)
Theorem waitForReady_zero_timeout ticks name ready :
  (∀ err, waitForReady ticks name ready 0 ≠ Some (Err err)) ∧
  (∀ timeout err,
     waitForReady ticks name ready timeout = Some (Err err) →
     timeout ≠ 0%Z ∧
     err = "failed to observe item becoming ready within the timeout").
Proof.
  split.
  - induction ticks as [|[event|] ticks IH]; simpl; intros err; [done| |].
    + destruct (evType event); try apply IH.
      * destruct (evObject event) as [o|]; [|apply IH].
        destruct (negb (String.eqb (GetName o) name)); [apply IH|].
        by destruct (negb (ready o)).
      * destruct (evObject event) as [o|]; [|apply IH].
        destruct (negb (String.eqb (GetName o) name)); [apply IH|].
        by destruct (negb (ready o)).
    + apply IH.
  - intros timeout err.
    induction ticks as [|[event|] ticks IH]; simpl; [done| |].
    + destruct (evType event); try apply IH.
      * destruct (evObject event) as [o|]; [|apply IH].
        destruct (negb (String.eqb (GetName o) name)); [apply IH|].
        by destruct (negb (ready o)).
      * destruct (evObject event) as [o|]; [|apply IH].
        destruct (negb (String.eqb (GetName o) name)); [apply IH|].
        by destruct (negb (ready o)).
    + destruct (decide (timeout = 0%Z)); [apply IH|]. by intros [= <-].
Qed.

(** ** The resource type of a call of [restoreResource] *)

Lemma cut_absent (sep : ascii) (s : string) : count_char sep s = 0 → cut sep s = None.
Proof.
  induction s as [|ch s IH]; simpl; [done|].
  destruct (Ascii.eqb ch sep); [done|]. intros H. by rewrite IH.
Qed.

Lemma cut_first (sep : ascii) (before after : string) :
  count_char sep before = 0 →
  cut sep (before +:+ String sep after) = Some (before, after).
Proof.
  induction before as [|ch before IH]; simpl.
  - by rewrite Ascii.eqb_refl.
  - destruct (Ascii.eqb ch sep); [done|]. intros H. by rewrite IH.
Qed.

(** X7. [restoreFromArchive] hands a resource type to [restoreResource] as
    the string of [GroupResource.String], and [restoreResource] parses it
    back: for a resource name without a dot, the resource type that
    [restoreResource] compares with the special-cased types is the one
    that [restoreFromArchive] took from the prioritised list. *)
Theorem groupResource_String gr :
  count_char "." (Resource gr) = 0 →
  groupResource (GroupResource_String gr) = gr.
Proof.
  intros Hdot. destruct gr as [group resource]; simpl in *.
  unfold groupResource, ParseGroupResource, GroupResource_String; simpl.
  destruct (decide (group = "")) as [->|Hgroup].
  - by rewrite cut_absent.
  - change (resource +:+ "." +:+ group) with (resource +:+ String "." group).
    by rewrite cut_first.
Qed.

End results.

Section results_examples.
Import schema unstructured api restore.

(** X4, witness: a config map in the namespace [ns-1]. *)
Lemma addRestoreLabels_labels_witness :
  let obj := document "ConfigMap" "cm1" "ns-1" [("data", VMap {[ "key" := VStr "v" ]})] in
  let labelled := addRestoreLabels obj "restore-1" "backup-1" in
  GetName labelled = GetName obj ∧
  addRestoreLabels labelled "restore-1" "backup-1" = labelled.
Proof.
  intros obj labelled.
  destruct (addRestoreLabels_labels obj
              (list_to_map [("name", VStr "cm1"); ("uid", VStr "0a1b");
                            ("namespace", VStr "ns-1")])
              "restore-1" "backup-1" eq_refl) as (_ & Hname & _ & _ & _ & Hagain).
  split; [exact Hname|exact Hagain].
Defined.

(** X7, witness: the deployments of the group [apps]. *)
Lemma groupResource_String_witness :
  groupResource "deployments.apps" = mkGR "apps" "deployments".
Proof. exact (groupResource_String (mkGR "apps" "deployments") eq_refl). Defined.

End results_examples.


(** * The archive reader: extraction and queries *)
Section extraction.
Import filesystem archive.
Context {FS : Type}.
Implicit Types (r : gzipTarReader FS) (st : fsys FS) (e : tarEntry).

(** The calls that the loop of [Extract] makes for one entry; its target
    is the name of the entry joined to the temporary directory, cleaned as
    [filepath.Join] does. *)
Definition entryCalls (dir : string) e : list call :=
  let target := filepath.Join [dir; hdrName e] in
  match Typeflag e with
  | TypeDir => [CallMkdirAll target]
  | TypeReg => [CallMkdirAll (filepath.Dir target); CallCreate target; CallCopy target]
  | TypeOther => []
  end.

(** The calls that [Extract] makes: none of them removes anything. *)
Definition extractCall (c : call) : Prop :=
  match c with
  | CallTempDir _ _ | CallMkdirAll _ | CallCreate _ | CallCopy _ => True
  | _ => False
  end.

Lemma extractEntry_calls fsImpl dir e st :
  ∃ cs, calls (extractEntry fsImpl dir e st).2 = calls st ++ cs ∧
        Forall extractCall cs ∧
        ((extractEntry fsImpl dir e st).1 = None → cs = entryCalls dir e).
Proof.
  unfold extractEntry, entryCalls. destruct (Typeflag e).
  - destruct (MkdirAll _ _ _ _) as [[?|] ?]; simpl;
      (eexists; split; [reflexivity|split; [by repeat constructor|done]]).
  - destruct (MkdirAll _ _ _ _) as [[?|] ?]; simpl;
      [eexists; split; [reflexivity|split; [by repeat constructor|done]]|].
    destruct (Create _ _ _) as [[?|] ?]; simpl;
      [eexists; split; [by rewrite <-app_assoc|split; [by repeat constructor|done]]|].
    destruct (Copy _ _ _ _) as [[?|] ?]; simpl;
      (eexists; split; [by rewrite <-!app_assoc|split; [by repeat constructor|done]]).
  - exists []. by rewrite app_nil_r.
Qed.

Lemma extractEntries_calls fsImpl dir es nextErr st :
  ∃ cs, calls (extractEntries fsImpl dir es nextErr st).2 = calls st ++ cs ∧
        Forall extractCall cs ∧
        ((extractEntries fsImpl dir es nextErr st).1 = None →
         nextErr = None ∧ cs = es ≫= entryCalls dir).
Proof.
  revert st. induction es as [|e es IH]; intros st; simpl.
  - exists []. rewrite app_nil_r. destruct nextErr; simpl; by repeat split.
  - destruct (extractEntry_calls fsImpl dir e st) as (cs1 & Hc1 & Hf1 & Hok1).
    destruct (extractEntry fsImpl dir e st) as [[err|] st1]; simpl in *.
    + exists cs1. by repeat split.
    + destruct (IH st1) as (cs2 & Hc2 & Hf2 & Hok2).
      exists (cs1 ++ cs2). split; [by rewrite Hc2, Hc1, <-app_assoc|].
      split; [by apply Forall_app|].
      intros Hnone. destruct (Hok2 Hnone) as [-> ->]. by rewrite Hok1.
Qed.

(** X8. A call of [Extract] that succeeds has read the whole tar stream,
    and it leaves a reader whose temporary directory is the one that
    [TempDir] returned. Its calls on the file system are the call of
    [TempDir] and then, entry by entry in the order of the archive, on the
    target of the entry (its name joined to the temporary directory and
    cleaned): for a directory, [MkdirAll] of the target; for a regular
    file, [MkdirAll] of the directory of the target, [Create] and the copy
    of its content; for an entry of any other type, nothing. *)
Theorem Extract_calls r st r' st' :
  Extract r st = (None, r', st') →
  ∃ stream dir,
    archiveOf r = Ok stream ∧ nextErr stream = None ∧
    (TempDir (fs r) (disk st) "" "").1 = Ok dir ∧
    tempDir r' = dir ∧ archiveOf r' = archiveOf r ∧ fs r' = fs r ∧
    calls st' = calls st ++ CallTempDir "" "" :: (entries stream ≫= entryCalls dir).
Proof.
  unfold Extract. destruct (archiveOf r) as [stream|] eqn:Harchive; [|done].
  destruct (TempDir _ _ _ _) as [[dir|] d] eqn:Htemp; [|done].
  match goal with |- context [extractEntries ?f ?d ?es ?ne ?s] =>
    destruct (extractEntries_calls f d es ne s) as (cs & Hcalls & _ & Hok);
    destruct (extractEntries f d es ne s) as [[err|] st1] end; [done|].
  intros [= <- <-]. simpl in *. destruct (Hok eq_refl) as [Hnext ->].
  exists stream, dir. repeat split; try done.
  by rewrite Hcalls, <-app_assoc.
Qed.

(** Whatever its outcome, [Extract] only makes calls that create. *)
Lemma Extract_creates_only r st :
  ∃ cs, calls (Extract r st).2 = calls st ++ cs ∧ Forall extractCall cs.
Proof.
  unfold Extract. destruct (archiveOf r) as [stream|]; simpl;
    [|exists []; by rewrite app_nil_r].
  destruct (TempDir _ _ _ _) as [[dir|] d]; simpl;
    [|exists [CallTempDir "" ""]; by repeat constructor].
  match goal with |- context [extractEntries ?f ?d ?es ?ne ?s] =>
    destruct (extractEntries_calls f d es ne s) as (cs & Hcalls & Hall & _);
    destruct (extractEntries f d es ne s) as [[err|] st1] end; simpl in *;
    (exists (CallTempDir "" "" :: cs);
     split; [by rewrite Hcalls, <-app_assoc|by constructor]).
Qed.

(** X9. The scope that [GetResourceScope] reports is the empty one for a
    resource type that is not in the archive and one of [cluster] and
    [namespace] for one that is. [ListNamespaces] relies on it: it
    succeeds only for a resource type reported as namespace-scoped, it
    refuses a cluster-scoped one and one that is not in the archive, each
    with an error of its own, and it passes on the error of
    [GetResourceScope]. *)
Theorem ListNamespaces_scope r groupResource st :
  tempDir r ≠ "" →
  match (GetResourceScope r groupResource st).1 with
  | Err err => (ListNamespaces r groupResource st).1 = Err err
  | Ok (scope, false) =>
      scope = "" ∧
      (ListNamespaces r groupResource st).1
      = Err ("resource " +:+ groupResource +:+ " not found in archive")
  | Ok (scope, true) =>
      (scope = ResourceScopeCluster ∧
       (ListNamespaces r groupResource st).1
       = Err ("resource " +:+ groupResource +:+ " is not namespace-scoped")) ∨
      (scope = ResourceScopeNamespace ∧
       ∀ err, (ListNamespaces r groupResource st).1 = Err err →
              ∃ cause, err = wrap cause
                ("error reading contents of directory "
                 +:+ filepath.Join [tempDir r; ResourcesDir; groupResource;
                                    NamespaceScopedDir]))
  end.
Proof.
  intros Hextracted. unfold ListNamespaces. rewrite decide_False by done.
  assert (Hscope : ∀ scope found,
            (GetResourceScope r groupResource st).1 = Ok (scope, found) →
            (found = false ∧ scope = "") ∨
            (found = true ∧ (scope = ResourceScopeCluster ∨ scope = ResourceScopeNamespace))).
  { unfold GetResourceScope. rewrite decide_False by done. simpl.
    destruct (DirExists _ _ _) as [[|]|]; simpl; [|naive_solver..].
    destruct (DirExists _ _ _) as [[|]|]; simpl; naive_solver. }
  destruct (GetResourceScope r groupResource st) as [[[scope [|]]|err] st1];
    simpl in *; [| |done].
  - destruct (Hscope scope true eq_refl) as [[? _]|[_ [->| ->]]]; [done| |].
    + left. done.
    + right. split; [done|]. simpl.
      destruct (ReadDir _ _ _); simpl; [done|]. intros err [= <-]. by eexists.
  - destruct (Hscope scope false eq_refl) as [[_ ->]|[? _]]; done.
Qed.

End extraction.

Section execute_proofs.
Import filesystem archive api restore.
Context {World WatchT FS : Type}.
Implicit Types (X : @externals World) (ctx : @context World WatchT)
  (s : @rstate World WatchT) (disk : fsys FS).

(** X10. [execute] extracts the archive and, when that fails, returns the
    error as the only system error without running the engine and without
    removing anything from the disk: a temporary directory that a failed
    [Extract] created stays. When [Extract] succeeds, the result is that
    of [restoreFromArchive] on the extracted archive, and the last call on
    the file system, after the engine has ended in whatever way, is the
    removal of the temporary directory; nothing is removed before. *)
Theorem execute_cleanup X ctx fsImpl backupReader disk s :
  let extracted := Extract (NewGzipTarReader fsImpl backupReader) disk in
  let ran := execute X ctx fsImpl backupReader disk s in
  match extracted.1.1 with
  | Some err =>
      ran.1 = Some (emptyResult, mkResult [err] [] ∅, s) ∧
      ∃ cs, calls ran.2 = calls disk ++ cs ∧ Forall extractCall cs
  | None =>
      ran.1 = restoreFromArchive X ctx (asReader extracted.1.2 extracted.2) s ∧
      (tempDir extracted.1.2 ≠ "" →
       ∃ cs, calls ran.2 = calls disk ++ cs ++ [CallRemoveAll (tempDir extracted.1.2)] ∧
             Forall extractCall cs)
  end.
Proof.
  intros extracted ran. subst ran. unfold execute. fold extracted.
  destruct (Extract_creates_only (NewGzipTarReader fsImpl backupReader) disk)
    as (cs & Hcalls & Hall). fold extracted in Hcalls.
  destruct extracted as [[[err|] r'] disk']; simpl in *.
  - split; [done|]. by exists cs.
  - split; [done|]. intros Hdir. exists cs. split; [|done].
    unfold Close. rewrite decide_False by done.
    destruct (RemoveAll _ _ _) as [[?|] ?]; simpl; by rewrite Hcalls, <-app_assoc.
Qed.

End execute_proofs.

(** ** From [Extract] to [Get] *)
Section round_trip.
Import filesystem archive.
Context {FS : Type} (fsImpl : Interface FS).
Implicit Types (r : gzipTarReader FS) (st : fsys FS) (e : tarEntry).

(** What the file system is taken to do: a successful [MkdirAll] leaves
    the content of every file as it is; a successful [Create] and a
    successful copy leave the content of every other file as it is; after
    a successful copy the file reads as what was written. *)
Hypothesis MkdirAll_keeps : ∀ d path mode d' q,
  MkdirAll fsImpl d path mode = (None, d') → ReadFile fsImpl d' q = ReadFile fsImpl d q.
Hypothesis Create_keeps : ∀ d path d' q,
  Create fsImpl d path = (None, d') → q ≠ path →
  ReadFile fsImpl d' q = ReadFile fsImpl d q.
Hypothesis Copy_keeps : ∀ d path bytes d' q,
  Copy fsImpl d path bytes = (None, d') → q ≠ path →
  ReadFile fsImpl d' q = ReadFile fsImpl d q.
Hypothesis Copy_writes : ∀ d path bytes d',
  Copy fsImpl d path bytes = (None, d') → ReadFile fsImpl d' path = Ok bytes.

Lemma extractEntry_reads dir e st st' q :
  extractEntry fsImpl dir e st = (None, st') →
  (Typeflag e = TypeReg → q = filepath.Join [dir; hdrName e] →
   ReadFile fsImpl (disk st') q = Ok (content e)) ∧
  ((Typeflag e = TypeReg → q ≠ filepath.Join [dir; hdrName e]) →
   ReadFile fsImpl (disk st') q = ReadFile fsImpl (disk st) q).
Proof using MkdirAll_keeps Create_keeps Copy_keeps Copy_writes.
  unfold extractEntry. destruct (Typeflag e) eqn:Hflag.
  - destruct (MkdirAll _ _ _ _) as [[?|] d1] eqn:Hmk; [done|].
    intros [= <-]; simpl. split; [done|]. intros _. by eapply MkdirAll_keeps.
  - destruct (MkdirAll _ _ _ _) as [[?|] d1] eqn:Hmk; [done|]. simpl.
    destruct (Create _ _ _) as [[?|] d2] eqn:Hcr; [done|]. simpl.
    destruct (Copy _ _ _ _) as [[?|] d3] eqn:Hcp; [done|].
    intros [= <-]; simpl. split.
    + intros _ ->. by eapply Copy_writes.
    + intros Hq. specialize (Hq eq_refl).
      rewrite (Copy_keeps _ _ _ _ _ Hcp Hq), (Create_keeps _ _ _ _ Hcr Hq).
      by eapply MkdirAll_keeps.
  - intros [= <-]. split; [done|]. done.
Qed.

Lemma extractEntries_keeps dir es nextErr st st' q :
  extractEntries fsImpl dir es nextErr st = (None, st') →
  Forall (λ e, Typeflag e = TypeReg → q ≠ filepath.Join [dir; hdrName e]) es →
  ReadFile fsImpl (disk st') q = ReadFile fsImpl (disk st) q.
Proof using MkdirAll_keeps Create_keeps Copy_keeps Copy_writes.
  revert st. induction es as [|e es IH]; intros st; simpl.
  - destruct nextErr; [done|]. by intros [= <-].
  - destruct (extractEntry fsImpl dir e st) as [[?|] st1] eqn:He; [done|].
    intros Hrest Hall. apply Forall_cons in Hall as [Hq Hall].
    rewrite (IH _ Hrest Hall).
    by apply (extractEntry_reads _ _ _ _ q He).
Qed.

Lemma extractEntries_reads dir before e after nextErr st st' :
  extractEntries fsImpl dir (before ++ e :: after) nextErr st = (None, st') →
  Typeflag e = TypeReg →
  Forall (λ e', Typeflag e' = TypeReg →
                filepath.Join [dir; hdrName e'] ≠ filepath.Join [dir; hdrName e]) after →
  ReadFile fsImpl (disk st') (filepath.Join [dir; hdrName e]) = Ok (content e).
Proof using MkdirAll_keeps Create_keeps Copy_keeps Copy_writes.
  intros Hex Hreg Hafter. revert st Hex.
  induction before as [|e0 before IH]; intros st; simpl.
  - destruct (extractEntry fsImpl dir e st) as [[?|] st1] eqn:He; [done|].
    intros Hrest.
    rewrite (extractEntries_keeps _ _ _ _ _ _ Hrest).
    + by apply (extractEntry_reads _ _ _ _ _ He).
    + eapply Forall_impl; [exact Hafter|]. intros e' Hne Hreg' Heq.
      by destruct (Hne Hreg').
  - destruct (extractEntry fsImpl dir e0 st) as [[?|] st1]; [done|]. apply IH.
Qed.

(** The file that [Get] reads for an item of an archive extracted to
    [dir]. *)
Definition itemFile (dir groupResource namespace name : string) : string :=
  if decide (namespace = "")
  then filepath.Join [dir; ResourcesDir; groupResource; ClusterScopedDir; name]
  else filepath.Join [dir; ResourcesDir; groupResource; NamespaceScopedDir; namespace; name].

(** X11. After a successful [Extract], on a file system that keeps what
    is written to it, [Get] returns for an item the content of the last
    regular file of the archive that [Extract] wrote to the file that
    [Get] reads. The file of an entry is its name joined to the temporary
    directory, with the cleaning that [filepath.Join] does: entries whose
    names differ can be written to the same file, and the later one
    wins. *)
Theorem Extract_then_Get a st r' st' stream before e after groupResource namespace name :
  Extract (NewGzipTarReader fsImpl a) st = (None, r', st') →
  a = Ok stream →
  entries stream = before ++ e :: after →
  Typeflag e = TypeReg →
  filepath.Join [tempDir r'; hdrName e] = itemFile (tempDir r') groupResource namespace name →
  Forall (λ e', Typeflag e' = TypeReg →
                filepath.Join [tempDir r'; hdrName e']
                ≠ filepath.Join [tempDir r'; hdrName e]) after →
  tempDir r' ≠ "" →
  (Get r' groupResource namespace name st').1 = Ok (content e).
Proof using MkdirAll_keeps Create_keeps Copy_keeps Copy_writes.
  intros Hex -> Hentries Hreg Hname Hafter Hdir.
  unfold Extract in Hex. simpl in Hex.
  destruct (TempDir _ _ _ _) as [[dir|] d]; [|done].
  destruct (extractEntries _ _ _ _ _) as [[?|] st1] eqn:Hes; [done|].
  injection Hex as <- <-. cbn [tempDir fs] in *.
  rewrite Hentries in Hes.
  pose proof (extractEntries_reads _ _ _ _ _ _ _ Hes Hreg Hafter) as Hread.
  unfold Get. cbn [tempDir fs logged disk]. rewrite decide_False by done.
  rewrite Hname in Hread. unfold itemFile in Hread.
  destruct (decide (namespace = "")); by rewrite Hread.
Qed.

End round_trip.

Section extraction_examples.
Import filesystem archive.

(** X8, witness: the archive of one pod and one persistent volume. *)
Lemma Extract_calls_witness :
  calls (Extract (NewGzipTarReader memInterface goodArchive) emptyDisk).2
  = [CallTempDir "" "";
     CallMkdirAll "/tmp/ark/resources/pods/namespaces/ns-1";
     CallCreate "/tmp/ark/resources/pods/namespaces/ns-1/p1.json";
     CallCopy "/tmp/ark/resources/pods/namespaces/ns-1/p1.json";
     CallMkdirAll "/tmp/ark/resources/persistentvolumes/cluster";
     CallCreate "/tmp/ark/resources/persistentvolumes/cluster/pv1.json";
     CallCopy "/tmp/ark/resources/persistentvolumes/cluster/pv1.json"].
Proof.
  destruct (Extract_calls (NewGzipTarReader memInterface goodArchive) emptyDisk
              (Extract (NewGzipTarReader memInterface goodArchive) emptyDisk).1.2
              (Extract (NewGzipTarReader memInterface goodArchive) emptyDisk).2
              eq_refl)
    as (stream & dir & Harchive & _ & Htemp & _ & _ & _ & Hcalls).
  injection Harchive as <-. injection Htemp as <-. exact Hcalls.
Defined.

(** The target of a directory entry whose name ends in a slash has no
    slash at its end. *)
Example Extract_directory_entry :
  calls (Extract (NewGzipTarReader memInterface
                    (Ok {| entries := [mkEntry "resources/pods/" TypeDir 493 ""];
                           nextErr := None |})) emptyDisk).2
  = [CallTempDir "" ""; CallMkdirAll "/tmp/ark/resources/pods"].
Proof. reflexivity. Qed.

(** X9, witness: the persistent volumes of that archive are
    cluster-scoped. *)
Lemma ListNamespaces_scope_witness :
  (ListNamespaces (Extract (NewGzipTarReader memInterface goodArchive) emptyDisk).1.2
     "persistentvolumes"
     (Extract (NewGzipTarReader memInterface goodArchive) emptyDisk).2).1
  = Err "resource persistentvolumes is not namespace-scoped".
Proof.
  pose proof (ListNamespaces_scope
                (Extract (NewGzipTarReader memInterface goodArchive) emptyDisk).1.2
                "persistentvolumes"
                (Extract (NewGzipTarReader memInterface goodArchive) emptyDisk).2
                ltac:(done)) as Hscope.
  assert (Hcluster :
    (GetResourceScope (Extract (NewGzipTarReader memInterface goodArchive) emptyDisk).1.2
       "persistentvolumes"
       (Extract (NewGzipTarReader memInterface goodArchive) emptyDisk).2).1
    = Ok (ResourceScopeCluster, true)) by reflexivity.
  rewrite Hcluster in Hscope. destruct Hscope as [[_ Hlist]|[Hns _]]; [exact Hlist|done].
Defined.

(** An in-memory file system whose [MkdirAll] fails when the path or a
    directory above it is a file. *)
Definition isFile (d : memFS) (path : string) : bool :=
  match d !! path with Some (Some _) => true | _ => false end.

Definition strictInterface : Interface memFS :=
  {| TempDir := TempDir memInterface;
     MkdirAll := λ d path mode,
       if existsb (isFile d) (ancestors (String.length path) path)
       then (Some ("mkdir " +:+ path +:+ ": not a directory"), d)
       else MkdirAll memInterface d path mode;
     Create := Create memInterface;
     Copy := Copy memInterface;
     DirExists := DirExists memInterface;
     ReadDir := ReadDir memInterface;
     ReadFile := ReadFile memInterface;
     RemoveAll := RemoveAll memInterface |}.

Lemma strict_ReadFile_insert (d : memFS) (path q : string) (v : option string) :
  q ≠ path ∨ (v = None ∧ isFile d path = false) →
  ReadFile strictInterface (<[path := v]> d) q = ReadFile strictInterface d q.
Proof.
  cbn [ReadFile strictInterface memInterface]. unfold memFS in *.
  intros [Hq|[-> Hfile]].
  - by rewrite lookup_insert_ne.
  - destruct (decide (q = path)) as [->|Hq]; [|by rewrite lookup_insert_ne].
    rewrite lookup_insert_eq. unfold isFile, memFS in Hfile.
    by destruct (d !! path) as [[]|].
Qed.

Lemma strict_MkdirAll_keeps d path mode d' q :
  MkdirAll strictInterface d path mode = (None, d') →
  ReadFile strictInterface d' q = ReadFile strictInterface d q.
Proof.
  cbn [MkdirAll strictInterface memInterface].
  destruct (existsb _ _) eqn:Hfiles; [done|]. intros [= <-].
  assert (Hall : Forall (λ a, isFile d a = false) (ancestors (String.length path) path)).
  { apply Forall_forall. intros a Ha. destruct (isFile d a) eqn:Hfile; [|done].
    assert (existsb (isFile d) (ancestors (String.length path) path) = true)
      by (apply existsb_exists; exists a; split; [by apply list_elem_of_In|done]).
    congruence. }
  clear Hfiles. induction Hall as [|a rest Ha _ IH]; [done|].
  cbn [foldr]. rewrite <-IH.
  destruct (decide (q = a)) as [->|Hq].
  - cbn [ReadFile strictInterface memInterface] in *. unfold memFS in *.
    rewrite lookup_insert_eq.
    rewrite IH. unfold isFile, memFS in Ha. by destruct (d !! a) as [[]|].
  - apply strict_ReadFile_insert. by left.
Qed.

(** An archive that holds the volume [pv1] twice, the second time under
    a name with a [.] element. *)
Definition twiceArchive : ioReader :=
  Ok {| entries := [mkEntry "resources/persistentvolumes/cluster/pv1.json" TypeReg 493 "first";
                    mkEntry "resources/persistentvolumes/cluster/./pv1.json" TypeReg 493 "second"];
        nextErr := None |}.

(** X11, witness: the volume of that archive, on that file system; the
    second of its two entries is the one that [Get] returns. *)
Lemma Extract_then_Get_witness :
  (Get (Extract (NewGzipTarReader strictInterface twiceArchive) emptyDisk).1.2
     "persistentvolumes" "" "pv1.json"
     (Extract (NewGzipTarReader strictInterface twiceArchive) emptyDisk).2).1
  = Ok "second".
Proof.
  refine (Extract_then_Get strictInterface
            strict_MkdirAll_keeps _ _ _
            twiceArchive emptyDisk _ _
            {| entries :=
                 [mkEntry "resources/persistentvolumes/cluster/pv1.json" TypeReg 493 "first";
                  mkEntry "resources/persistentvolumes/cluster/./pv1.json" TypeReg 493 "second"];
               nextErr := None |}
            [mkEntry "resources/persistentvolumes/cluster/pv1.json" TypeReg 493 "first"]
            (mkEntry "resources/persistentvolumes/cluster/./pv1.json" TypeReg 493 "second")
            []
            "persistentvolumes" "" "pv1.json" eq_refl eq_refl eq_refl eq_refl eq_refl _ _).
  - intros d path d' q [= <-] Hq. apply strict_ReadFile_insert. by left.
  - intros d path bytes d' q [= <-] Hq. apply strict_ReadFile_insert. by left.
  - intros d path bytes d' [= <-]. cbn [ReadFile strictInterface memInterface].
    unfold memFS in *. by rewrite lookup_insert_eq.
  - constructor.
  - done.
Defined.

End extraction_examples.


(** * Invariants of the engine

    A relation between states that every elementary change of the state
    respects is respected by the restore of an item, by a call of
    [restoreResource] and by [restoreFromArchive]. *)
Section engine_invariant.
Import schema discovery collections unstructured labels api restore.
Context {World WatchT : Type}.
Implicit Types (X : @externals World) (ctx : @context World WatchT)
  (s : @rstate World WatchT) (obj : Unstructured)
  (client : @Dynamic World WatchT).

(** The calls that the restore of an item records. *)
Definition stepEvent (ev : @event WatchT) : Prop :=
  match ev with
  | EvStop _ | EvEnsureNamespaceExists _ | EvGoWaitForReady _ _ _
  | EvGoRestorePodVolumes _ => False
  | _ => True
  end.

Variable R : relation (@rstate World WatchT).
Context `{!PreOrder R}.
Hypothesis R_call : ∀ s w ev, stepEvent ev → R s (setWorld w ev s).
Hypothesis R_errs : ∀ s ns e, R s (setErrs (addToResult (errs s) ns e) s).
Hypothesis R_ark : ∀ s e, R s (setErrs (addArkError (errs s) e) s).
Hypothesis R_warnings : ∀ s ns e, R s (setWarnings (addToResult (warnings s) ns e) s).
Hypothesis R_provision : ∀ s name, R s (insertProvision name s).
Hypothesis R_watch : ∀ s w name, R s (startWatch w name s).
Hypothesis R_task : ∀ s createdObj, R s (goRestorePodVolumes createdObj s).

Ltac invariant_leaf :=
  cbv beta;
  first [ apply R_call; exact I | apply R_errs | apply R_ark | apply R_warnings
        | apply R_provision | apply R_watch | apply R_task ].

(** The step that builds the client of the resource type. *)
Hypothesis R_getResourceClient : ∀ ctx resource namespace obj,
  preserves R (getResourceClient ctx resource namespace obj).

Lemma restorePersistentVolume_invariant ctx resource namespace client file name obj :
  preserves R (restorePersistentVolume ctx resource namespace client file name obj).
Proof using All.
  unfold restorePersistentVolume, executePVAction. preserves_auto invariant_leaf.
Qed.

Lemma resetPersistentVolumeClaim_invariant namespace obj :
  preserves R (@resetPersistentVolumeClaim World WatchT namespace obj).
Proof using All. unfold resetPersistentVolumeClaim. preserves_auto invariant_leaf. Qed.

Lemma runActions_invariant ctx resource namespace file acts obj :
  preserves R (runActions ctx resource namespace file acts obj).
Proof using All.
  revert obj. induction acts as [|a acts IH]; intros obj; simpl.
  - preserves_auto invariant_leaf.
  - destruct (negb _); [apply IH|].
    preserves_step invariant_leaf; [preserves_auto invariant_leaf|].
    destruct (Execute _ _ _) as [[updatedObj warning] err].
    preserves_step invariant_leaf; [preserves_auto invariant_leaf|].
    destruct err as [err|]; [|destruct updatedObj as [u|t]].
    + preserves_step invariant_leaf; [preserves_auto invariant_leaf|apply IH].
    + apply IH.
    + preserves_step invariant_leaf; [preserves_auto invariant_leaf|apply IH].
Qed.

Lemma createItem_invariant X ctx resource namespace client file name obj :
  preserves R (createItem X ctx resource namespace client file name obj).
Proof using All.
  unfold createItem.
  preserves_step invariant_leaf; [preserves_auto invariant_leaf|].
  destruct a as [createdObj|restoreErr].
  - preserves_auto invariant_leaf.
  - destruct (IsAlreadyExists restoreErr); [|preserves_auto invariant_leaf].
    unfold resolveAlreadyExists. preserves_auto invariant_leaf.
Qed.

Lemma restoreItem_invariant X ctx archiveReader resource namespace file :
  preserves R (restoreItem X ctx archiveReader resource namespace file).
Proof using All.
  unfold restoreItem.
  do 5 (preserves_step invariant_leaf;
        try (preserves_auto invariant_leaf; fail)).
  preserves_step invariant_leaf; [apply R_getResourceClient|].
  preserves_step invariant_leaf; [preserves_auto invariant_leaf|].
  preserves_step invariant_leaf.
  { destruct (decide _); [|preserves_auto invariant_leaf].
    apply restorePersistentVolume_invariant. }
  preserves_step invariant_leaf.
  { destruct (decide _); [|preserves_auto invariant_leaf].
    apply resetPersistentVolumeClaim_invariant. }
  preserves_step invariant_leaf; [apply runActions_invariant|].
  preserves_step invariant_leaf; [preserves_auto invariant_leaf|].
  apply createItem_invariant.
Qed.

(** A call of [restoreResource] starts with fresh local variables, and
    its results may hold the timeout warning of its goroutine. *)
Hypothesis R_fresh : ∀ s, R s (freshLocals s).
Hypothesis R_timeout : ∀ s e, R s (setWarnings (addArkError (warnings s) e) s).

Lemma restoreResource_invariant X ctx archiveReader resource namespace s s' :
  restoreResource X ctx archiveReader resource namespace s = Some s' → R s s'.
Proof using All.
  unfold restoreResource.
  destruct (_ && _); [intros [= <-]; apply R_fresh|].
  destruct (archive.readerListContents _ _ _) as [files|err];
    [|intros [= <-]; etrans; [apply R_fresh|apply R_errs]].
  destruct files as [|file files]; [intros [= <-]; apply R_fresh|].
  pose proof (preserves_forEach R
                (restoreItem X ctx archiveReader resource namespace) (file :: files)
                (λ x _, restoreItem_invariant X ctx archiveReader resource namespace x)
                (freshLocals s)) as Hloop.
  destruct (forEach _ _ _) as [[] s1|s1|s1|s1]; simpl in Hloop; intros [= <-];
    (etrans; [apply R_fresh|]); (etrans; [exact Hloop|]);
    apply preserves_returned; first [apply _|apply R_timeout].
Qed.

End engine_invariant.

Section builds_client.
Import schema discovery collections unstructured labels api restore.
Context {World WatchT : Type}.
Variable R : relation (@rstate World WatchT).
Context `{!PreOrder R}.
Hypothesis R_ark : ∀ s e, R s (setErrs (addArkError (errs s) e) s).
Hypothesis R_client : ∀ s c, R s (setResourceClient c s).

(** A relation that holds across storing a client and across recording a
    system error holds across the step that builds the client. *)
Lemma getResourceClient_invariant (ctx : @context World WatchT) resource namespace obj :
  preserves R (getResourceClient ctx resource namespace obj).
Proof using All.
  unfold getResourceClient.
  preserves_auto ltac:(cbv beta; first [apply R_ark|apply R_client]).
Qed.

End builds_client.

(** A relation that the calls of [restoreResource] respect, and that the
    steps of [restoreFromArchive] around them respect as well (it ensures
    namespaces, waits for the pod-volume tasks, which change the world,
    and stops the watches), holds from the start to the end of
    [restoreFromArchive]. *)
Section archive_invariant.
Import schema discovery collections unstructured labels api restore.
Context {World WatchT : Type}.
Variable X : @externals World.
Variable ctx : @context World WatchT.
Variable archiveReader : archive.Reader.
Implicit Types (s : @rstate World WatchT).

Variable R : relation (@rstate World WatchT).
Context `{!PreOrder R}.
Hypothesis R_resource : ∀ resource namespace s s',
  restoreResource X ctx archiveReader resource namespace s = Some s' → R s s'.
Hypothesis R_ensure : ∀ s w ns, R s (setWorld w (EvEnsureNamespaceExists ns) s).

Lemma restoreNamespaces_invariant namespaceFilter resource
    namespaces accWarnings accErrs existing s accWarnings' accErrs' existing' s' :
  restoreNamespaces X ctx archiveReader namespaceFilter resource namespaces
    accWarnings accErrs existing s = Some (accWarnings', accErrs', existing', s') →
  R s s'.
Proof using All.
  revert accWarnings accErrs existing s.
  induction namespaces as [|nsName namespaces IH]; intros accWarnings accErrs existing s;
    simpl; [by intros [= _ _ _ <-]|].
  destruct (negb _); [apply IH|].
  unfold ensureNamespace. destruct (decide (_ ∈ existing)).
  - destruct (restoreResource _ _ _ _ _ _) as [s1|] eqn:Hres; [|done].
    intros Hrest. etrans; [by eapply R_resource|by eapply IH].
  - destruct (EnsureNamespaceExists X _ _) as [[?|err] w].
    + destruct (restoreResource _ _ _ _ _ _) as [s1|] eqn:Hres; [|done].
      intros Hrest. etrans; [apply R_ensure|].
      etrans; [by eapply R_resource|by eapply IH].
    + intros Hrest. etrans; [apply R_ensure|by eapply IH].
Qed.

Lemma restoreResources_invariant namespaceFilter resources
    accWarnings accErrs existing s ended accWarnings' accErrs' s' :
  restoreResources X ctx archiveReader namespaceFilter resources
    accWarnings accErrs existing s = Some (ended, accWarnings', accErrs', s') →
  R s s'.
Proof using All.
  revert accWarnings accErrs existing s.
  induction resources as [|resource resources IH]; intros accWarnings accErrs existing s;
    simpl; [by intros [= _ _ _ <-]|].
  destruct (decide _); [apply IH|].
  destruct (archive.readerGetResourceScope _ _) as [[scope [|]]|err];
    [|apply IH|by intros [= _ _ _ <-]].
  destruct (String.eqb _ _).
  - destruct (restoreResource _ _ _ _ _ _) as [s1|] eqn:Hres; [|done].
    intros Hrest. etrans; [by eapply R_resource|by eapply IH].
  - destruct (archive.readerListNamespaces _ _) as [namespaces|err];
      [|by intros [= _ _ _ <-]].
    destruct (restoreNamespaces _ _ _ _ _ _ _ _ _ _) as [[[[w1 e1] ex1] s1]|] eqn:Hns;
      [|done].
    intros Hrest. etrans; [by eapply restoreNamespaces_invariant|by eapply IH].
Qed.

Hypothesis R_waited : ∀ s w,
  R s (mkState w (trace s) (pvsToProvision s) (resourceWatches s) (resourceWaitGroup s)
         (globalWaitGroup s) (warnings s) (errs s) (resourceClient s) (resourceWatch s)
         (resourceTask s)).
Hypothesis R_stop : ∀ s w, R s (logEvent (EvStop w) s).

Lemma stopWatches_invariant s : R s (stopWatches s).
Proof using PreOrder0 R_stop.
  unfold stopWatches. generalize (resourceWatches s) as ws. intros ws. revert s.
  induction ws as [|w ws IH]; intros s; simpl; [reflexivity|].
  etrans; [apply R_stop|apply IH].
Qed.

Lemma restoreFromArchive_invariant s warnings' errs' s' :
  restoreFromArchive X ctx archiveReader s = Some (warnings', errs', s') → R s s'.
Proof using All.
  unfold restoreFromArchive.
  destruct (restoreResources _ _ _ _ _ _ _ _ _) as [[[[[|] w1] e1] s1]|] eqn:Hres;
    [| |done].
  - destruct (waitGlobal _ _ _ _) as [waitErrs w]. intros [= _ _ <-].
    etrans; [by eapply restoreResources_invariant|].
    etrans; [apply R_waited|apply stopWatches_invariant].
  - intros [= _ _ <-].
    etrans; [by eapply restoreResources_invariant|apply stopWatches_invariant].
Qed.

End archive_invariant.

(** * Steps of the restore of an item *)
Section item_steps.
Import schema discovery collections unstructured labels api restore.
Context {World WatchT : Type}.
Implicit Types (X : @externals World) (ctx : @context World WatchT)
  (s : @rstate World WatchT) (obj : Unstructured)
  (client : @Dynamic World WatchT) (r : @pvRestorer World).

(** X12. A volume that has a name and a specification is not restored
    from a snapshot when the backup was taken without snapshots or the
    restore has the restore of volumes switched off: whatever snapshot
    record and block store there may be, no call is made and the volume is
    returned without its claim reference and its storage class name. When
    neither is switched off and the volume has a snapshot record but no
    block store is configured, the volume restorer fails without a call. *)
Theorem executePVAction_without_restore r obj spec s :
  GetName obj ≠ "" →
  accessors.GetMap obj ["spec"] = Ok spec →
  (IsSetToFalse (snapshotVolumes r) = true ∨ IsSetToFalse (restorePVs r) = true →
   executePVAction r obj s = Val (Ok (withoutClaim obj spec)) s) ∧
  (IsSetToFalse (snapshotVolumes r) = false → IsSetToFalse (restorePVs r) = false →
   is_Some (volumeBackups r !! GetName obj) → pvBlockStore r = None →
   executePVAction r obj s
   = Val (Err ("you must configure a persistentVolumeProvider to restore "
               +:+ "PersistentVolumes from snapshots")) s).
Proof.
  intros Hname Hspec. unfold executePVAction.
  rewrite decide_False by done. rewrite Hspec. split.
  - intros [Hoff|Hoff].
    + by rewrite Hoff.
    + rewrite Hoff. by destruct (IsSetToFalse (snapshotVolumes r)).
  - intros -> -> [info Hinfo] ->. by rewrite Hinfo.
Qed.

(** The client of the resource type is the given one. *)
Definition keepsClient client : relation (@rstate World WatchT) :=
  λ s s', resourceClient s = Some client → resourceClient s' = Some client.

#[local] Instance keepsClient_preorder client : PreOrder (keepsClient client).
Proof.
  split; [intros s; by unfold keepsClient|].
  intros s1 s2 s3 H1 H2 H. by apply H2, H1.
Qed.

Lemma getResourceClient_keepsClient client ctx resource namespace obj :
  preserves (keepsClient client) (getResourceClient ctx resource namespace obj).
Proof.
  intros s Hc. unfold getResourceClient, bind, gets. by rewrite Hc.
Qed.

(** X13. The client of a resource type is built once in a call of
    [restoreResource]: once the call has a client, the restore of an item
    leaves it in place, and the step that provides the client returns it
    for every item, whatever the API version of the item, without asking
    the factory. *)
Theorem resource_client_is_kept X ctx archiveReader resource namespace file client s :
  resourceClient s = Some client →
  resourceClient (stateOf (restoreItem X ctx archiveReader resource namespace file s))
  = Some client ∧
  ∀ obj, getResourceClient ctx resource namespace obj s = Val client s.
Proof.
  intros Hc. split.
  - assert (Hkept : preserves (keepsClient client)
                      (restoreItem X ctx archiveReader resource namespace file)).
    { apply restoreItem_invariant;
        [apply _|..|apply getResourceClient_keepsClient];
        intros; by unfold keepsClient. }
    exact (Hkept s Hc).
  - intros obj. unfold getResourceClient, bind, gets. by rewrite Hc.
Qed.

(** Nothing is called and no warning is recorded. *)
Definition noCall : relation (@rstate World WatchT) :=
  λ s s', trace s' = trace s ∧ world s' = world s ∧ warnings s' = warnings s.

#[local] Instance noCall_preorder : PreOrder noCall.
Proof.
  split; [intros s; by unfold noCall|].
  intros s1 s2 s3 (? & ? & ?) (? & ? & ?). unfold noCall. split_and!; congruence.
Qed.

Lemma getResourceClient_noCall ctx resource namespace obj :
  preserves noCall (getResourceClient ctx resource namespace obj).
Proof. apply getResourceClient_invariant; [apply _|..]; intros; by unfold noCall. Qed.

(** X14. A pod that carries the mirror-pod annotation is not restored:
    once it is read and decoded, no call is made for it, so it is not
    created, and no warning is recorded; when it is selected, is not
    completed and there is a client, the engine goes on to the next item
    with nothing changed but the client. *)
Theorem mirror_pod_not_created X ctx archiveReader resource namespace file bytes obj s :
  groupResource resource = kuberesource.Pods →
  archive.readerGet archiveReader resource namespace file = Ok bytes →
  Unmarshal X bytes = Ok obj →
  at_key (GetAnnotations obj) MirrorPodAnnotationKey ≠ "" →
  noCall s (stateOf (restoreItem X ctx archiveReader resource namespace file s)) ∧
  (Matches (selector ctx) (Set_ (GetLabels obj)) = true →
   isCompleted obj kuberesource.Pods = Ok false →
   ∀ client s1, getResourceClient ctx resource namespace obj s = Val client s1 →
     restoreItem X ctx archiveReader resource namespace file s = Continue s1).
Proof.
  intros Hgr Hget Hdec Hmirror.
  assert (Hskip : ∀ client s1,
    getResourceClient ctx resource namespace obj s = Val client s1 →
    Matches (selector ctx) (Set_ (GetLabels obj)) = true →
    isCompleted obj kuberesource.Pods = Ok false →
    restoreItem X ctx archiveReader resource namespace file s = Continue s1).
  { intros client s1 Hclient Hsel Hdone. unfold restoreItem.
    rewrite Hget, bind_orContinue_Ok, Hdec, bind_orContinue_Ok, Hsel.
    simpl negb. rewrite bind_when_false, Hgr, Hdone, bind_orContinue_Ok, bind_when_false.
    unfold bind at 1. rewrite Hclient.
    apply String.eqb_neq in Hmirror. by rewrite Hmirror. }
  split; [|intros; by eapply Hskip].
  destruct (Matches (selector ctx) (Set_ (GetLabels obj))) eqn:Hsel.
  2:{ unfold restoreItem.
      rewrite Hget, bind_orContinue_Ok, Hdec, bind_orContinue_Ok, Hsel. done. }
  destruct (isCompleted obj kuberesource.Pods) as [[|]|err] eqn:Hdone.
  - unfold restoreItem.
    rewrite Hget, bind_orContinue_Ok, Hdec, bind_orContinue_Ok, Hsel.
    simpl negb. rewrite bind_when_false, Hgr, Hdone, bind_orContinue_Ok. done.
  - pose proof (getResourceClient_noCall ctx resource namespace obj s) as Hclient.
    destruct (getResourceClient ctx resource namespace obj s) as [client s1|s1|s1|s1]
      eqn:Hc.
    + by rewrite (Hskip client s1).
    + unfold restoreItem.
      rewrite Hget, bind_orContinue_Ok, Hdec, bind_orContinue_Ok, Hsel.
      simpl negb. rewrite bind_when_false, Hgr, Hdone, bind_orContinue_Ok, bind_when_false.
      unfold bind at 1. by rewrite Hc.
    + unfold restoreItem.
      rewrite Hget, bind_orContinue_Ok, Hdec, bind_orContinue_Ok, Hsel.
      simpl negb. rewrite bind_when_false, Hgr, Hdone, bind_orContinue_Ok, bind_when_false.
      unfold bind at 1. by rewrite Hc.
    + unfold restoreItem.
      rewrite Hget, bind_orContinue_Ok, Hdec, bind_orContinue_Ok, Hsel.
      simpl negb. rewrite bind_when_false, Hgr, Hdone, bind_orContinue_Ok, bind_when_false.
      unfold bind at 1. by rewrite Hc.
  - unfold restoreItem.
    rewrite Hget, bind_orContinue_Ok, Hdec, bind_orContinue_Ok, Hsel.
    simpl negb. rewrite bind_when_false, Hgr, Hdone, stateOf_bind_orContinue_Err. done.
Qed.

(** X15. An item that cannot be read from the archive, or whose bytes do
    not decode, costs one error under the namespace of the call (the
    cluster list for a cluster-scoped resource type) and nothing else: the
    loop goes on with the files that follow. *)
Theorem broken_item_is_skipped X ctx archiveReader resource namespace file files s :
  (∀ err, archive.readerGet archiveReader resource namespace file = Err err →
   forEach (restoreItem X ctx archiveReader resource namespace) (file :: files) s
   = forEach (restoreItem X ctx archiveReader resource namespace) files
       (setErrs (addToResult (errs s) namespace
                   (restore.wrap err (itemMsg "error getting" file resource namespace))) s)) ∧
  (∀ bytes err, archive.readerGet archiveReader resource namespace file = Ok bytes →
   Unmarshal X bytes = Err err →
   forEach (restoreItem X ctx archiveReader resource namespace) (file :: files) s
   = forEach (restoreItem X ctx archiveReader resource namespace) files
       (setErrs (addToResult (errs s) namespace
                   (restore.wrap err (itemMsg "error decoding" file resource namespace))) s)).
Proof.
  split.
  - intros err Hget. simpl. unfold restoreItem at 1. by rewrite Hget.
  - intros bytes err Hget Hdec. simpl. unfold restoreItem at 1.
    rewrite Hget, bind_orContinue_Ok. by rewrite Hdec.
Qed.

(** ** Messages are kept *)

(** Every list of the first result is the beginning of the list of the
    second. *)
Definition resultLe (a b : RestoreResult) : Prop :=
  Ark a `prefix_of` Ark b ∧ Cluster a `prefix_of` Cluster b ∧
  ∀ ns, default [] (Namespaces a !! ns) `prefix_of` default [] (Namespaces b !! ns).

#[local] Instance resultLe_preorder : PreOrder resultLe.
Proof.
  split.
  - intros a. by split_and!.
  - intros a b c (? & ? & Hab) (? & ? & Hbc). split_and!; [by etrans..|].
    intros ns. etrans; [apply Hab|apply Hbc].
Qed.

Lemma resultLe_addToResult a ns e : resultLe a (addToResult a ns e).
Proof.
  unfold addToResult. destruct (decide (ns = "")); split_and!; simpl; try done.
  - by apply prefix_app_r.
  - intros k. destruct (decide (k = ns)) as [->|Hk].
    + rewrite lookup_insert_eq. simpl. by apply prefix_app_r.
    + by rewrite lookup_insert_ne.
Qed.

Lemma resultLe_addArkError a e : resultLe a (addArkError a e).
Proof. split_and!; simpl; try done. by apply prefix_app_r. Qed.

Lemma resultLe_merge a b : resultLe a (merge a b).
Proof.
  split_and!; simpl; [by apply prefix_app_r..|].
  intros ns. rewrite lookup_union_with.
  destruct (Namespaces a !! ns), (Namespaces b !! ns); simpl; try done.
  - by apply prefix_app_r.
  - apply prefix_nil.
Qed.

Definition keepsMessages : relation (@rstate World WatchT) :=
  λ s s', resultLe (errs s) (errs s') ∧ resultLe (warnings s) (warnings s').

#[local] Instance keepsMessages_preorder : PreOrder keepsMessages.
Proof.
  split; [intros s; by split|].
  intros s1 s2 s3 [? ?] [? ?]. split; by etrans.
Qed.

(** X16. No message is lost: across the restore of the items of a call,
    every list of errors and of warnings (system, cluster and each
    namespace) keeps the messages it had, in their order, and gets new
    ones at its end only; and merging a result into an accumulated one
    keeps the messages of the accumulated one in the same way. *)
Theorem messages_are_kept X ctx archiveReader resource namespace files s :
  keepsMessages s
    (stateOf (forEach (restoreItem X ctx archiveReader resource namespace) files s)) ∧
  ∀ a b, resultLe a (merge a b).
Proof.
  split; [|apply resultLe_merge].
  apply preserves_forEach; [apply _|]. intros file _.
  apply restoreItem_invariant; [apply _|..].
  - by intros; split.
  - intros s0 ns e. split; [apply resultLe_addToResult|done].
  - intros s0 e. split; [apply resultLe_addArkError|done].
  - intros s0 ns e. split; [done|apply resultLe_addToResult].
  - by intros; split.
  - by intros; split.
  - by intros; split.
  - intros ctx' resource' namespace' obj.
    apply getResourceClient_invariant; [apply _| |by intros; split].
    intros s0 e. split; [apply resultLe_addArkError|done].
Qed.

(** ** A resource type without client *)

Lemma Ark_addToResult (a : RestoreResult) ns e : Ark (addToResult a ns e) = Ark a.
Proof. unfold addToResult. by destruct (decide (ns = "")). Qed.

Lemma restoreItem_without_client X ctx archiveReader resource namespace file s :
  (∀ gv apiResource ns, is_Err (dynamicFactory ctx gv apiResource ns)) →
  resourceClient s = None →
  match restoreItem X ctx archiveReader resource namespace file s with
  | Continue s' =>
      resourceClient s' = None ∧ noCall s s' ∧ Ark (errs s') = Ark (errs s)
  | Return s' =>
      resourceClient s' = None ∧ noCall s s' ∧ ∃ msg, Ark (errs s') = Ark (errs s) ++ [msg]
  | Val _ _ | Panic _ => False
  end.
Proof.
  intros Hfactory Hnone. unfold restoreItem.
  destruct (archive.readerGet archiveReader resource namespace file) as [bytes|err].
  2:{ unfold bind, orContinue, bind, addToErrs, modify. simpl.
      by rewrite Ark_addToResult. }
  rewrite bind_orContinue_Ok.
  destruct (Unmarshal X bytes) as [obj|err].
  2:{ unfold bind, orContinue, bind, addToErrs, modify. simpl.
      by rewrite Ark_addToResult. }
  rewrite bind_orContinue_Ok.
  destruct (Matches (selector ctx) (Set_ (GetLabels obj))); [|done].
  simpl negb. rewrite bind_when_false.
  destruct (isCompleted obj (groupResource resource)) as [[|]|err].
  - rewrite bind_orContinue_Ok. done.
  - rewrite bind_orContinue_Ok, bind_when_false.
    unfold bind at 1. unfold getResourceClient, bind at 1, gets. rewrite Hnone.
    match goal with |- context [dynamicFactory ctx ?gv ?r ?ns] =>
      pose proof (Hfactory gv r ns) as Herr; destruct (dynamicFactory ctx gv r ns) end;
      [done|].
    unfold bind, modify, return_. simpl. split; [done|]. split; [done|]. by eexists.
  - unfold bind, orContinue, bind, addToErrs, modify. simpl.
    by rewrite Ark_addToResult.
Qed.

Lemma forEach_without_client X ctx archiveReader resource namespace files s :
  (∀ gv apiResource ns, is_Err (dynamicFactory ctx gv apiResource ns)) →
  resourceClient s = None →
  match forEach (restoreItem X ctx archiveReader resource namespace) files s with
  | Val _ s' => resourceClient s' = None ∧ noCall s s' ∧ Ark (errs s') = Ark (errs s)
  | Return s' =>
      resourceClient s' = None ∧ noCall s s' ∧ ∃ msg, Ark (errs s') = Ark (errs s) ++ [msg]
  | Continue _ | Panic _ => False
  end.
Proof.
  intros Hfactory. revert s. induction files as [|file files IH]; intros s Hnone; simpl.
  - by split.
  - pose proof (restoreItem_without_client X ctx archiveReader resource namespace file s
                  Hfactory Hnone) as Hitem.
    destruct (restoreItem X ctx archiveReader resource namespace file s)
      as [[] s1|s1|s1|s1]; try done.
    destruct Hitem as (Hnone1 & Hcall1 & Hark1).
    specialize (IH s1 Hnone1).
    destruct (forEach _ files s1) as [[] s2|s2|s2|s2]; try done.
    + destruct IH as (Hnone2 & Hcall2 & Hark2).
      split; [done|]. split; [by etrans|congruence].
    + destruct IH as (Hnone2 & Hcall2 & [msg Hark2]).
      split; [done|]. split; [by etrans|]. exists msg. congruence.
Qed.

(** X17. When the factory has no client for a resource type, a call of
    [restoreResource] for it creates nothing and calls nothing: it ends,
    without a panic, at the first item that needs the client, with one
    system error at most and no warning, and the items after that one are
    not looked at. *)
Theorem client_failure_ends_the_call X ctx archiveReader resource namespace s :
  (∀ gv apiResource ns, is_Err (dynamicFactory ctx gv apiResource ns)) →
  ∃ s', restoreResource X ctx archiveReader resource namespace s = Some s' ∧
        trace s' = trace s ∧ world s' = world s ∧
        warnings s' = emptyResult ∧ (List.length (Ark (errs s')) ≤ 1)%nat.
Proof.
  intros Hfactory. unfold restoreResource.
  destruct (_ && _); [eexists; split; [done|]; simpl; split_and!; auto|].
  destruct (archive.readerListContents _ _ _) as [files|err];
    [|eexists; split; [done|]; simpl; rewrite Ark_addToResult; simpl; split_and!; auto].
  destruct files as [|file files]; [eexists; split; [done|]; simpl; split_and!; auto|].
  pose proof (forEach_without_client X ctx archiveReader resource namespace
                (file :: files) (freshLocals s) Hfactory eq_refl) as Hloop.
  destruct (forEach _ _ _) as [[] s1|s1|s1|s1]; try done.
  - destruct Hloop as (Hnone & (Ht & Hw & Hwarn) & Hark). eexists; split; [done|].
    rewrite (returned_without_client _ Hnone).
    simpl in *. rewrite Hark. simpl. split_and!; auto.
  - destruct Hloop as (Hnone & (Ht & Hw & Hwarn) & [msg Hark]). eexists; split; [done|].
    rewrite (returned_without_client _ Hnone).
    simpl in *. rewrite Hark. simpl. split_and!; auto.
Qed.

(** ** A claim on a volume that is left to provisioning *)

Lemma GetAnnotations_metadata obj annotations :
  GetAnnotations obj = Some annotations →
  ∃ metadata, obj !! "metadata" = Some (VMap metadata).
Proof.
  unfold GetAnnotations, NestedStringMap, NestedFieldNoCopy. simpl.
  destruct (obj !! "metadata") as [[]|]; try done. by eexists.
Qed.

Lemma GetAnnotations_SetAnnotations obj metadata annotations :
  obj !! "metadata" = Some (VMap metadata) →
  GetAnnotations (SetAnnotations obj (Some annotations)) = Some annotations.
Proof.
  intros Hm. unfold SetAnnotations, setNestedField2. rewrite Hm.
  unfold GetAnnotations, NestedStringMap.
  erewrite NestedFieldNoCopy_metadata by apply lookup_insert_eq.
  rewrite lookup_insert_eq. rewrite decide_True.
  - by rewrite omap_asString_VStr.
  - intros k v. rewrite lookup_fmap. destruct (annotations !! k); [|done].
    intros [= <-]. by eexists.
Qed.

Lemma GetAnnotations_insert obj k v :
  k ≠ "metadata" → GetAnnotations (<[k := v]> obj) = GetAnnotations obj.
Proof.
  intros Hk. unfold GetAnnotations, NestedStringMap, NestedFieldNoCopy. simpl.
  by rewrite lookup_insert_ne.
Qed.

Lemma SetAnnotations_other obj annotations k :
  k ≠ "metadata" → SetAnnotations obj annotations !! k = obj !! k.
Proof.
  intros Hk. unfold SetAnnotations, setNestedField2, removeNestedField2.
  destruct annotations; destruct (obj !! "metadata") as [[]|]; try done;
    by rewrite lookup_insert_ne.
Qed.

(** X18. A persistent volume claim whose volume is in the provisioning
    set is reset for dynamic provisioning: the volume name is taken out of
    its specification and the two binding annotations out of its
    annotations; the rest of the specification, the other annotations and
    the fields outside specification and metadata stay. A claim whose
    volume is not in the set is left as it is. In both cases nothing is
    called and nothing is recorded. *)
Theorem claim_of_provisioned_volume namespace obj spec volumeName s :
  accessors.GetMap obj ["spec"] = Ok spec →
  spec !! "volumeName" = Some (VStr volumeName) →
  (volumeName ∉ pvsToProvision s →
   resetPersistentVolumeClaim namespace obj s = Val obj s) ∧
  (volumeName ∈ pvsToProvision s →
   ∃ reset,
     resetPersistentVolumeClaim namespace obj s = Val reset s ∧
     accessors.GetMap reset ["spec"] = Ok (delete "volumeName" spec) ∧
     (∀ k, k ≠ "spec" → k ≠ "metadata" → reset !! k = obj !! k) ∧
     ∀ annotations,
       GetAnnotations obj = Some annotations →
       GetAnnotations reset
       = Some (delete "pv.kubernetes.io/bound-by-controller"
                 (delete "pv.kubernetes.io/bind-completed" annotations))).
Proof.
  intros Hspec Hvolume. unfold resetPersistentVolumeClaim.
  rewrite Hspec, bind_orContinue_Ok, Hvolume, bind_gets. split.
  - intros Hout. by rewrite decide_False.
  - intros Hin. rewrite decide_True by done. eexists. split; [reflexivity|].
    split; [|split].
    + rewrite GetMap_field, SetAnnotations_other by done. by rewrite lookup_insert_eq.
    + intros k Hk1 Hk2. rewrite SetAnnotations_other by done. by rewrite lookup_insert_ne.
    + intros annotations Hannotations.
      rewrite GetAnnotations_insert, Hannotations by done. simpl.
      destruct (GetAnnotations_metadata _ _ Hannotations) as [metadata Hm].
      eapply GetAnnotations_SetAnnotations. rewrite lookup_insert_ne by done. exact Hm.
Qed.

End item_steps.

Section item_steps_examples.
Import schema discovery collections unstructured labels api restore.

(** X12, witness: the retained volume, with a snapshot record, restored
    from a backup that was taken without snapshots. *)
Lemma executePVAction_without_restore_witness :
  executePVAction (WatchT := string)
    (mkPVRestorer (World := cluster) (Some false) None {[ "pv1" := snapshot1 ]} None)
    retained emptyCluster
  = Val (Ok (volume "pv1" [("persistentVolumeReclaimPolicy", VStr "Retain")]))
      emptyCluster.
Proof.
  refine (proj1 (executePVAction_without_restore
                   (mkPVRestorer (Some false) None {[ "pv1" := snapshot1 ]} None)
                   retained
                   (list_to_map [("persistentVolumeReclaimPolicy", VStr "Retain");
                                 ("claimRef", VMap {[ "name" := VStr "claim-1" ]});
                                 ("storageClassName", VStr "gold")])
                   emptyCluster _ eq_refl) (or_introl eq_refl)).
  done.
Defined.

(** X13, witness: the second of the two pods, in a call that has a
    client. *)
Lemma resource_client_is_kept_witness :
  resourceClient
    (stateOf (restoreItem (fakeExternals twoPods) podsContext (fakeReader twoPods)
                "pods" "ns-1" "p2.json"
                (setResourceClient (fakeClient "pods" "ns-1") emptyCluster)))
  = Some (fakeClient "pods" "ns-1").
Proof.
  exact (proj1 (resource_client_is_kept (fakeExternals twoPods) podsContext
                  (fakeReader twoPods) "pods" "ns-1" "p2.json" (fakeClient "pods" "ns-1")
                  (setResourceClient (fakeClient "pods" "ns-1") emptyCluster) eq_refl)).
Defined.

(** A pod that the kubelet runs from a file on its node. *)
Definition mirrorPod : Unstructured :=
  list_to_map
    [("apiVersion", VStr "v1"); ("kind", VStr "Pod");
     ("metadata", VMap (list_to_map
        [("name", VStr "etcd-node1"); ("namespace", VStr "ns-1");
         ("annotations",
          VMap {[ "kubernetes.io/config.mirror" := VStr "9f2c" ]})]))].

Definition mirrorPods : list item :=
  [ mkItem "pods" "ns-1" "etcd-node1.json" (Ok mirrorPod) ].

(** X14, witness: that pod. *)
Lemma mirror_pod_not_created_witness :
  restoreItem (fakeExternals mirrorPods) podsContext (fakeReader mirrorPods)
    "pods" "ns-1" "etcd-node1.json" emptyCluster
  = Continue (setResourceClient (fakeClient "pods" "ns-1") emptyCluster).
Proof.
  refine (proj2 (mirror_pod_not_created (fakeExternals mirrorPods) podsContext
                   (fakeReader mirrorPods) "pods" "ns-1" "etcd-node1.json"
                   "pods/ns-1/etcd-node1.json" mirrorPod emptyCluster
                   eq_refl eq_refl eq_refl _)
            eq_refl eq_refl (fakeClient "pods" "ns-1") _ eq_refl).
  apply computed_ne. reflexivity.
Defined.

(** A context whose factory knows no resource type. *)
Definition withoutClients : @context cluster string :=
  mkContext (fakeBackup ∅) fakeRestore [kuberesource.Pods] Everything
    (λ _ _ _, Err "the server could not find the requested resource") [] None
    (mkPVRestorer None None ∅ None).

(** X17, witness: the two pods, neither of which is created; the error is
    recorded once. *)
Lemma client_failure_ends_the_call_witness :
  ∃ s', restoreResource (fakeExternals twoPods) withoutClients (fakeReader twoPods)
          "pods" "ns-1" emptyCluster = Some s' ∧
        trace s' = [] ∧ world s' = ∅ ∧ warnings s' = emptyResult ∧
        (List.length (Ark (errs s')) ≤ 1)%nat.
Proof.
  apply (client_failure_ends_the_call (fakeExternals twoPods) withoutClients
           (fakeReader twoPods) "pods" "ns-1" emptyCluster).
  intros gv apiResource ns. exact I.
Defined.

Example restoreResource_withoutClients :
  errs <$> restoreResource (fakeExternals twoPods) withoutClients (fakeReader twoPods)
             "pods" "ns-1" emptyCluster
  = Some (mkResult
            ["error getting resource client for namespace " +:+ quoted "ns-1"
             +:+ ", resource " +:+ quoted "pods"
             +:+ ": the server could not find the requested resource"] [] ∅).
Proof. reflexivity. Qed.

(** A claim bound to the volume [pv2]. *)
Definition boundClaim : Unstructured :=
  list_to_map
    [("apiVersion", VStr "v1"); ("kind", VStr "PersistentVolumeClaim");
     ("metadata", VMap (list_to_map
        [("name", VStr "claim-2"); ("namespace", VStr "ns-1");
         ("annotations",
          VMap (list_to_map
            [("pv.kubernetes.io/bind-completed", VStr "yes");
             ("pv.kubernetes.io/bound-by-controller", VStr "yes");
             ("team", VStr "a")]))]));
     ("spec", VMap (list_to_map
        [("volumeName", VStr "pv2"); ("storageClassName", VStr "gold")]))].

(** X18, witness: that claim, after [pv2] has been left to
    provisioning. *)
Lemma claim_of_provisioned_volume_witness :
  ∃ reset,
    resetPersistentVolumeClaim "ns-1" boundClaim (insertProvision "pv2" emptyCluster)
    = Val reset (insertProvision "pv2" emptyCluster) ∧
    accessors.GetMap reset ["spec"] = Ok {[ "storageClassName" := VStr "gold" ]} ∧
    GetAnnotations reset = Some {[ "team" := "a" ]}.
Proof.
  destruct (claim_of_provisioned_volume (World := cluster) (WatchT := string)
              "ns-1" boundClaim
              (list_to_map [("volumeName", VStr "pv2"); ("storageClassName", VStr "gold")])
              "pv2" (insertProvision "pv2" emptyCluster) eq_refl eq_refl)
    as [_ Hin].
  destruct Hin as (reset & Hreset & Hspec & _ & Hannotations); [set_solver|].
  exists reset. split; [exact Hreset|]. split.
  - rewrite Hspec. reflexivity.
  - rewrite (Hannotations (list_to_map
               [("pv.kubernetes.io/bind-completed", "yes");
                ("pv.kubernetes.io/bound-by-controller", "yes"); ("team", "a")]))
      by reflexivity.
    reflexivity.
Defined.

End item_steps_examples.


(** * The whole restore *)
Section whole_restore.
Import schema discovery collections unstructured labels api restore.
Context {World WatchT : Type}.
Implicit Types (X : @externals World) (ctx : @context World WatchT)
  (s : @rstate World WatchT) (obj : Unstructured) (evs : list (@event WatchT)).

(** ** Watches *)

(** The watches on which a wait was started, and the watches stopped. *)
Definition started evs : list WatchT :=
  omap (λ ev, match ev with EvGoWaitForReady w _ _ => Some w | _ => None end) evs.
Definition stopped evs : list WatchT :=
  omap (λ ev, match ev with EvStop w => Some w | _ => None end) evs.

(** The watches of the restore are those on which a wait was started, and
    none has been stopped. *)
Definition tracked s : Prop :=
  resourceWatches s = started (trace s) ∧ stopped (trace s) = [].

Definition keepsTrack : relation (@rstate World WatchT) := λ s s', tracked s → tracked s'.

#[local] Instance keepsTrack_preorder : PreOrder keepsTrack.
Proof.
  split; [intros s; by unfold keepsTrack|].
  intros s1 s2 s3 H1 H2 H. by apply H2, H1.
Qed.

Lemma started_app evs1 evs2 : started (evs1 ++ evs2) = started evs1 ++ started evs2.
Proof. apply omap_app. Qed.

Lemma stopped_app evs1 evs2 : stopped (evs1 ++ evs2) = stopped evs1 ++ stopped evs2.
Proof. apply omap_app. Qed.

Lemma tracked_event s w ev :
  (∀ h name timeout, ev ≠ EvGoWaitForReady h name timeout) → (∀ h, ev ≠ EvStop h) →
  keepsTrack s (setWorld w ev s).
Proof.
  intros Hgo Hstop [Hw Hs]. unfold tracked. cbn [trace resourceWatches setWorld].
  rewrite started_app, stopped_app, Hs, <-Hw.
  destruct ev; cbn; rewrite ?app_nil_r; try done.
  - by destruct (Hstop w0).
  - by destruct (Hgo w0 name timeout).
Qed.

Lemma restoreResource_keepsTrack X ctx archiveReader resource namespace s s' :
  restoreResource X ctx archiveReader resource namespace s = Some s' → keepsTrack s s'.
Proof.
  apply restoreResource_invariant; [apply _|..]; try (intros; by unfold keepsTrack).
  - intros s0 w ev Hev. apply tracked_event; intros; by destruct ev.
  - intros s0 w name [Hw Hs]. unfold tracked. cbn [trace resourceWatches startWatch].
    rewrite started_app, stopped_app, Hs, <-Hw. done.
  - intros s0 createdObj [Hw Hs]. unfold tracked.
    cbn [trace resourceWatches goRestorePodVolumes].
    rewrite started_app, stopped_app, Hs, <-Hw. cbn. by rewrite app_nil_r.
  - intros ctx' resource' namespace' obj.
    apply getResourceClient_invariant; [apply _|..]; intros; by unfold keepsTrack.
Qed.

Lemma trace_stopWatches s :
  trace (stopWatches s) = trace s ++ (EvStop <$> resourceWatches s).
Proof.
  unfold stopWatches. generalize (resourceWatches s) as ws. intros ws. revert s.
  induction ws as [|w ws IH]; intros s; simpl; [by rewrite app_nil_r|].
  rewrite IH. simpl. by rewrite <-app_assoc.
Qed.

Lemma stopped_EvStop (ws : list WatchT) :
  stopped (EvStop <$> ws) = ws ∧ started (EvStop <$> ws) = [].
Proof.
  induction ws as [|w ws [IH1 IH2]]; [done|].
  change (EvStop <$> w :: ws) with ([@EvStop WatchT w] ++ (EvStop <$> ws)).
  rewrite stopped_app, started_app, IH1, IH2. done.
Qed.

(** X19. Every watch is stopped, once: when [restoreFromArchive] returns,
    on the path that runs to the end and on the paths that return early,
    the watches on which a wait was started have all been stopped, in the
    order in which they were opened, and they were stopped after
    everything else the engine did. *)
Theorem watches_are_stopped X ctx archiveReader s warnings' errs' s' :
  resourceWatches s = started (trace s) →
  stopped (trace s) = [] →
  restoreFromArchive X ctx archiveReader s = Some (warnings', errs', s') →
  ∃ evs, trace s' = evs ++ (EvStop <$> started evs) ∧
         stopped evs = [] ∧
         stopped (trace s') = started (trace s').
Proof.
  intros Hw Hs. unfold restoreFromArchive.
  destruct (restoreResources _ _ _ _ _ _ _ _ _) as [[[[ended w1] e1] s1]|] eqn:Hres;
    [|done].
  assert (Htracked : tracked s1).
  { eapply (restoreResources_invariant X ctx archiveReader keepsTrack); [..|exact Hres|].
    - intros resource namespace s0 s0'. apply restoreResource_keepsTrack.
    - intros s0 w ns. apply tracked_event; by intros.
    - by split. }
  destruct Htracked as [Hw1 Hs1].
  assert (Hend : ∀ s2, trace s2 = trace s1 → resourceWatches s2 = resourceWatches s1 →
            ∃ evs, trace (stopWatches s2) = evs ++ (EvStop <$> started evs) ∧
                   stopped evs = [] ∧
                   stopped (trace (stopWatches s2)) = started (trace (stopWatches s2))).
  { intros s2 Ht2 Hw2. exists (trace s1).
    rewrite trace_stopWatches, Ht2, Hw2, Hw1. split; [done|]. split; [done|].
    rewrite started_app, stopped_app.
    destruct (stopped_EvStop (started (trace s1))) as [-> ->].
    by rewrite Hs1, app_nil_r. }
  destruct ended.
  - destruct (waitGlobal _ _ _ _) as [waitErrs w]. intros [= _ _ <-]. by apply Hend.
  - intros [= _ _ <-]. by apply Hend.
Qed.

(** ** Namespaces *)

(** The names of the namespaces ensured. *)
Definition ensured evs : list string :=
  omap (λ ev, match ev with
              | EvEnsureNamespaceExists ns => Some (nsName ns)
              | _ => None
              end) evs.

Definition sameEnsured : relation (@rstate World WatchT) :=
  λ s s', ensured (trace s') = ensured (trace s).

#[local] Instance sameEnsured_preorder : PreOrder sameEnsured.
Proof.
  split; [intros s; by unfold sameEnsured|].
  intros s1 s2 s3. unfold sameEnsured. congruence.
Qed.

Lemma ensured_app evs1 evs2 : ensured (evs1 ++ evs2) = ensured evs1 ++ ensured evs2.
Proof. apply omap_app. Qed.

Lemma sameEnsured_event s w ev :
  (∀ ns, ev ≠ EvEnsureNamespaceExists ns) → sameEnsured s (setWorld w ev s).
Proof.
  intros Hev. unfold sameEnsured. cbn [trace setWorld]. rewrite ensured_app.
  destruct ev; cbn; rewrite ?app_nil_r; try done. by destruct (Hev ns).
Qed.

Lemma restoreResource_sameEnsured X ctx archiveReader resource namespace s s' :
  restoreResource X ctx archiveReader resource namespace s = Some s' → sameEnsured s s'.
Proof.
  apply restoreResource_invariant; [apply _|..]; try (intros; by unfold sameEnsured).
  - intros s0 w ev Hev. apply sameEnsured_event. intros; by destruct ev.
  - intros s0 w name. unfold sameEnsured. cbn [trace startWatch].
    rewrite ensured_app. cbn. by rewrite app_nil_r.
  - intros s0 createdObj. unfold sameEnsured. cbn [trace goRestorePodVolumes].
    rewrite ensured_app. cbn. by rewrite app_nil_r.
  - intros ctx' resource' namespace' obj.
    apply getResourceClient_invariant; [apply _|..]; intros; by unfold sameEnsured.
Qed.

Lemma nsName_getNamespace unmarshalNamespace archiveReader name remappedName :
  nsName (getNamespace unmarshalNamespace archiveReader name remappedName) = remappedName.
Proof.
  unfold getNamespace. destruct (archive.readerGet _ _ _ _) as [nsBytes|]; [|done].
  by destruct (unmarshalNamespace nsBytes).
Qed.

(** The names ensured so far are verified, and none was ensured twice. *)
Definition ensuredOnce (existing : gset string) s : Prop :=
  (∀ name, name ∈ ensured (trace s) → name ∈ existing) ∧ NoDup (ensured (trace s)).

Section ensure_succeeds.
Variable X : @externals World.
Hypothesis ensure_succeeds : ∀ ns w, ¬ is_Err (EnsureNamespaceExists X ns w).1.

Lemma restoreNamespaces_ensuredOnce ctx archiveReader namespaceFilter resource
    namespaces accWarnings accErrs existing s accWarnings' accErrs' existing' s' :
  ensuredOnce existing s →
  restoreNamespaces X ctx archiveReader namespaceFilter resource namespaces
    accWarnings accErrs existing s = Some (accWarnings', accErrs', existing', s') →
  ensuredOnce existing' s'.
Proof using ensure_succeeds.
  revert accWarnings accErrs existing s.
  induction namespaces as [|name namespaces IH]; intros accWarnings accErrs existing s Hinv;
    simpl; [by intros [= _ _ <- <-]|].
  destruct (negb _); [by apply IH|].
  unfold ensureNamespace. destruct (decide (_ ∈ existing)) as [Hin|Hout].
  - destruct (restoreResource _ _ _ _ _ _) as [s1|] eqn:Hres; [|done].
    apply IH. apply restoreResource_sameEnsured in Hres.
    unfold ensuredOnce. by rewrite Hres.
  - match goal with |- context [EnsureNamespaceExists X ?ns ?w] =>
      pose proof (ensure_succeeds ns w) as Hok;
      destruct (EnsureNamespaceExists X ns w) as [[?|err] w1] end; [|by destruct Hok].
    destruct (restoreResource _ _ _ _ _ _) as [s1|] eqn:Hres; [|done].
    apply IH. apply restoreResource_sameEnsured in Hres.
    unfold ensuredOnce. rewrite Hres. cbn [trace setWorld]. rewrite ensured_app.
    cbn [ensured omap option_bind mbind list_omap]. rewrite nsName_getNamespace.
    destruct Hinv as [Hsub Hnd]. split.
    + intros n Hn. apply elem_of_app in Hn as [Hn|Hn]; [set_solver|].
      apply list_elem_of_singleton in Hn as ->. set_solver.
    + apply NoDup_app. split; [done|]. split; [|apply NoDup_singleton].
      intros n Hn Hn'. apply list_elem_of_singleton in Hn' as ->. by apply Hout, Hsub.
Qed.

Lemma restoreResources_ensuredOnce ctx archiveReader namespaceFilter resources
    accWarnings accErrs existing s ended accWarnings' accErrs' s' :
  ensuredOnce existing s →
  restoreResources X ctx archiveReader namespaceFilter resources
    accWarnings accErrs existing s = Some (ended, accWarnings', accErrs', s') →
  NoDup (ensured (trace s')).
Proof using ensure_succeeds.
  revert accWarnings accErrs existing s.
  induction resources as [|resource resources IH];
    intros accWarnings accErrs existing s Hinv;
    simpl; [intros [= _ _ _ <-]; apply Hinv|].
  destruct (decide _); [by apply IH|].
  destruct (archive.readerGetResourceScope _ _) as [[scope [|]]|err];
    [|by apply IH|intros [= _ _ _ <-]; apply Hinv].
  destruct (String.eqb _ _).
  - destruct (restoreResource _ _ _ _ _ _) as [s1|] eqn:Hres; [|done].
    apply IH. apply restoreResource_sameEnsured in Hres.
    unfold ensuredOnce. by rewrite Hres.
  - destruct (archive.readerListNamespaces _ _) as [namespaces|err];
      [|intros [= _ _ _ <-]; apply Hinv].
    destruct (restoreNamespaces _ _ _ _ _ _ _ _ _ _) as [[[[w1 e1] ex1] s1]|] eqn:Hns;
      [|done].
    apply IH. by eapply restoreNamespaces_ensuredOnce.
Qed.

(** X20. When ensuring a namespace does not fail, no namespace is ensured
    twice in a restore: [restoreFromArchive], started before any namespace
    was ensured, calls [EnsureNamespaceExists] once at most for each
    target name, however many resource types and namespaces of the archive
    are restored into it. *)
Theorem namespaces_ensured_once ctx archiveReader s warnings' errs' s' :
  ensured (trace s) = [] →
  restoreFromArchive X ctx archiveReader s = Some (warnings', errs', s') →
  NoDup (ensured (trace s')).
Proof using ensure_succeeds.
  intros Hnone. unfold restoreFromArchive.
  destruct (restoreResources _ _ _ _ _ _ _ _ _) as [[[[ended w1] e1] s1]|] eqn:Hres;
    [|done].
  assert (Hnd : NoDup (ensured (trace s1))).
  { eapply restoreResources_ensuredOnce; [|exact Hres].
    split; rewrite Hnone; [set_solver|constructor]. }
  assert (Hend : ∀ s2, trace s2 = trace s1 → NoDup (ensured (trace (stopWatches s2)))).
  { intros s2 Ht2. rewrite trace_stopWatches, Ht2, ensured_app.
    replace (ensured (EvStop <$> resourceWatches s2)) with (@nil string);
      [by rewrite app_nil_r|].
    induction (resourceWatches s2); [done|]. cbn. done. }
  destruct ended.
  - destruct (waitGlobal _ _ _ _) as [waitErrs w]. intros [= _ _ <-]. by apply Hend.
  - intros [= _ _ <-]. by apply Hend.
Qed.

End ensure_succeeds.

(** ** Cluster-scoped resources *)

(** An event other than the creation of an object outside the
    namespaces. *)
Definition inSomeNamespace (ev : @event WatchT) : Prop :=
  match ev with EvCreate obj => GetNamespace obj ≠ "" | _ => True end.

(** X21. In a restore that excludes the cluster-scoped resources
    ([IncludeClusterResources] set to false), every object that
    [restoreFromArchive] hands to [Create] has a namespace. The flag does
    not reach the namespaces themselves: they are ensured, by
    [EnsureNamespaceExists], as in any restore. *)
Theorem cluster_resources_excluded X ctx archiveReader s warnings' errs' s' :
  IncludeClusterResources (restore ctx) = Some false →
  restoreFromArchive X ctx archiveReader s = Some (warnings', errs', s') →
  ∃ evs, trace s' = trace s ++ evs ∧
         ∀ obj, EvCreate obj ∈ evs → GetNamespace obj ≠ "".
Proof.
  intros Hflag Hrun.
  assert (Happends : appends inSomeNamespace s s').
  { revert Hrun.
    apply (restoreFromArchive_invariant X ctx archiveReader (appends inSomeNamespace)).
    - intros resource namespace s0 s0' Hres.
      destruct (decide (namespace = "")) as [->|Hns].
      + unfold restoreResource in Hres. rewrite Hflag in Hres. simpl in Hres.
        injection Hres as <-. by apply appends_same.
      + eapply appends_weaken; [|by eapply restoreResource_inNamespace].
        intros [] Hev; simpl in *; try done. by rewrite Hev.
    - intros s0 w ns. by eapply appends_one.
    - intros s0 w. by apply appends_same.
    - intros s0 w. by eapply appends_one. }
  destruct Happends as (evs & Htrace & Hall). exists evs. split; [exact Htrace|].
  intros obj Hin. rewrite Forall_forall in Hall. exact (Hall _ Hin).
Qed.

(** ** The provisioning set *)

(** X22. The provisioning set only grows in a restore: a volume name that
    is in the set stays in it until [restoreFromArchive] returns, so that
    the claims restored later find it. *)
Theorem provisioning_set_grows X ctx archiveReader s warnings' errs' s' :
  restoreFromArchive X ctx archiveReader s = Some (warnings', errs', s') →
  pvsToProvision s ⊆ pvsToProvision s'.
Proof.
  apply (restoreFromArchive_invariant X ctx archiveReader provisionGrows);
    try (intros; by unfold provisionGrows).
  intros resource namespace s0 s0'.
  apply restoreResource_invariant; [apply _|..]; try (intros; by unfold provisionGrows).
  - intros s0'' name. unfold provisionGrows. simpl. set_solver.
  - intros ctx' resource' namespace' obj.
    apply getResourceClient_invariant; [apply _|..]; intros; by unfold provisionGrows.
Qed.

End whole_restore.

(** * The preparation of a restore *)
Section preparation.
Import schema discovery collections unstructured labels api restore prioritize.
Context {World WatchT : Type}.
Implicit Types (X : @externals World) (helper : Helper) (actions : list ItemAction).

(** What stops the resolution of an action with the error [err]: its
    descriptor cannot be had, or its label selector does not parse. *)
Definition actionFails X (err : error) (a : ItemAction) : Prop :=
  AppliesTo a = Err err ∨
  ∃ sel, AppliesTo a = Ok sel ∧ selLabelSelector sel ≠ "" ∧
         ParseSelector X (selLabelSelector sel) = Err err.

(** The selector of a resolved action is the one its descriptor asks
    for. *)
Definition actionResolved X (ra : resolvedAction) : Prop :=
  ∃ sel, AppliesTo (action ra) = Ok sel ∧
         (selLabelSelector sel = "" → actionSelector ra = Everything) ∧
         (selLabelSelector sel ≠ "" →
          ParseSelector X (selLabelSelector sel) = Ok (actionSelector ra)).

(** X23. [resolveActions] resolves all actions or none: when it succeeds,
    the resolved actions are the given actions, one for one and in the
    given order, each with the label selector that its descriptor asks
    for, an empty one standing for the selector of everything; when it
    fails, its error is that of an action whose descriptor cannot be had
    or whose label selector does not parse. *)
Theorem resolveActions_order X actions helper :
  match resolveActions X actions helper with
  | Ok resolved =>
      restore.action <$> resolved = actions ∧ Forall (actionResolved X) resolved
  | Err err => Exists (actionFails X err) actions
  end.
Proof.
  induction actions as [|a actions IH]; simpl; [by split|].
  destruct (AppliesTo a) as [sel|err] eqn:Happlies; [|left; by left].
  destruct (decide (selLabelSelector sel = "")) as [Hempty|Hlabel].
  - destruct (resolveActions X actions helper) as [resolved|err].
    + destruct IH as [Hactions Hall]. split; [by rewrite fmap_cons, Hactions|].
      constructor; [|done]. exists sel. by split.
    + by right.
  - destruct (ParseSelector X (selLabelSelector sel)) as [selector|err] eqn:Hparse.
    + destruct (resolveActions X actions helper) as [resolved|err].
      * destruct IH as [Hactions Hall]. split; [by rewrite fmap_cons, Hactions|].
        constructor; [|done]. exists sel. by split.
      * by right.
    + left. right. by exists sel.
Qed.

Lemma resolveActions_Err X actions helper :
  Exists (λ a, is_Err (AppliesTo a)) actions → is_Err (resolveActions X actions helper).
Proof.
  induction 1 as [a actions Ha|a actions _ IH]; simpl.
  - by destruct (AppliesTo a).
  - destruct (AppliesTo a); [|done].
    destruct (if decide _ then _ else _); [|done].
    by destruct (resolveActions X actions helper).
Qed.

(** X24. A restore that cannot be prepared touches nothing: when the label
    selector of the request is not valid, when a configured priority does
    not resolve through discovery, or when the descriptor of an action
    cannot be had, [Restore] returns one system error and no warning,
    without a call on the file system or on the cluster. *)
Theorem Restore_setup_failure {FS} X (kr : @kubernetesRestorer World WatchT)
    (fsImpl : filesystem.Interface FS) restore backup backupReader actions disk w :
  is_Err (restoreSelector restore) ∨
  Exists (λ r, is_Err (resolvePriority (discoveryHelper kr) r)) (resourcePriorities kr) ∨
  Exists (λ a, is_Err (AppliesTo a)) actions →
  ∃ err, Restore X kr fsImpl restore backup backupReader actions disk w
         = (Some (emptyResult, mkResult [err] [] ∅, initialState w), disk).
Proof.
  intros Hfails. unfold Restore.
  destruct (restoreSelector restore) as [selector|err]; [|by eexists].
  match goal with |- context [prioritizeResources ?h ?p ?i] =>
    destruct (prioritizeResources h p i) as [prioritized|err] eqn:Hprio end;
    [|by eexists].
  destruct (resolveActions X actions (discoveryHelper kr)) as [resolved|err] eqn:Hres;
    [|by eexists].
  destruct Hfails as [[]|[Hpriority|Haction]].
  - unfold prioritizeResources in Hprio.
    match type of Hprio with context [resolvePriorities ?h ?i ?p ?r ?s] =>
      pose proof (resolvePriorities_Err h i p r s Hpriority) as Herr;
      destruct (resolvePriorities h i p r s) as [[??]|] end; done.
  - pose proof (resolveActions_Err X actions (discoveryHelper kr) Haction) as Herr.
    by rewrite Hres in Herr.
Qed.

(** X25. [prioritizeResources] fails when the group version of a listing
    of discovery does not parse, whatever the priorities. *)
Theorem prioritizeResources_group_version helper priorities includedResources :
  Exists (λ g, is_Err (ParseGroupVersion (GroupVersionOf g))) (Resources helper) →
  is_Err (prioritizeResources helper priorities includedResources).
Proof.
  intros Hgroup. unfold prioritizeResources.
  destruct (resolvePriorities helper includedResources priorities [] ∅) as [[ret set]|];
    [|done].
  pose proof (collectGroups_Err includedResources set (Resources helper) [] Hgroup) as Herr.
  by destruct (collectGroups includedResources set (Resources helper) []).
Qed.

End preparation.

Section whole_restore_examples.
Import schema discovery collections unstructured labels api restore prioritize.

(** The run of C8's two volumes through [restoreFromArchive]. *)
Definition keptVolumesRun :=
  restoreFromArchive (fakeExternals twoKeptVolumes) volumesContext
    (fakeReader twoKeptVolumes) emptyCluster.

Example keptVolumesRun_trace :
  (λ '(w, e, s), trace s) <$> keptVolumesRun
  = Some [EvExecutePVAction (kept "pv1"); EvWatch;
          EvGoWaitForReady "persistentvolumes" "pv1" Minute;
          EvCreate (restoredVolume "pv1"
                      [("persistentVolumeReclaimPolicy", VStr "Retain")]);
          EvExecutePVAction (kept "pv2");
          EvCreate (restoredVolume "pv2"
                      [("persistentVolumeReclaimPolicy", VStr "Retain")]);
          EvStop "persistentvolumes"].
Proof. reflexivity. Qed.

(** X19, witness: that run. *)
Lemma watches_are_stopped_witness :
  ∃ s', (λ '(w, e, s), s) <$> keptVolumesRun = Some s' ∧
        stopped (trace s') = started (trace s').
Proof.
  pose proof keptVolumesRun_trace as Hran.
  destruct keptVolumesRun as [[[w e] s']|] eqn:Hrun; [|done].
  exists s'. split; [done|].
  destruct (watches_are_stopped (fakeExternals twoKeptVolumes) volumesContext
              (fakeReader twoKeptVolumes) emptyCluster w e s' eq_refl eq_refl Hrun)
    as (evs & _ & _ & Hstopped).
  exact Hstopped.
Defined.

(** A config map and a pod in the namespace [ns-1]. *)
Definition configMapAndPod : list item :=
  [ mkItem "configmaps" "ns-1" "cm1.json" (Ok (configMap "backup"));
    mkItem "pods" "ns-1" "p1.json"
      (Ok (document "Pod" "p1" "ns-1" [("status", VMap {[ "phase" := VStr "Running" ]})])) ].

Definition configMapAndPodRun :=
  restoreFromArchive (fakeExternals configMapAndPod)
    (fakeContext fakeRestore (fakeBackup ∅) [mkGR "" "configmaps"; kuberesource.Pods] [])
    (fakeReader configMapAndPod) emptyCluster.

Example configMapAndPodRun_trace :
  (λ '(w, e, s), trace s) <$> configMapAndPodRun
  = Some [EvEnsureNamespaceExists (mkNamespace "ns-1" None None VNull);
          EvCreate (restoredConfigMap "backup");
          EvCreate (restoredWith "Pod" "p1" "ns-1" [] [])].
Proof. reflexivity. Qed.

(** X20, witness: the two resource types are restored into [ns-1], which
    is ensured once. *)
Lemma namespaces_ensured_once_witness :
  ∃ s', (λ '(w, e, s), s) <$> configMapAndPodRun = Some s' ∧
        NoDup (ensured (trace s')).
Proof.
  pose proof configMapAndPodRun_trace as Hran.
  destruct configMapAndPodRun as [[[w e] s']|] eqn:Hrun; [|done].
  exists s'. split; [done|].
  apply (namespaces_ensured_once (fakeExternals configMapAndPod)
           (λ ns w0 Herr, Herr)
           (fakeContext fakeRestore (fakeBackup ∅) [mkGR "" "configmaps"; kuberesource.Pods] [])
           (fakeReader configMapAndPod) emptyCluster w e s' eq_refl Hrun).
Defined.

(** A request that leaves the cluster-scoped resources out, on the
    archive of a volume and a config map. *)
Definition namespacedOnly : api.Restore :=
  mkRestore "restore-1" ∅ "backup-1" [] [] [] [] ∅ None (Some false) None.

Definition namespacedOnlyContext : @context cluster string :=
  fakeContext namespacedOnly (fakeBackup ∅)
    [kuberesource.PersistentVolumes; mkGR "" "configmaps"] [].

Definition namespacedOnlyRun :=
  restoreFromArchive (fakeExternals volumeAndConfigMap) namespacedOnlyContext
    (fakeReader volumeAndConfigMap) emptyCluster.

Example namespacedOnlyRun_trace :
  (λ '(w, e, s), trace s) <$> namespacedOnlyRun
  = Some [EvEnsureNamespaceExists (mkNamespace "ns-1" None None VNull);
          EvCreate (restoredConfigMap "backup")].
Proof. reflexivity. Qed.

(** X21, witness: that run; the volume is not created, the namespace
    [ns-1] is ensured and the config map is created in it. *)
Lemma cluster_resources_excluded_witness :
  ∃ s', (λ '(w, e, s), s) <$> namespacedOnlyRun = Some s' ∧
        ∀ obj, EvCreate obj ∈ trace s' → GetNamespace obj ≠ "".
Proof.
  pose proof namespacedOnlyRun_trace as Hran.
  destruct namespacedOnlyRun as [[[w e] s']|] eqn:Hrun; [|done].
  exists s'. split; [done|].
  destruct (cluster_resources_excluded (fakeExternals volumeAndConfigMap)
              namespacedOnlyContext (fakeReader volumeAndConfigMap) emptyCluster w e s'
              eq_refl Hrun) as (evs & -> & Hall).
  exact Hall.
Defined.

(** The two volumes of C2, restored when [pv0] is in the provisioning set
    already. *)
Definition provisionedRun :=
  restoreFromArchive (fakeExternals twoVolumes) volumesContext
    (fakeReader twoVolumes) (insertProvision "pv0" emptyCluster).

Example provisionedRun_set :
  (λ '(w, e, s), pvsToProvision s) <$> provisionedRun = Some {[ "pv0"; "pv2" ]}.
Proof. reflexivity. Qed.

(** X22, witness: that run. *)
Lemma provisioning_set_grows_witness :
  ∃ s', (λ '(w, e, s), s) <$> provisionedRun = Some s' ∧ "pv0" ∈ pvsToProvision s'.
Proof.
  pose proof provisionedRun_set as Hran.
  destruct provisionedRun as [[[w e] s']|] eqn:Hrun; [|done].
  exists s'. split; [done|].
  apply (provisioning_set_grows (fakeExternals twoVolumes) volumesContext
           (fakeReader twoVolumes) (insertProvision "pv0" emptyCluster) w e s' Hrun).
  set_solver.
Defined.

(** X24, witness: the priority [widgets], which discovery does not
    know. *)
Lemma Restore_setup_failure_witness :
  ∃ err,
    Restore (fakeExternals []) (mkRestorer smallHelper fakeFactory None None 0 ["widgets"])
      memInterface fakeRestore (fakeBackup ∅) goodArchive [] emptyDisk ∅
    = (Some (emptyResult, mkResult [err] [] ∅, initialState ∅), emptyDisk).
Proof.
  apply Restore_setup_failure. right. left. by repeat constructor.
Defined.

(** A discovery helper with a listing whose group version has two
    slashes. *)
Definition brokenHelper : Helper :=
  {| ResourceFor := λ gvr, Ok (gvr, mkAPIResource (gvrResource gvr) true);
     Resources := [ mkAPIResourceList "apps/v1/extra" [mkAPIResource "deployments" true] ] |}.

(** X25, witness: that helper. *)
Lemma prioritizeResources_group_version_witness :
  is_Err (prioritizeResources brokenHelper ["pods"] includeAll).
Proof. apply prioritizeResources_group_version. by repeat constructor. Defined.

End whole_restore_examples.
